(** * Tails: threaded-code VM and compiler

    A shallow embedding of the Tails virtual machine (core_words.cc,
    word.hh, opcodes.hh) and of its compiler (compiler.cc), with the
    properties of the instruction stream, of branch resolution and of the
    vocabulary that the specification states about them. *)

From Stdlib Require Import ZArith Bool Lia Ascii String.
From Stdlib Require Import PrimFloat SpecFloat FloatOps.
From stdpp Require Import gmap strings list.

Local Open Scope Z_scope.

(** ** Opcodes (opcodes.hh)

    The enumeration in emission order.  core_words.cc spells four of its
    handlers without the underscore: RETURN, LITERAL, BRANCH and ZBRANCH are
    the handlers of [_RETURN], [_LITERAL], [_BRANCH] and [_ZBRANCH]. *)

Module Opcode.

Inductive Opcode : Set :=
| _INTERP | _TAILINTERP | _LITERAL | _INT | _RETURN | _BRANCH | _ZBRANCH
| NOP | _RECURSE | DROP | DUP | OVER | ROT | _ROTn | SWAP | ZERO | ONE
| EQ | NE | EQ_ZERO | NE_ZERO | GE | GT | GT_ZERO | LE | LT | LT_ZERO
| ABS | MAX | MIN | DIV | MOD | MINUS | MULT | PLUS | CALL | NULL_
| LENGTH | IFELSE | DEFINE | _GETARG | _SETARG | _LOCALS | _DROPARGS
| PRINT | SP | NL | NLQ.

End Opcode.

Abbreviation Opcode := Opcode.Opcode.

Definition opcode_index (op : Opcode) : Z :=
  match op with
  | Opcode._INTERP => 0 | Opcode._TAILINTERP => 1 | Opcode._LITERAL => 2 | Opcode._INT => 3
  | Opcode._RETURN => 4 | Opcode._BRANCH => 5 | Opcode._ZBRANCH => 6 | Opcode.NOP => 7
  | Opcode._RECURSE => 8 | Opcode.DROP => 9 | Opcode.DUP => 10 | Opcode.OVER => 11 | Opcode.ROT => 12
  | Opcode._ROTn => 13 | Opcode.SWAP => 14 | Opcode.ZERO => 15 | Opcode.ONE => 16 | Opcode.EQ => 17
  | Opcode.NE => 18 | Opcode.EQ_ZERO => 19 | Opcode.NE_ZERO => 20 | Opcode.GE => 21 | Opcode.GT => 22
  | Opcode.GT_ZERO => 23 | Opcode.LE => 24 | Opcode.LT => 25 | Opcode.LT_ZERO => 26 | Opcode.ABS => 27
  | Opcode.MAX => 28 | Opcode.MIN => 29 | Opcode.DIV => 30 | Opcode.MOD => 31 | Opcode.MINUS => 32
  | Opcode.MULT => 33 | Opcode.PLUS => 34 | Opcode.CALL => 35 | Opcode.NULL_ => 36 | Opcode.LENGTH => 37
  | Opcode.IFELSE => 38 | Opcode.DEFINE => 39 | Opcode._GETARG => 40 | Opcode._SETARG => 41
  | Opcode._LOCALS => 42 | Opcode._DROPARGS => 43 | Opcode.PRINT => 44 | Opcode.SP => 45 | Opcode.NL => 46
  | Opcode.NLQ => 47
  end.

Definition Opcode_eqb (a b : Opcode) : bool :=
  opcode_index a =? opcode_index b.

(** ** Values

    core_words.cc is written against an interface of [Value]: it "requires
    that Value has methods asNumber and asInt, and that there are
    conversions from integer and double to Value", and ZBRANCH "assumes
    Value supports operator !".  The interface is a class; the handlers
    below are generic in it. *)

Class ValueOps (Value : Type) := {
  v_not : Value -> bool;                       (* operator!          *)
  v_of_int : Z -> Value;                       (* Value(int)         *)
  v_of_bool : bool -> Value;                   (* Value(bool)        *)
  v_null : Value;                              (* Value()            *)
  v_add : Value -> Value -> Value;
  v_sub : Value -> Value -> Value;
  v_mul : Value -> Value -> Value;
  v_div : Value -> Value -> Value;
  v_mod : Value -> Value -> Value;
  v_eq : Value -> Value -> bool;
  v_ne : Value -> Value -> bool;
  v_gt : Value -> Value -> bool;
  v_ge : Value -> Value -> bool;
  v_lt : Value -> Value -> bool;
  v_le : Value -> Value -> bool;
  v_length : Value -> Value;
  (* compiler.cc: [v.isDouble() && canCastToInt16(v.asDouble())], with the
     int16 the double is cast to *)
  v_int16 : Value -> option Z;
  (* compiler.cc: [v.type()], the small integer tag of the variant *)
  v_type : Value -> Z;
}.

(** ** Instructions

    A word's instruction is "either an Op or an Instruction*" (word.hh): the
    native handler of an opcode, or the address of an instruction array.
    An instruction array holds opcodes and, after the ones that take one,
    their inline parameter. *)

Inductive Instruction : Set :=
| native (op : Opcode)
| interpreted (words : Z).

Definition Instruction_eqb (a b : Instruction) : bool :=
  match a, b with
  | native f, native g => Opcode_eqb f g
  | interpreted p, interpreted q => p =? q
  | _, _ => false
  end.

(** ** Stack effects

    Modelled from the spec: TypeSet and StackEffect (stack_effect.hh is not
    under src/): "a bitset over the variants" and "a pair (inputs: ordered
    list of TypeSet, outputs: ordered list of TypeSet), plus max". *)

Definition TypeSet := Z.

Definition AnyType : TypeSet := 0x1F.

Record StackEffect : Set := {
  inputs : list TypeSet;
  outputs : list TypeSet;
  max : Z;
}.

Definition inputCount (e : StackEffect) : Z := Z.of_nat (length (inputs e)).
Definition outputCount (e : StackEffect) : Z := Z.of_nat (length (outputs e)).

(** [StackEffect()] *)
Definition StackEffect_empty : StackEffect :=
  {| inputs := []; outputs := []; max := 0 |}.

(** [StackEffect(in, out)] and [StackEffect(in, out, max)] of core_words.cc *)
Definition StackEffect_of (nin nout : nat) (m : Z) : StackEffect :=
  {| inputs := replicate nin AnyType; outputs := replicate nout AnyType;
     max := m |}.

Definition addInput (t : TypeSet) (e : StackEffect) : StackEffect :=
  {| inputs := inputs e ++ [t]; outputs := outputs e; max := max e |}.

(** ** Words (word.hh) *)

Definition NoFlags : Z := 0x00.
Definition Native : Z := 0x01.
Definition HasIntParam : Z := 0x02.
Definition HasValParam : Z := 0x04.
Definition Magic : Z := 0x08.
Definition Inline : Z := 0x10.
(** Modelled from the spec: the flag [Recursive] that compiler.cc sets (the
    word.hh under src/ predates it); the next free bit of the flag set
    "{Native, HasIntParam, HasValParam, Magic, Inline, Recursive}". *)
Definition Recursive : Z := 0x20.

Record Word : Set := {
  instruction : Instruction;      (* _instr *)
  name : option string;           (* _name: the Forth name, or NULL *)
  stackEffect : StackEffect;      (* _effect *)
  flags : Z;                      (* _flags, a uint8 *)
}.

(** [Word(name, native, effect, flags)] *)
Definition Word_native (nm : string) (op : Opcode) (effect : StackEffect)
    (flags : Z) : Word :=
  {| instruction := native op; name := Some nm; stackEffect := effect;
     flags := Z.lor flags Native |}.

(** [Word(name, effect, words)] *)
Definition Word_interp (nm : string) (effect : StackEffect) (words : Z) : Word :=
  {| instruction := interpreted words; name := Some nm;
     stackEffect := effect; flags := NoFlags |}.

Definition hasFlag (w : Word) (f : Z) : bool := negb (Z.land (flags w) f =? 0).
Definition isNative (w : Word) : bool := hasFlag w Native.
Definition hasIntParam (w : Word) : bool := hasFlag w HasIntParam.
Definition hasValParam (w : Word) : bool := hasFlag w HasValParam.
Definition hasAnyParam (w : Word) : bool :=
  negb (Z.land (flags w) (Z.lor HasIntParam HasValParam) =? 0).
Definition isMagic (w : Word) : bool := hasFlag w Magic.

(** [parameters()] is only called by compiler.cc; with the flags of word.hh
    a word has one inline parameter or none. *)
Definition parameters (w : Word) : Z := if hasAnyParam w then 1 else 0.

(** [operator==(const Word&, const Word&)]:
    [a.instruction().native == b.instruction().native] *)
Definition Word_eqb (a b : Word) : bool :=
  Instruction_eqb (instruction a) (instruction b).

(** [i->word == &_BRANCH]: the compiler compares addresses of Word objects.
    NATIVE_WORD defines exactly one Word object per handler, so a word is
    that object when it is the native word of the handler. *)
Definition is_word (w : Word) (op : Opcode) : bool :=
  match instruction w with
  | native f => Opcode_eqb f op
  | interpreted _ => false
  end.

(** ** The core words (core_words.cc)

    The native words, under the names compiler.cc uses for them. *)

Definition CALL := Word_native "CALL" Opcode.CALL (StackEffect_of 1 1 0) Magic.
Definition _RETURN := Word_native "RETURN" Opcode._RETURN (StackEffect_of 0 0 0) 0.
Definition _LITERAL :=
  Word_native "LITERAL" Opcode._LITERAL (StackEffect_of 0 1 0)
    (Z.lor Magic HasValParam).
Definition DUP := Word_native "DUP" Opcode.DUP (StackEffect_of 1 2 0) 0.
Definition DROP := Word_native "DROP" Opcode.DROP (StackEffect_of 1 0 0) 0.
Definition SWAP := Word_native "SWAP" Opcode.SWAP (StackEffect_of 2 2 0) 0.
Definition OVER := Word_native "OVER" Opcode.OVER (StackEffect_of 2 3 0) 0.
Definition ROT := Word_native "ROT" Opcode.ROT (StackEffect_of 3 3 0) 0.
Definition NOP := Word_native "NOP" Opcode.NOP (StackEffect_of 0 0 0) 0.
Definition _BRANCH :=
  Word_native "BRANCH" Opcode._BRANCH (StackEffect_of 0 0 0)
    (Z.lor Magic HasIntParam).
Definition _ZBRANCH :=
  Word_native "0BRANCH" Opcode._ZBRANCH (StackEffect_of 1 0 0)
    (Z.lor Magic HasIntParam).
Definition ZERO := Word_native "0" Opcode.ZERO (StackEffect_of 0 1 0) 0.
Definition ONE := Word_native "1" Opcode.ONE (StackEffect_of 0 1 0) 0.
Definition NULL_ := Word_native "NULL" Opcode.NULL_ (StackEffect_of 0 1 0) 0.
(** Modelled from the spec: the StackEffect of the eleven binary operators.
    core_words.cc gives BINARY_OP_WORD three arguments, the macro of
    word.hh takes four: the effect is not written there.  "Arithmetic/
    relational: operate on top two values; relational pushes 0/1": two
    inputs, one output. *)
Definition PLUS := Word_native "+" Opcode.PLUS (StackEffect_of 2 1 0) NoFlags.
Definition MINUS := Word_native "-" Opcode.MINUS (StackEffect_of 2 1 0) NoFlags.
Definition MULT := Word_native "*" Opcode.MULT (StackEffect_of 2 1 0) NoFlags.
Definition DIV := Word_native "/" Opcode.DIV (StackEffect_of 2 1 0) NoFlags.
Definition MOD := Word_native "MOD" Opcode.MOD (StackEffect_of 2 1 0) NoFlags.
Definition EQ := Word_native "=" Opcode.EQ (StackEffect_of 2 1 0) NoFlags.
Definition NE := Word_native "<>" Opcode.NE (StackEffect_of 2 1 0) NoFlags.
Definition GT := Word_native ">" Opcode.GT (StackEffect_of 2 1 0) NoFlags.
Definition GE := Word_native ">=" Opcode.GE (StackEffect_of 2 1 0) NoFlags.
Definition LT := Word_native "<" Opcode.LT (StackEffect_of 2 1 0) NoFlags.
Definition LE := Word_native "<=" Opcode.LE (StackEffect_of 2 1 0) NoFlags.
Definition EQ_ZERO := Word_native "0=" Opcode.EQ_ZERO (StackEffect_of 1 1 0) 0.
Definition NE_ZERO := Word_native "0<>" Opcode.NE_ZERO (StackEffect_of 1 1 0) 0.
Definition GT_ZERO := Word_native "0>" Opcode.GT_ZERO (StackEffect_of 1 1 0) 0.
Definition LT_ZERO := Word_native "0<" Opcode.LT_ZERO (StackEffect_of 1 1 0) 0.
Definition LENGTH := Word_native "LENGTH" Opcode.LENGTH (StackEffect_of 1 1 0) 0.

(** Modelled from the spec: the native words compiler.cc names whose
    definitions are not under src/ (the core_words.cc there predates them).
    Each takes an inline integer ("int16 offset (signed): _BRANCH, _ZBRANCH,
    _RECURSE, _GETARG, _SETARG, _LOCALS", "int16 immediate: _INT", "packed
    {uint8 locals, uint8 results}: _DROPARGS") and is "low-level; not
    user-callable". *)
Definition _INT :=
  Word_native "_INT" Opcode._INT (StackEffect_of 0 1 0) (Z.lor Magic HasIntParam).
Definition _RECURSE :=
  Word_native "_RECURSE" Opcode._RECURSE (StackEffect_of 0 0 0)
    (Z.lor Magic HasIntParam).
Definition _GETARG :=
  Word_native "_GETARG" Opcode._GETARG (StackEffect_of 0 1 0)
    (Z.lor Magic HasIntParam).
Definition _SETARG :=
  Word_native "_SETARG" Opcode._SETARG (StackEffect_of 1 0 0)
    (Z.lor Magic HasIntParam).
Definition _LOCALS :=
  Word_native "_LOCALS" Opcode._LOCALS (StackEffect_of 0 0 0)
    (Z.lor Magic HasIntParam).
Definition _DROPARGS :=
  Word_native "_DROPARGS" Opcode._DROPARGS (StackEffect_of 0 0 0)
    (Z.lor Magic HasIntParam).

Section Machine.

Context {Value : Type} `{ValueOps Value}.

Inductive AfterInstruction : Type :=
| p_none
| p_offset (n : Z)
| p_literal (v : Value)
| p_word (addr : Z)
| p_drop (locals results : Z).

Inductive Cell : Type :=
| C_op (op : Opcode)
| C_param (p : AfterInstruction).

(** The data stack: [sp] points at the top value, which is the head of the
    list; [sp[-1]] is the second element.  Reading below the bottom of the
    stack is undefined behaviour.  A list cannot hold an [sp] that has
    moved below the empty stack without reading anything (a [DROP] on the
    empty stack): a run that does so leaves the model (see [UNDERFLOWS]).
    The capacity of the stack array is not modelled. *)
Definition Stack := list Value.

(** Program counter: an index into the instruction array being executed. *)
Definition fetch (code : list Cell) (pc : Z) : option Cell :=
  if pc <? 0 then None else code !! Z.to_nat pc.

(** What a native handler does with [(sp, pc)]: it ends with [NEXT()],
    returns [sp], or (only CALL) first calls another word.  [pc] is the
    address after the handler's own opcode, where its inline parameter is.
    [UNDEFINED]: the handler reads or writes below the bottom of the stack,
    or reads a parameter that is not there.  [UNDERFLOWS pc]: the handler
    ends with [NEXT()] at [pc] with [sp] one below the empty stack, having
    read nothing. *)
Inductive Handled : Type :=
| NEXT (sp : Stack) (pc : Z)
| RETURNS (sp : Stack)
| CALLS (callee : Z) (sp : Stack) (pc : Z)
| UNDEFINED
| UNDERFLOWS (pc : Z).

Definition f_CALL (code : list Cell) (sp : Stack) (pc : Z) : Handled :=
  match fetch code pc with
  | Some (C_param (p_word w)) => CALLS w sp (pc + 1)
  | _ => UNDEFINED
  end.

Definition f_RETURN (code : list Cell) (sp : Stack) (pc : Z) : Handled :=
  RETURNS sp.

Definition f_LITERAL (code : list Cell) (sp : Stack) (pc : Z) : Handled :=
  match fetch code pc with
  | Some (C_param (p_literal v)) => NEXT (v :: sp) (pc + 1)
  | _ => UNDEFINED
  end.

Definition f_DUP (code : list Cell) (sp : Stack) (pc : Z) : Handled :=
  match sp with
  | a :: _ => NEXT (a :: sp) pc
  | _ => UNDEFINED
  end.

(** [--sp; NEXT();]: nothing is read, also on the empty stack. *)
Definition f_DROP (code : list Cell) (sp : Stack) (pc : Z) : Handled :=
  match sp with
  | _ :: sp' => NEXT sp' pc
  | [] => UNDERFLOWS pc
  end.

Definition f_SWAP (code : list Cell) (sp : Stack) (pc : Z) : Handled :=
  match sp with
  | b :: a :: sp' => NEXT (a :: b :: sp') pc
  | _ => UNDEFINED
  end.

Definition f_OVER (code : list Cell) (sp : Stack) (pc : Z) : Handled :=
  match sp with
  | b :: a :: sp' => NEXT (a :: b :: a :: sp') pc
  | _ => UNDEFINED
  end.

Definition f_ROT (code : list Cell) (sp : Stack) (pc : Z) : Handled :=
  match sp with
  | c :: b :: a :: sp' => NEXT (a :: c :: b :: sp') pc
  | _ => UNDEFINED
  end.

Definition f_NOP (code : list Cell) (sp : Stack) (pc : Z) : Handled :=
  NEXT sp pc.

(** [pc += pc->offset + 1;] *)
Definition f_BRANCH (code : list Cell) (sp : Stack) (pc : Z) : Handled :=
  match fetch code pc with
  | Some (C_param (p_offset off)) => NEXT sp (pc + (off + 1))
  | _ => UNDEFINED
  end.

(** [if (!( *sp--)) pc += pc->offset;  ++pc;] *)
Definition f_ZBRANCH (code : list Cell) (sp : Stack) (pc : Z) : Handled :=
  match sp with
  | top :: sp' =>
      if v_not top then
        match fetch code pc with
        | Some (C_param (p_offset off)) => NEXT sp' (pc + off + 1)
        | _ => UNDEFINED
        end
      else NEXT sp' (pc + 1)
  | [] => UNDEFINED
  end.

Definition f_ZERO (code : list Cell) (sp : Stack) (pc : Z) : Handled :=
  NEXT (v_of_int 0 :: sp) pc.

Definition f_ONE (code : list Cell) (sp : Stack) (pc : Z) : Handled :=
  NEXT (v_of_int 1 :: sp) pc.

Definition f_NULL_ (code : list Cell) (sp : Stack) (pc : Z) : Handled :=
  NEXT (v_null :: sp) pc.

(** BINARY_OP_WORD: [sp[-1] = Value(sp[-1] INFIXOP sp[0]); --sp;] *)
Definition binary_op (f : Value -> Value -> Value)
    (code : list Cell) (sp : Stack) (pc : Z) : Handled :=
  match sp with
  | b :: a :: sp' => NEXT (f a b :: sp') pc
  | _ => UNDEFINED
  end.

Definition relational (f : Value -> Value -> bool) : Value -> Value -> Value :=
  fun a b => v_of_bool (f a b).

(** [sp[0] = Value(sp[0] OP Value(0));] *)
Definition unary_op (f : Value -> Value)
    (code : list Cell) (sp : Stack) (pc : Z) : Handled :=
  match sp with
  | a :: sp' => NEXT (f a :: sp') pc
  | _ => UNDEFINED
  end.

(** Modelled from the spec: the handler of [_INT] (the core_words.cc under
    src/ predates it): "push the inline 16-bit integer". *)
Definition f_INT (code : list Cell) (sp : Stack) (pc : Z) : Handled :=
  match fetch code pc with
  | Some (C_param (p_offset n)) => NEXT (v_of_int n :: sp) (pc + 1)
  | _ => UNDEFINED
  end.

(** The native handler of each opcode that core_words.cc defines (and
    [_INT]); the other opcodes have no handler under src/. *)
Definition handler (op : Opcode)
  : option (list Cell -> Stack -> Z -> Handled) :=
  match op with
  | Opcode.CALL => Some f_CALL
  | Opcode._RETURN => Some f_RETURN
  | Opcode._LITERAL => Some f_LITERAL
  | Opcode._INT => Some f_INT
  | Opcode.DUP => Some f_DUP
  | Opcode.DROP => Some f_DROP
  | Opcode.SWAP => Some f_SWAP
  | Opcode.OVER => Some f_OVER
  | Opcode.ROT => Some f_ROT
  | Opcode.NOP => Some f_NOP
  | Opcode._BRANCH => Some f_BRANCH
  | Opcode._ZBRANCH => Some f_ZBRANCH
  | Opcode.ZERO => Some f_ZERO
  | Opcode.ONE => Some f_ONE
  | Opcode.NULL_ => Some f_NULL_
  | Opcode.PLUS => Some (binary_op v_add)
  | Opcode.MINUS => Some (binary_op v_sub)
  | Opcode.MULT => Some (binary_op v_mul)
  | Opcode.DIV => Some (binary_op v_div)
  | Opcode.MOD => Some (binary_op v_mod)
  | Opcode.EQ => Some (binary_op (relational v_eq))
  | Opcode.NE => Some (binary_op (relational v_ne))
  | Opcode.GT => Some (binary_op (relational v_gt))
  | Opcode.GE => Some (binary_op (relational v_ge))
  | Opcode.LT => Some (binary_op (relational v_lt))
  | Opcode.LE => Some (binary_op (relational v_le))
  | Opcode.EQ_ZERO => Some (unary_op (fun a => v_of_bool (v_eq a (v_of_int 0))))
  | Opcode.NE_ZERO => Some (unary_op (fun a => v_of_bool (v_ne a (v_of_int 0))))
  | Opcode.GT_ZERO => Some (unary_op (fun a => v_of_bool (v_gt a (v_of_int 0))))
  | Opcode.LT_ZERO => Some (unary_op (fun a => v_of_bool (v_lt a (v_of_int 0))))
  | Opcode.LENGTH => Some (unary_op v_length)
  | _ => None
  end.

(** How a run ends in the model: the word returns a stack; the behaviour
    is undefined; the bound on the run is reached; or the run goes on with
    [sp] below the empty stack, where the model does not follow it. *)
Inductive Outcome : Type :=
| Returned (sp : Stack)
| Undefined
| OutOfFuel
| Underflowed.

(** [NEXT()] is [return pc->native(sp, pc + 1)] and [call(sp, start)] is
    [start->native(sp, start + 1)]: the threaded dispatch.  [fuel] bounds
    the run: each dispatched instruction takes one unit from the bound of
    the word it is in, and a word that is called starts with the bound its
    caller has left at the [CALL], as does the caller when the word has
    returned.  It is a bound on the length of every path of dispatches and
    calls, not a count of the instructions of the whole run.  [mem] maps
    the address of an instruction array to its cells. *)
Fixpoint dispatch (fuel : nat) (mem : gmap Z (list Cell))
    (code : list Cell) (pc : Z) (sp : Stack) : Outcome :=
  match fuel with
  | O => OutOfFuel
  | S fuel' =>
      match fetch code pc with
      | Some (C_op op) =>
          match handler op with
          | Some f =>
              match f code sp (pc + 1) with
              | NEXT sp' pc' => dispatch fuel' mem code pc' sp'
              | RETURNS sp' => Returned sp'
              | CALLS w sp' pc' =>
                  match mem !! w with
                  | Some callee =>
                      match dispatch fuel' mem callee 0 sp' with
                      | Returned sp'' => dispatch fuel' mem code pc' sp''
                      | other => other
                      end
                  | None => Undefined
                  end
              | UNDEFINED => Undefined
              | UNDERFLOWS _ => Underflowed
              end
          | None => Undefined
          end
      | _ => Undefined
      end
  end.

Definition call (fuel : nat) (mem : gmap Z (list Cell))
    (start : list Cell) (sp : Stack) : Outcome :=
  dispatch fuel mem start 0 sp.

(** ** The interpreted core words (core_words.cc)

    [INTERP_WORD] lays the words out as an array and appends [_RETURN]; a
    Word converts to its instruction. *)

Definition Word_cell (w : Word) : Cell :=
  match instruction w with
  | native op => C_op op
  | interpreted a => C_param (p_word a)
  end.

Definition withOffset (n : Z) : Cell := C_param (p_offset n).

Definition INTERP_WORD (words : list Cell) : list Cell :=
  words ++ [Word_cell _RETURN].

Definition i_SQUARE : list Cell :=
  INTERP_WORD [Word_cell DUP; Word_cell MULT].

Definition i_ABS : list Cell :=
  INTERP_WORD [Word_cell DUP; Word_cell LT_ZERO;
               Word_cell _ZBRANCH; withOffset 3;
               Word_cell ZERO; Word_cell SWAP; Word_cell MINUS].

Definition i_MAX : list Cell :=
  INTERP_WORD [Word_cell OVER; Word_cell OVER; Word_cell LT;
               Word_cell _ZBRANCH; withOffset 1;
               Word_cell SWAP; Word_cell DROP].

Definition i_MIN : list Cell :=
  INTERP_WORD [Word_cell OVER; Word_cell OVER; Word_cell GT;
               Word_cell _ZBRANCH; withOffset 1;
               Word_cell SWAP; Word_cell DROP].

End Machine.

Arguments AfterInstruction : clear implicits.
Arguments Cell : clear implicits.
Arguments Stack : clear implicits.
Arguments Handled : clear implicits.
Arguments Outcome : clear implicits.

(** The addresses of the four static arrays: distinct, otherwise of no
    consequence. *)
Definition a_SQUARE : Z := 0x1000.
Definition a_ABS : Z := 0x1100.
Definition a_MAX : Z := 0x1200.
Definition a_MIN : Z := 0x1300.

Definition SQUARE := Word_interp "SQUARE" (StackEffect_of 1 1 1) a_SQUARE.
Definition ABS := Word_interp "ABS" (StackEffect_of 1 1 1) a_ABS.
Definition MAX := Word_interp "MAX" (StackEffect_of 2 1 2) a_MAX.
Definition MIN := Word_interp "MIN" (StackEffect_of 2 1 2) a_MIN.

Definition core_memory (Value : Type) : gmap Z (list (Cell Value)) :=
  list_to_map [(a_SQUARE, i_SQUARE); (a_ABS, i_ABS);
               (a_MAX, i_MAX); (a_MIN, i_MIN)].

(** [kWords]: the words registered in the vocabulary at startup. *)
Definition kWords : list Word :=
  [ CALL; _LITERAL; _RETURN;
    DROP; DUP; OVER; ROT; SWAP; NOP;
    _BRANCH; _ZBRANCH;
    ZERO; ONE; NULL_;
    EQ; NE; EQ_ZERO; NE_ZERO;
    GE; GT; GT_ZERO;
    LE; LT; LT_ZERO;
    ABS; MAX; MIN; SQUARE;
    DIV; MOD; MINUS; MULT; PLUS;
    LENGTH ].

(** ** Outcomes of the compiler

    A compiler function returns, throws [compile_error(what, location)],
    fails an [assert], has undefined behaviour (it dereferences an
    iterator that is not there), or does not return. *)

Inductive Throws (A : Type) : Type :=
| ok (a : A)
| compile_error (what : string) (location : option Z)
| assertion_failed
| undefined_behaviour
| never_returns.

Arguments ok {A} a.
Arguments compile_error {A} what location.
Arguments assertion_failed {A}.
Arguments undefined_behaviour {A}.
Arguments never_returns {A}.

#[global] Instance Throws_ret : MRet Throws := fun A a => ok a.

#[global] Instance Throws_bind : MBind Throws := fun A B f m =>
  match m with
  | ok a => f a
  | compile_error what location => compile_error what location
  | assertion_failed => assertion_failed
  | undefined_behaviour => undefined_behaviour
  | never_returns => never_returns
  end.

#[global] Instance Throws_fmap : FMap Throws := fun A B f m =>
  match m with
  | ok a => ok (f a)
  | compile_error what location => compile_error what location
  | assertion_failed => assertion_failed
  | undefined_behaviour => undefined_behaviour
  | never_returns => never_returns
  end.

(** A thrown [compile_error] carries the message and the location, not the
    compiler: an operation is a function of the compiler it is called on,
    and its caller still holds that compiler when it throws.  Where a
    statement is about the compiler a throwing call leaves, the call is
    modelled with its state (see [add_word_in_place]).

    Whether an outcome is a thrown [compile_error]. *)
Definition thrown {A : Type} (r : Throws A) : bool :=
  match r with
  | compile_error _ _ => true
  | _ => false
  end.

Definition assert (b : bool) : Throws unit :=
  if b then ok tt else assertion_failed.

(** ** The compiler's data (compiler.cc) *)

Section CompilerData.

Context {Value : Type}.

(** [Compiler::WordRef]: a word and its inline parameter. *)
Record WordRef : Type := {
  word : Word;
  param : AfterInstruction Value;
}.

(** [WordRef{w}] *)
Definition WordRef_of (w : Word) : WordRef := {| word := w; param := p_none |}.

(** [InstructionPos] is an iterator of the [std::list] of SourceWords: it
    stays valid when other entries are inserted or erased.  The model names
    each list node by a number that is never reused. *)
Definition InstructionPos := nat.

(** Modelled from the spec: [Compiler::SourceWord] (compiler.hh is not under
    src/): "{wordRef, param, source_position, branch_target?, pc_offset?,
    isBranchDestination}".  [node] is the identity of the list node. *)
Record SourceWord : Type := {
  node : InstructionPos;
  ref : WordRef;
  sourceCode : option Z;
  branchTo : option InstructionPos;
  pc : Z;
  isBranchDestination : bool;
}.

(** [SourceWord(ref, source)] in the list node [n]. *)
Definition SourceWord_of (r : WordRef) (source : option Z) (n : InstructionPos)
  : SourceWord :=
  {| node := n; ref := r; sourceCode := source; branchTo := None; pc := 0;
     isBranchDestination := false |}.

Definition set_word (w : Word) (i : SourceWord) : SourceWord :=
  {| node := node i; ref := {| word := w; param := param (ref i) |};
     sourceCode := sourceCode i; branchTo := branchTo i; pc := pc i;
     isBranchDestination := isBranchDestination i |}.

Definition set_param (p : AfterInstruction Value) (i : SourceWord) : SourceWord :=
  {| node := node i; ref := {| word := word (ref i); param := p |};
     sourceCode := sourceCode i; branchTo := branchTo i; pc := pc i;
     isBranchDestination := isBranchDestination i |}.

Definition set_branchTo (t : option InstructionPos) (i : SourceWord) : SourceWord :=
  {| node := node i; ref := ref i; sourceCode := sourceCode i; branchTo := t;
     pc := pc i; isBranchDestination := isBranchDestination i |}.

Definition set_pc (n : Z) (i : SourceWord) : SourceWord :=
  {| node := node i; ref := ref i; sourceCode := sourceCode i;
     branchTo := branchTo i; pc := n;
     isBranchDestination := isBranchDestination i |}.

Definition set_isBranchDestination (b : bool) (i : SourceWord) : SourceWord :=
  {| node := node i; ref := ref i; sourceCode := sourceCode i;
     branchTo := branchTo i; pc := pc i; isBranchDestination := b |}.

(** The list [_words], read and written through iterators. *)
Fixpoint deref (ws : list SourceWord) (p : InstructionPos) : option SourceWord :=
  match ws with
  | [] => None
  | i :: ws' => if Nat.eqb (node i) p then Some i else deref ws' p
  end.

Definition assign (p : InstructionPos) (f : SourceWord -> SourceWord)
    (ws : list SourceWord) : list SourceWord :=
  map (fun i => if Nat.eqb (node i) p then f i else i) ws.

Fixpoint next (ws : list SourceWord) (p : InstructionPos) : option SourceWord :=
  match ws with
  | [] => None
  | i :: ws' => if Nat.eqb (node i) p then head ws' else next ws' p
  end.

Definition erase (p : InstructionPos) (ws : list SourceWord) : list SourceWord :=
  filter (fun i => node i <> p) ws.

(** [Compiler]'s members.  [_nodes] counts the list nodes made so far. *)
Record Compiler : Type := {
  _name : string;
  _flags : Z;
  _effect : StackEffect;
  _effectCanAddInputs : bool;
  _effectCanAddOutputs : bool;
  _words : list SourceWord;
  _nodes : nat;
  _controlStack : list (ascii * InstructionPos);
  _localsTypes : list TypeSet;
  _usesArgs : bool;
  _curToken : option Z;
}.

Definition with_words (ws : list SourceWord) (n : nat) (c : Compiler) : Compiler :=
  {| _name := _name c; _flags := _flags c; _effect := _effect c;
     _effectCanAddInputs := _effectCanAddInputs c;
     _effectCanAddOutputs := _effectCanAddOutputs c;
     _words := ws; _nodes := n; _controlStack := _controlStack c;
     _localsTypes := _localsTypes c; _usesArgs := _usesArgs c;
     _curToken := _curToken c |}.

Definition with_flags (f : Z) (c : Compiler) : Compiler :=
  {| _name := _name c; _flags := f; _effect := _effect c;
     _effectCanAddInputs := _effectCanAddInputs c;
     _effectCanAddOutputs := _effectCanAddOutputs c;
     _words := _words c; _nodes := _nodes c;
     _controlStack := _controlStack c;
     _localsTypes := _localsTypes c; _usesArgs := _usesArgs c;
     _curToken := _curToken c |}.

Definition with_effect (e : StackEffect) (addIn addOut : bool) (c : Compiler)
  : Compiler :=
  {| _name := _name c; _flags := _flags c; _effect := e;
     _effectCanAddInputs := addIn; _effectCanAddOutputs := addOut;
     _words := _words c; _nodes := _nodes c;
     _controlStack := _controlStack c;
     _localsTypes := _localsTypes c; _usesArgs := _usesArgs c;
     _curToken := _curToken c |}.

Definition with_controlStack (s : list (ascii * InstructionPos)) (c : Compiler)
  : Compiler :=
  {| _name := _name c; _flags := _flags c; _effect := _effect c;
     _effectCanAddInputs := _effectCanAddInputs c;
     _effectCanAddOutputs := _effectCanAddOutputs c;
     _words := _words c; _nodes := _nodes c; _controlStack := s;
     _localsTypes := _localsTypes c; _usesArgs := _usesArgs c;
     _curToken := _curToken c |}.

Definition with_localsTypes (l : list TypeSet) (c : Compiler) : Compiler :=
  {| _name := _name c; _flags := _flags c; _effect := _effect c;
     _effectCanAddInputs := _effectCanAddInputs c;
     _effectCanAddOutputs := _effectCanAddOutputs c;
     _words := _words c; _nodes := _nodes c;
     _controlStack := _controlStack c;
     _localsTypes := l; _usesArgs := _usesArgs c;
     _curToken := _curToken c |}.

Definition with_usesArgs (b : bool) (c : Compiler) : Compiler :=
  {| _name := _name c; _flags := _flags c; _effect := _effect c;
     _effectCanAddInputs := _effectCanAddInputs c;
     _effectCanAddOutputs := _effectCanAddOutputs c;
     _words := _words c; _nodes := _nodes c;
     _controlStack := _controlStack c;
     _localsTypes := _localsTypes c; _usesArgs := b;
     _curToken := _curToken c |}.

Definition with_curToken (t : option Z) (c : Compiler) : Compiler :=
  {| _name := _name c; _flags := _flags c; _effect := _effect c;
     _effectCanAddInputs := _effectCanAddInputs c;
     _effectCanAddOutputs := _effectCanAddOutputs c;
     _words := _words c; _nodes := _nodes c;
     _controlStack := _controlStack c;
     _localsTypes := _localsTypes c; _usesArgs := _usesArgs c;
     _curToken := t |}.

End CompilerData.

Arguments WordRef : clear implicits.
Arguments SourceWord : clear implicits.
Arguments Compiler : clear implicits.

(** ** The assembler

    Modelled from the spec: [Assembler] (assembler.hh is not under src/):
    it "emits opcodes + inline parameters into a byte/word vector; tracks
    program-counter offsets".  The stream is modelled as a list of cells,
    one for an opcode and one for the inline parameter of a word that takes
    one, in the order of the arrays of core_words.cc; "an interpreted word
    [has to be preceded] by CALL".  How wide a parameter is in the
    [vector<Opcode>] that compiler.cc returns is not given under src/: a pc
    or an offset counted in these cells is a position in this list, not an
    address in the compiled word, and the range of an offset is not
    modelled.  [codeSize()] is the number of cells emitted so far. *)

Section Assembler.

Context {Value : Type}.

Definition Assembler_add (w : Word) (p : AfterInstruction Value)
  : list (Cell Value) :=
  match instruction w with
  | native op => C_op op :: (if hasAnyParam w then [C_param p] else [])
  | interpreted a => [C_op Opcode.CALL; C_param (p_word a)]
  end.

End Assembler.

(** ** The compiler's operations (compiler.cc) *)

Section CompilerOps.

Context {Value : Type} `{ValueOps Value}.

(** [Compiler::Compiler()] *)
Definition Compiler_new (nm : string) : Compiler Value :=
  {| _name := nm; _flags := NoFlags; _effect := StackEffect_empty;
     _effectCanAddInputs := true; _effectCanAddOutputs := true;
     _words := [SourceWord_of (WordRef_of NOP) None 0%nat]; _nodes := 1%nat;
     _controlStack := []; _localsTypes := []; _usesArgs := false;
     _curToken := None |}.

(** [setInputStack(bottom, top)]: [values] are the stack values from
    [bottom] to [top]; no values when either pointer is null. *)
Definition setInputStack (values : list Value) (c : Compiler Value)
  : Compiler Value :=
  with_effect
    (fold_left (fun e v => addInput (Z.shiftl 1 (v_type v)) e) values
               StackEffect_empty)
    false true c.

(** [add(const WordRef&, const char* source)] *)
Definition add (r : WordRef Value) (source : option Z) (c : Compiler Value)
  : Throws (InstructionPos * Compiler Value) :=
  match last (_words c) with
  | None => undefined_behaviour
  | Some i =>
      let isDst := isBranchDestination i in
      let i' := set_isBranchDestination isDst
                  (SourceWord_of r source (node i)) in
      ok (node i,
          with_words
            (assign (node i) (fun _ => i') (_words c)
               ++ [SourceWord_of (WordRef_of NOP) None (_nodes c)])
            (S (_nodes c)) c)
  end.

(** Modelled from the spec: [SourceWord::branchesTo(pos)] (compiler.hh is not
    under src/): it records the "branch_target" of the entry and marks the
    target "isBranchDestination". *)
Definition branchesTo (src dst : InstructionPos) (c : Compiler Value)
  : Compiler Value :=
  with_words
    (assign dst (set_isBranchDestination true)
       (assign src (set_branchTo (Some dst)) (_words c)))
    (_nodes c) c.

(** [_words.begin()] and [prev(_words.end())] *)
Definition begin (c : Compiler Value) : Throws InstructionPos :=
  match head (_words c) with
  | Some i => ok (node i)
  | None => undefined_behaviour
  end.

Definition back (c : Compiler Value) : Throws InstructionPos :=
  match last (_words c) with
  | Some i => ok (node i)
  | None => undefined_behaviour
  end.

(** The disassembler (disassembler.hh is not under src/) is a parameter of
    [addInline]: the WordRefs of the instruction array at an address, in
    order.  [addInline] reads them up to the first [_RETURN]; an array
    without one is read past its end. *)
Fixpoint addInline_loop (refs : list (WordRef Value)) (source : option Z)
    (c : Compiler Value) : Throws (Compiler Value) :=
  match refs with
  | [] => undefined_behaviour
  | r :: refs' =>
      if is_word (word r) Opcode._RETURN then ok c
      else '(_, c') ← add r source c; addInline_loop refs' source c'
  end.

Definition addInline (disassemble : Z -> list (WordRef Value))
    (w : Word) (source : option Z) (c : Compiler Value)
  : Throws (InstructionPos * Compiler Value) :=
  match instruction w with
  | native _ => add (WordRef_of w) None c
  | interpreted a =>
      i ← back c;
      c' ← addInline_loop (disassemble a) source c;
      ok (i, c')
  end.

(** [add(const Word* word, const char* sourcePos)], the parser's entry, as
    the method it is: the outcome of the call and the compiler the call
    leaves.  The error is thrown before anything is written, so the
    compiler is then the one the call was made on.  [string(word->name())]
    of a word without a name builds a [std::string] from a null pointer.
    After a failed assertion or undefined behaviour there is no compiler
    to speak of; the model keeps the one of the call. *)
Definition add_word_in_place (disassemble : Z -> list (WordRef Value))
    (w : Word) (sourcePos : option Z) (c : Compiler Value)
  : Throws InstructionPos * Compiler Value :=
  if isMagic w then
    (match name w with
     | Some nm =>
         compile_error
           ("Special word " +:+ nm +:+ " cannot be added by parser") sourcePos
     | None => undefined_behaviour
     end, c)
  else
    match assert (parameters w =? 0) with
    | ok _ =>
        match (if hasFlag w Inline then addInline disassemble w sourcePos c
               else add (WordRef_of w) sourcePos c) with
        | ok (i, c') => (ok i, c')
        | compile_error what location => (compile_error what location, c)
        | assertion_failed => (assertion_failed, c)
        | undefined_behaviour => (undefined_behaviour, c)
        | never_returns => (never_returns, c)
        end
    | _ => (assertion_failed, c)
    end.

(** The same call in the form of the other operations: the position and
    the new compiler when it returns, the outcome otherwise. *)
Definition add_word (disassemble : Z -> list (WordRef Value))
    (w : Word) (sourcePos : option Z) (c : Compiler Value)
  : Throws (InstructionPos * Compiler Value) :=
  let r := add_word_in_place disassemble w sourcePos c in
  (fun i => (i, r.2)) <$> r.1.

(** [add(const Word* word, intptr_t param, const char* sourcePos)] *)
Definition add_word_param (w : Word) (n : Z) (sourcePos : option Z)
    (c : Compiler Value) : Throws (InstructionPos * Compiler Value) :=
  _ ← assert (parameters w =? 1);
  if hasIntParam w then add {| word := w; param := p_offset n |} sourcePos c
  else add {| word := w; param := p_literal (v_of_int n) |} sourcePos c.

(** [addLiteral(Value v, const char* sourcePos)] *)
Definition addLiteral (v : Value) (sourcePos : option Z) (c : Compiler Value)
  : Throws (InstructionPos * Compiler Value) :=
  match v_int16 v with
  | Some n => add {| word := _INT; param := p_offset n |} sourcePos c
  | None => add {| word := _LITERAL; param := p_literal v |} sourcePos c
  end.

(** [addGetArg(int stackOffset, const char* sourcePos)] *)
Definition addGetArg (stackOffset : Z) (sourcePos : option Z)
    (c : Compiler Value) : Throws (InstructionPos * Compiler Value) :=
  _ ← assert (1 - inputCount (_effect c) <=? stackOffset);
  _ ← assert (stackOffset <=? Z.of_nat (length (_localsTypes c)));
  add {| word := _GETARG; param := p_offset stackOffset |} sourcePos
      (with_usesArgs true c).

(** [addSetArg(int stackOffset, const char* sourcePos)] *)
Definition addSetArg (stackOffset : Z) (sourcePos : option Z)
    (c : Compiler Value) : Throws (InstructionPos * Compiler Value) :=
  add {| word := _SETARG; param := p_offset stackOffset |} sourcePos c.

(** [reserveLocalVariable(TypeSet type)] *)
Definition reserveLocalVariable (type : TypeSet) (c : Compiler Value)
  : Z * Compiler Value :=
  let '(iLocals, ws, n) :=
    match _words c with
    | i :: _ =>
        if is_word (word (ref i)) Opcode._LOCALS
        then (node i, _words c, _nodes c)
        else (_nodes c,
              SourceWord_of {| word := _LOCALS; param := p_offset 0 |} None
                            (_nodes c) :: _words c,
              S (_nodes c))
    | [] =>
        (_nodes c,
         [SourceWord_of {| word := _LOCALS; param := p_offset 0 |} None
                        (_nodes c)],
         S (_nodes c))
    end in
  let types := _localsTypes c ++ [type] in
  let offset := Z.of_nat (length types) in
  (offset,
   with_localsTypes types
     (with_words (assign iLocals (set_param (p_offset offset)) ws) n c)).

(** [addRecurse()] *)
Definition addRecurse (c : Compiler Value) : Throws (Compiler Value) :=
  '(i, c') ← add {| word := _RECURSE; param := p_offset (-1) |} None c;
  b ← begin c';
  ok (branchesTo i b c').

(** [addBranchBackTo(InstructionPos pos)] *)
Definition addBranchBackTo (pos : InstructionPos) (c : Compiler Value)
  : Throws (Compiler Value) :=
  '(i, c') ← add {| word := _BRANCH; param := p_offset (-1) |} None c;
  ok (branchesTo i pos c').

(** [fixBranch(InstructionPos src)] *)
Definition fixBranch (src : InstructionPos) (c : Compiler Value)
  : Throws (Compiler Value) :=
  e ← back c;
  ok (branchesTo src e c).

(** [pushBranch(char identifier, const Word* branch)] *)
Definition pushBranch (identifier : ascii) (branch : option Word)
    (c : Compiler Value) : Throws (Compiler Value) :=
  '(branchRef, c') ←
    match branch with
    | Some b => add {| word := b; param := p_offset (-1) |} (_curToken c) c
    | None => e ← back c; ok (e, c)
    end;
  ok (with_controlStack (_controlStack c' ++ [(identifier, branchRef)]) c').

(** [strchr(s, ch) != NULL] of the C library.  A C string ends at its first
    NUL, and "the terminating null byte is considered part of the string":
    [strchr(s, 0)] finds it in every string. *)
Fixpoint strchr (s : string) (ch : ascii) : bool :=
  match s with
  | EmptyString => Ascii.eqb ch Ascii.zero
  | String a s' =>
      if Ascii.eqb a ch then true
      else if Ascii.eqb a Ascii.zero then false
      else strchr s' ch
  end.

(** [popBranch(const char* matching)] *)
Definition popBranch (matching : string) (c : Compiler Value)
  : Throws (InstructionPos * Compiler Value) :=
  match last (_controlStack c) with
  | Some ctrl =>
      if strchr matching ctrl.1
      then ok (ctrl.2, with_controlStack (removelast (_controlStack c)) c)
      else compile_error "no matching IF or WHILE" (_curToken c)
  | None => compile_error "no matching IF or WHILE" (_curToken c)
  end.

End CompilerOps.

(** ** Code generation ([Compiler::generateInstructions]) *)

Section CodeGeneration.

Context {Value : Type} `{ValueOps Value}.

(** [returnsImmediately(pos)]: "Returns true if this instruction a RETURN,
    or a BRANCH to a RETURN."  The recursion follows the branch targets; a
    chain that visits more entries than the list has revisits one, and the
    C++ recursion does not end: with [fuel] above the length of the list,
    running out of fuel stands for that. *)
Fixpoint returnsImmediately (fuel : nat) (ws : list (SourceWord Value))
    (pos : InstructionPos) : Throws bool :=
  match fuel with
  | O => never_returns
  | S fuel' =>
      match deref ws pos with
      | None => undefined_behaviour
      | Some i =>
          if is_word (word (ref i)) Opcode._BRANCH then
            match branchTo i with
            | Some t => returnsImmediately fuel' ws t
            | None => undefined_behaviour
            end
          else ok (is_word (word (ref i)) Opcode._RETURN)
      end
  end.

(** [while (( *dst)->word == &_BRANCH) dst = ( *dst)->branchTo;] *)
Fixpoint followBranches (fuel : nat) (ws : list (SourceWord Value))
    (dst : InstructionPos) : Throws InstructionPos :=
  match fuel with
  | O => never_returns
  | S fuel' =>
      match deref ws dst with
      | None => undefined_behaviour
      | Some d =>
          if is_word (word (ref d)) Opcode._BRANCH then
            match branchTo d with
            | Some t => followBranches fuel' ws t
            | None => undefined_behaviour
            end
          else ok dst
      end
  end.

(** The first part of [generateInstructions]: the check of the control
    stack, the epilogue, and the RETURN that replaces the placeholder. *)
Definition checkControlStack (c : Compiler Value) : Throws unit :=
  match _controlStack c with
  | [] => ok tt
  | _ => compile_error "Unfinished IF-ELSE-THEN or BEGIN-WHILE-REPEAT)" None
  end.

(** [uint8_t(_effect.inputCount() + _localsTypes.size())] and
    [uint8_t(_effect.outputCount())]: the conversions wrap at 256. *)
Definition dropLocals (c : Compiler Value) : Z :=
  (inputCount (_effect c) + Z.of_nat (length (_localsTypes c))) `mod` 256.

Definition dropResults (c : Compiler Value) : Z :=
  outputCount (_effect c) `mod` 256.

Definition addDropArgs (c : Compiler Value) : Throws (Compiler Value) :=
  if _usesArgs c || negb (bool_decide (_localsTypes c = [])) then
    if 0 <? dropLocals c then
      '(_, c') ← add {| word := _DROPARGS;
                        param := p_drop (dropLocals c) (dropResults c) |}
                     None c;
      ok c'
    else ok c
  else ok c.

(** [assert(_words.back().word == &NOP); _words.back() = {_RETURN};]
    The assignment writes a SourceWord made from [{_RETURN}] over the
    placeholder, as [*i = SourceWord(ref, source)] does in [add]; [add]
    saves [isBranchDestination] before and writes it back ("preserve this
    flag"), here nothing does. *)
Definition addReturn (c : Compiler Value) : Throws (Compiler Value) :=
  match last (_words c) with
  | None => undefined_behaviour
  | Some i =>
      _ ← assert (is_word (word (ref i)) Opcode.NOP);
      ok (with_words
            (assign (node i)
                    (fun _ => SourceWord_of (WordRef_of _RETURN) None (node i))
                    (_words c))
            (_nodes c) c)
  end.

Definition epilogue (c : Compiler Value) : Throws (Compiler Value) :=
  c1 ← addDropArgs c;
  addReturn c1.

(** The loop that assigns a pc offset to each instruction, "and [does] some
    optimizations": the state it carries from one entry to the next. *)
Record Generation : Type := {
  g_words : list (SourceWord Value);
  g_flags : Z;
  afterBranch : bool;
  codeSize : Z;
}.

(** One turn of the loop, for the entry at [pos]. *)
Definition assignStep (g : Generation) (pos : InstructionPos)
  : Throws Generation :=
  match deref (g_words g) pos with
  | None => undefined_behaviour
  | Some i =>
      if afterBranch g && negb (isBranchDestination i) then
        (* Unreachable instruction after a branch *)
        ok {| g_words := erase pos (g_words g); g_flags := g_flags g;
              afterBranch := afterBranch g; codeSize := codeSize g |}
      else
        let fuel := S (length (g_words g)) in
        '(w, fl) ←
          (if is_word (word (ref i)) Opcode._RECURSE then
             match next (g_words g) pos with
             | None => undefined_behaviour
             | Some n =>
                 tail ← returnsImmediately fuel (g_words g) (node n);
                 if tail : bool then ok (_BRANCH, g_flags g)
                 else ok (word (ref i), Z.lor (g_flags g) Recursive)
             end
           else ok (word (ref i), g_flags g));
        let ws1 := assign pos (set_word w) (g_words g) in
        ws2 ←
          match branchTo i with
          | Some dst =>
              d ← followBranches fuel ws1 dst;
              ok (assign pos (set_branchTo (Some d)) ws1)
          | None => ok ws1
          end;
        ok {| g_words := assign pos (set_pc (codeSize g)) ws2;
              g_flags := fl;
              afterBranch := is_word w Opcode._BRANCH;
              codeSize := codeSize g
                          + Z.of_nat (length (Assembler_add w (param (ref i)))) |}
  end.

Fixpoint assignLoop (g : Generation) (todo : list InstructionPos)
  : Throws Generation :=
  match todo with
  | [] => ok g
  | pos :: todo' => g' ← assignStep g pos; assignLoop g' todo'
  end.

Definition assignPCs (ws : list (SourceWord Value)) (flags : Z)
  : Throws Generation :=
  assignLoop {| g_words := ws; g_flags := flags; afterBranch := false;
                codeSize := 0 |}
             (map node ws).

(** The second loop: "Assemble [_words] into a series of instructions".
    [i->param.param.offset = ( *i->branchTo)->pc - i->pc - 1]; the width of
    the offset is not modelled. *)
Definition branchOffset (ws : list (SourceWord Value)) (i : SourceWord Value)
  : Throws (AfterInstruction Value) :=
  match branchTo i with
  | Some t =>
      match deref ws t with
      | Some d => ok (p_offset (pc d - pc i - 1))
      | None => undefined_behaviour
      end
  | None => ok (param (ref i))
  end.

Fixpoint assemble (ws : list (SourceWord Value))
    (todo : list (SourceWord Value)) : Throws (list (Cell Value)) :=
  match todo with
  | [] => ok []
  | i :: todo' =>
      p ← branchOffset ws i;
      rest ← assemble ws todo';
      ok (Assembler_add (word (ref i)) p ++ rest)
  end.

(** [generateInstructions()].  The stack checker [computeEffect]
    (compiler+stackcheck.cc is not under src/) is a parameter: it throws or
    yields the effect of the word. *)
Definition generateInstructions
    (computeEffect : Compiler Value -> Throws StackEffect)
    (c : Compiler Value) : Throws (list (Cell Value) * Compiler Value) :=
  _ ← checkControlStack c;
  c2 ← epilogue c;
  e ← computeEffect c2;
  let c3 := with_effect e (_effectCanAddInputs c2) (_effectCanAddOutputs c2) c2 in
  g ← assignPCs (_words c3) (_flags c3);
  instrs ← assemble (g_words g) (g_words g);
  ok (instrs, with_flags (g_flags g) (with_words (g_words g) (_nodes c3) c3)).

End CodeGeneration.

Arguments Generation : clear implicits.

(** ** Vocabularies and compiled words *)

(** Modelled from the spec: [Vocabulary::add] (vocabulary.cc is not under
    src/): the registry "mapping name -> Word" in which "DEFINE installs new
    words". *)
Definition Vocabulary_add (w : Word) (vocab : gmap string Word)
  : gmap string Word :=
  <[default "" (name w) := w]> vocab.

Definition Vocabulary_of (ws : list Word) : gmap string Word :=
  fold_right Vocabulary_add ∅ ws.

Definition toupper_ascii (a : ascii) : ascii :=
  let n := N_of_ascii a in
  if ((97 <=? n) && (n <=? 122))%N then ascii_of_N (n - 32) else a.

Fixpoint toupper (s : string) : string :=
  match s with
  | EmptyString => EmptyString
  | String a s' => String (toupper_ascii a) (toupper s')
  end.

Section CompiledWords.

Context {Value : Type} `{ValueOps Value}.

(** A [CompiledWord] is a Word that owns its instructions [_instrs]; its
    instruction points at the first of them, at address [words]. *)
Record CompiledWord : Type := {
  toWord : Word;
  _nameStr : string;
  _instrs : list (Cell Value);
}.

(** [CompiledWord(string&& name, StackEffect effect, vector<Opcode>&& instrs)]:
    the word is added to the current vocabulary when it has a name. *)
Definition CompiledWord_of (nm : string) (effect : StackEffect)
    (instrs : list (Cell Value)) (words : Z) (vocab : gmap string Word)
  : CompiledWord * gmap string Word :=
  let nameStr := toupper nm in
  let w := {| instruction := interpreted words;
              name := if bool_decide (nameStr = "") then None else Some nameStr;
              stackEffect := effect; flags := NoFlags |} in
  ({| toWord := w; _nameStr := nameStr; _instrs := instrs |},
   if bool_decide (nameStr = "") then vocab else Vocabulary_add w vocab).

(** [CompiledWord(Compiler&&)]: the instructions are generated before the
    delegated constructor runs; the flags and the effect are set on the
    object the vocabulary points at. *)
Definition CompiledWord_compile
    (computeEffect : Compiler Value -> Throws StackEffect)
    (c : Compiler Value) (words : Z) (vocab : gmap string Word)
  : Throws CompiledWord * gmap string Word :=
  match generateInstructions computeEffect c with
  | ok (instrs, c') =>
      let nameStr := toupper (_name c') in
      let w := {| instruction := interpreted words;
                  name := if bool_decide (nameStr = "") then None
                          else Some nameStr;
                  stackEffect := _effect c'; flags := _flags c' |} in
      let vocab' := if bool_decide (nameStr = "") then vocab
                    else Vocabulary_add w vocab in
      if Z.land (_flags c')
                (Z.lnot (Z.lor (Z.lor Inline Recursive) Magic)) =? 0
      then (ok {| toWord := w; _nameStr := nameStr; _instrs := instrs |},
            vocab')
      else (assertion_failed, vocab')
  | compile_error what location => (compile_error what location, vocab)
  | assertion_failed => (assertion_failed, vocab)
  | undefined_behaviour => (undefined_behaviour, vocab)
  | never_returns => (never_returns, vocab)
  end.

(** [Compiler::finish() &&] *)
Definition finish
    (computeEffect : Compiler Value -> Throws StackEffect)
    (c : Compiler Value) (words : Z) (vocab : gmap string Word)
  : Throws CompiledWord * gmap string Word :=
  CompiledWord_compile computeEffect c words vocab.

(** A compilation unit: the calls a front end makes on a fresh Compiler
    (each may throw), then [finish()]. *)
Definition compileUnit
    (computeEffect : Compiler Value -> Throws StackEffect)
    (nm : string) (build : Compiler Value -> Throws (Compiler Value))
    (words : Z) (vocab : gmap string Word)
  : Throws CompiledWord * gmap string Word :=
  match build (Compiler_new nm) with
  | ok c => finish computeEffect c words vocab
  | compile_error what location => (compile_error what location, vocab)
  | assertion_failed => (assertion_failed, vocab)
  | undefined_behaviour => (undefined_behaviour, vocab)
  | never_returns => (never_returns, vocab)
  end.

End CompiledWords.

Arguments CompiledWord : clear implicits.

(** ** A Value of doubles

    Modelled from the spec: [Value] (value.hh is not under src/), "a tagged
    scalar with variants {Null, Number (double), String, ...}"; "relational
    pushes 0/1"; a branch on zero "only branches if the top of stack is
    zero".  Numbers are IEEE doubles; the other variants are left out of
    the arithmetic. *)

Inductive Value : Set :=
| Null
| Number (n : float)
| Str (s : string).

Definition Value_number (f : float -> float -> float) (a b : Value) : Value :=
  match a, b with
  | Number x, Number y => Number (f x y)
  | _, _ => Null
  end.

Definition Value_compare (f : float -> float -> bool) (a b : Value) : bool :=
  match a, b with
  | Number x, Number y => f x y
  | _, _ => false
  end.

Definition Value_eqb (a b : Value) : bool :=
  match a, b with
  | Null, Null => true
  | Number x, Number y => PrimFloat.eqb x y
  | Str s, Str t => String.eqb s t
  | _, _ => false
  end.

(** [Value(int)]: the double nearest to the integer. *)
Definition float_of_Z (z : Z) : float :=
  SF2Prim (binary_normalize prec emax z 0 false).

(** The integer a double is, when it is one. *)
Definition Z_of_float (x : float) : option Z :=
  match Prim2SF x with
  | S754_zero _ => Some 0
  | S754_finite s m e =>
      let n := if 0 <=? e then Some (Zpos m * 2 ^ e)
               else if Zpos m `mod` 2 ^ (- e) =? 0
                    then Some (Zpos m `div` 2 ^ (- e))
                    else None in
      (fun v : Z => if s then - v else v) <$> n
  | _ => None
  end.

(** [canCastToInt16(n)] with [int16_t(n)]: an integral double in
    [-32768, 32767]. *)
Definition Value_int16 (v : Value) : option Z :=
  match v with
  | Number x =>
      match Z_of_float x with
      | Some n => if (-32768 <=? n) && (n <=? 32767) then Some n else None
      | None => None
      end
  | _ => None
  end.

Definition Value_not (v : Value) : bool :=
  match v with
  | Null => true
  | Number x => PrimFloat.eqb x 0%float
  | Str _ => false
  end.

Definition Value_add (a b : Value) : Value :=
  match a, b with
  | Str s, Str t => Str (s +:+ t)
  | _, _ => Value_number PrimFloat.add a b
  end.

Definition Value_mod (a b : Value) : Value :=
  match a, b with
  | Number x, Number y =>
      match Z_of_float x, Z_of_float y with
      | Some n, Some m => if m =? 0 then Null else Number (float_of_Z (Z.rem n m))
      | _, _ => Null
      end
  | _, _ => Null
  end.

Definition Value_length (v : Value) : Value :=
  match v with
  | Str s => Number (float_of_Z (Z.of_nat (String.length s)))
  | _ => Null
  end.

Definition Value_type (v : Value) : Z :=
  match v with
  | Null => 0
  | Number _ => 1
  | Str _ => 2
  end.

#[global] Instance DoubleValue : ValueOps Value := {|
  v_not := Value_not;
  v_of_int := fun n => Number (float_of_Z n);
  v_of_bool := fun b => Number (if b then 1%float else 0%float);
  v_null := Null;
  v_add := Value_add;
  v_sub := Value_number PrimFloat.sub;
  v_mul := Value_number PrimFloat.mul;
  v_div := Value_number PrimFloat.div;
  v_mod := Value_mod;
  v_eq := Value_eqb;
  v_ne := fun a b => negb (Value_eqb a b);
  v_gt := Value_compare (fun x y => PrimFloat.ltb y x);
  v_ge := Value_compare (fun x y => PrimFloat.leb y x);
  v_lt := Value_compare PrimFloat.ltb;
  v_le := Value_compare PrimFloat.leb;
  v_length := Value_length;
  v_int16 := Value_int16;
  v_type := Value_type;
|}.

(** ** Definitions the statements below compare the code with *)

Section Comparisons.

Context {Value : Type} `{ValueOps Value}.

(** The loop of [generateInstructions] without its dead-code pass: no entry
    is erased; the rest of each turn is the same. *)
Definition assignStep_keep (g : Generation Value) (pos : InstructionPos)
  : Throws (Generation Value) :=
  match deref (g_words g) pos with
  | None => undefined_behaviour
  | Some i =>
      assignStep {| g_words := g_words g; g_flags := g_flags g;
                    afterBranch := false; codeSize := codeSize g |} pos
  end.

Fixpoint assignLoop_keep (g : Generation Value) (todo : list InstructionPos)
  : Throws (Generation Value) :=
  match todo with
  | [] => ok g
  | pos :: todo' => g' ← assignStep_keep g pos; assignLoop_keep g' todo'
  end.

Definition generateInstructions_keep
    (computeEffect : Compiler Value -> Throws StackEffect)
    (c : Compiler Value) : Throws (list (Cell Value)) :=
  _ ← checkControlStack c;
  c2 ← epilogue c;
  e ← computeEffect c2;
  g ← assignLoop_keep {| g_words := _words c2; g_flags := _flags c2;
                         afterBranch := false; codeSize := 0 |}
                      (map node (_words c2));
  assemble (g_words g) (g_words g).

(** "Reaches _RETURN only through a chain of forward _BRANCH instructions":
    the entry at [pos] is [_RETURN], or it is a [_BRANCH] whose target lies
    after it in the list and reaches [_RETURN] in the same way. *)
Fixpoint forwardReturns (ws : list (SourceWord Value)) (pos : InstructionPos)
  : bool :=
  match ws with
  | [] => false
  | i :: ws' =>
      if Nat.eqb (node i) pos then
        if is_word (word (ref i)) Opcode._RETURN then true
        else if is_word (word (ref i)) Opcode._BRANCH then
          match branchTo i with
          | Some t => forwardReturns ws' t
          | None => false
          end
        else false
      else forwardReturns ws' pos
  end.

(** "Reaches _RETURN through a chain of _BRANCH instructions": from [pos]
    on, [path] is a run of [_BRANCH] entries, each the target of the one
    before it, and the first entry that is not a [_BRANCH]; [ends] tells
    whether that last entry is [_RETURN]. *)
Inductive Chain (ws : list (SourceWord Value))
  : InstructionPos -> list InstructionPos -> bool -> Prop :=
| Chain_end pos i :
    deref ws pos = Some i ->
    is_word (word (ref i)) Opcode._BRANCH = false ->
    Chain ws pos [pos] (is_word (word (ref i)) Opcode._RETURN)
| Chain_branch pos i t path ends :
    deref ws pos = Some i ->
    is_word (word (ref i)) Opcode._BRANCH = true ->
    branchTo i = Some t ->
    Chain ws t path ends ->
    Chain ws pos (pos :: path) ends.

Definition is_op (op : Opcode) (c : Cell Value) : bool :=
  match c with
  | C_op o => Opcode_eqb o op
  | C_param _ => false
  end.

Fixpoint count_op (op : Opcode) (instrs : list (Cell Value)) : nat :=
  match instrs with
  | [] => 0%nat
  | c :: instrs' =>
      ((if is_op op c then 1 else 0) + count_op op instrs')%nat
  end.

End Comparisons.

(** ** Compilation units used as examples *)

(** A disassembler for units that add no inline word. *)
Definition no_inline : Z -> list (WordRef Value) := fun _ => [].

(** The calls that the [if:] rule of smoltalk.hh makes on the compiler for
    [1 if: 123 else: 666]: the literal, [add({_ZBRANCH, -1})], the literal,
    [add({_BRANCH, -1})], [fixBranch(instrPos)], the literal,
    [fixBranch(elsePos)]. *)
Definition if_else_calls (c : Compiler Value) : Throws (Compiler Value) :=
  '(_, c1) ← addLiteral (v_of_int 1) None c;
  '(instrPos, c2) ← add {| word := _ZBRANCH; param := p_offset (-1) |} None c1;
  '(_, c3) ← addLiteral (v_of_int 123) None c2;
  '(elsePos, c4) ← add {| word := _BRANCH; param := p_offset (-1) |} None c3;
  c5 ← fixBranch instrPos c4;
  '(_, c6) ← addLiteral (v_of_int 666) None c5;
  fixBranch elsePos c6.

(** An endless loop: [p = add({NOP}); addBranchBackTo(p);]. *)
Definition forever_calls (c : Compiler Value) : Throws (Compiler Value) :=
  '(p, c1) ← add (WordRef_of NOP) None c;
  addBranchBackTo p c1.

(** A loop that ends the word, [BEGIN DUP WHILE 1 - REPEAT], by the calls
    the control-flow words make: [pushBranch('b')], [add({DUP})],
    [pushBranch('w', &_ZBRANCH)], the literal, [add({MINUS})],
    [popBranch("w")], [popBranch("b")], [addBranchBackTo(beginPos)],
    [fixBranch(whilePos)]. *)
Definition countdown_calls (c : Compiler Value) : Throws (Compiler Value) :=
  c1 ← pushBranch "b" None c;
  '(_, c2) ← add (WordRef_of DUP) None c1;
  c3 ← pushBranch "w" (Some _ZBRANCH) c2;
  '(_, c4) ← addLiteral (v_of_int 1) None c3;
  '(_, c5) ← add (WordRef_of MINUS) None c4;
  '(whilePos, c6) ← popBranch "w" c5;
  '(beginPos, c7) ← popBranch "b" c6;
  c8 ← addBranchBackTo beginPos c7;
  fixBranch whilePos c8.

(** A [_RECURSE] whose successor is a backward [_BRANCH] to an earlier
    [_BRANCH] to the end of the word:
    [p0 = add({_ZBRANCH,-1}); p1 = add({_ZBRANCH,-1}); p2 = add({_BRANCH,-1});
     fixBranch(p1); addRecurse(); addBranchBackTo(p2); fixBranch(p0);
     add({NOP}); fixBranch(p2);]. *)
Definition backward_chain_calls (c : Compiler Value) : Throws (Compiler Value) :=
  '(p0, c1) ← add {| word := _ZBRANCH; param := p_offset (-1) |} None c;
  '(p1, c2) ← add {| word := _ZBRANCH; param := p_offset (-1) |} None c1;
  '(p2, c3) ← add {| word := _BRANCH; param := p_offset (-1) |} None c2;
  c4 ← fixBranch p1 c3;
  c5 ← addRecurse c4;
  c6 ← addBranchBackTo p2 c5;
  c7 ← fixBranch p0 c6;
  '(_, c8) ← add (WordRef_of NOP) None c7;
  fixBranch p2 c8.

(** The word list of that unit after the epilogue. *)
Definition backward_chain_words : list (SourceWord Value) :=
  match (c ← backward_chain_calls (Compiler_new ""); epilogue c) with
  | ok c => _words c
  | _ => []
  end.

(** A word of two inputs and no output whose [_RECURSE] is followed by a
    backward [_BRANCH] to an earlier [_BRANCH] to the end of the word:
    [p0 = add({_ZBRANCH,-1}); p1 = add({_ZBRANCH,-1}); p2 = add({_BRANCH,-1});
     fixBranch(p1); add({ONE}); add({ONE}); addRecurse();
     addBranchBackTo(p2); fixBranch(p0); add({DROP}); fixBranch(p2);].
    Every entry is reached at one depth of the stack: the two tests at 2 and
    1, [p2] at 0 from both sides, the [_RECURSE] at 2 (its two arguments),
    the [DROP] at 1 and the placeholder at 0. *)
Definition tail_chain_calls (c : Compiler Value) : Throws (Compiler Value) :=
  '(p0, c1) ← add {| word := _ZBRANCH; param := p_offset (-1) |} None c;
  '(p1, c2) ← add {| word := _ZBRANCH; param := p_offset (-1) |} None c1;
  '(p2, c3) ← add {| word := _BRANCH; param := p_offset (-1) |} None c2;
  c4 ← fixBranch p1 c3;
  '(_, c5) ← add (WordRef_of ONE) None c4;
  '(_, c6) ← add (WordRef_of ONE) None c5;
  c7 ← addRecurse c6;
  c8 ← addBranchBackTo p2 c7;
  c9 ← fixBranch p0 c8;
  '(_, c10) ← add (WordRef_of DROP) None c9;
  fixBranch p2 c10.

(** The compiler of that unit, with its declared effect. *)
Definition tail_chain_compiler : Compiler Value :=
  with_effect (StackEffect_of 2 0 0) false false (Compiler_new "").

(** The word list of that unit after the epilogue, and the state of the
    loop when it reaches the [_RECURSE] (its sixth entry, node 5). *)
Definition tail_chain_words : list (SourceWord Value) :=
  match (c ← tail_chain_calls tail_chain_compiler; epilogue c) with
  | ok c => _words c
  | _ => []
  end.

Definition tail_chain_state : Generation Value :=
  match assignLoop {| g_words := tail_chain_words; g_flags := NoFlags;
                      afterBranch := false; codeSize := 0 |}
                   [0; 1; 2; 3; 4]%nat with
  | ok g => g
  | _ => {| g_words := []; g_flags := 0; afterBranch := false; codeSize := 0 |}
  end.

(** A compiler that read an argument when its effect had one input, and
    whose input stack was then reset:
    [setInputStack(v, v); addGetArg(0); setInputStack(nullptr, nullptr);]. *)
Definition reset_inputs_calls (c : Compiler Value) : Throws (Compiler Value) :=
  '(_, c1) ← addGetArg 0 None (setInputStack [Number 7%float] c);
  ok (setInputStack [] c1).

Definition reset_inputs_compiler : Compiler Value :=
  match reset_inputs_calls (Compiler_new "") with
  | ok c => c
  | _ => Compiler_new ""
  end.

(** A unit that leaves an IF open: [1 IF 2]. *)
Definition unfinished_calls (c : Compiler Value) : Throws (Compiler Value) :=
  '(_, c1) ← addLiteral (v_of_int 1) None c;
  c2 ← pushBranch "i" (Some _ZBRANCH) c1;
  '(_, c3) ← addLiteral (v_of_int 2) None c2;
  ok c3.

(** A compiler with one local variable and nothing else. *)
Definition one_local_compiler : Compiler Value :=
  (reserveLocalVariable AnyType (Compiler_new "")).2.

(** The word list of the conditional after the epilogue. *)
Definition if_else_words : list (SourceWord Value) :=
  match (c ← if_else_calls (Compiler_new ""); epilogue c) with
  | ok c => _words c
  | _ => []
  end.

(** What [generateInstructions] makes of the countdown loop compiled
    without the dead-code pass. *)
Definition countdown_kept : list (Cell Value) :=
  [ C_op Opcode.DUP;
    C_op Opcode._ZBRANCH; C_param (p_offset 6);
    C_op Opcode._INT; C_param (p_offset 1);
    C_op Opcode.MINUS;
    C_op Opcode._BRANCH; C_param (p_offset (-7));
    C_op Opcode._RETURN ].


(** A compiler with one open branch: [add({_ZBRANCH, -1})]. *)
Definition one_branch_compiler : Compiler Value :=
  match add {| word := _ZBRANCH; param := p_offset (-1) |} None
            (Compiler_new "") with
  | ok (_, c) => c
  | _ => Compiler_new ""
  end.

(** ** More of word.hh and of the compiler *)

(** [operator!=(const Word&, const Word&)]: [!(a == b)] *)
Definition Word_neqb (a b : Word) : bool := negb (Word_eqb a b).

Section MoreCompiler.

Context {Value : Type} `{ValueOps Value}.

(** The handler a native word is run by: [word.instruction().native]. *)
Definition Word_handler (w : Word)
  : option (list (Cell Value) -> Stack Value -> Z -> Handled Value) :=
  match instruction w with
  | native op => handler op
  | interpreted _ => None
  end.

(** The loop of [Compiler::compile]:
    [for (auto &ref : words) compiler.add(ref);], and the [add(ref, source)]
    calls of the loop of [addInline]. *)
Fixpoint addAll (refs : list (WordRef Value)) (source : option Z)
    (c : Compiler Value) : Throws (Compiler Value) :=
  match refs with
  | [] => ok c
  | r :: refs' => '(_, c') ← add r source c; addAll refs' source c'
  end.

(** [Compiler::compile(std::initializer_list<WordRef> words)]: a compiler
    without a name, the words added in order, [finish()]. *)
Definition Compiler_compile
    (computeEffect : Compiler Value -> Throws StackEffect)
    (words : list (WordRef Value)) (addr : Z) (vocab : gmap string Word)
  : Throws (CompiledWord Value) * gmap string Word :=
  compileUnit computeEffect "" (addAll words None) addr vocab.

(** The calls a front end can make on a compiler, of the member functions
    that compiler.cc defines.  The members that only the header defines
    (the setters of the flags and of the stack effect that test.cc calls)
    and [parse] are not under src/ and are not among them. *)
Inductive Call : Type :=
| do_add (r : WordRef Value) (source : option Z)
| do_add_word (w : Word) (sourcePos : option Z)
| do_add_word_param (w : Word) (n : Z) (sourcePos : option Z)
| do_addLiteral (v : Value) (sourcePos : option Z)
| do_addGetArg (stackOffset : Z) (sourcePos : option Z)
| do_addSetArg (stackOffset : Z) (sourcePos : option Z)
| do_reserveLocalVariable (type : TypeSet)
| do_addRecurse
| do_addBranchBackTo (pos : InstructionPos)
| do_fixBranch (src : InstructionPos)
| do_pushBranch (identifier : ascii) (branch : option Word)
| do_popBranch (matching : string)
| do_setInputStack (values : list Value).

Definition perform (disassemble : Z -> list (WordRef Value)) (k : Call)
    (c : Compiler Value) : Throws (Compiler Value) :=
  match k with
  | do_add r source => snd <$> add r source c
  | do_add_word w sourcePos => snd <$> add_word disassemble w sourcePos c
  | do_add_word_param w n sourcePos => snd <$> add_word_param w n sourcePos c
  | do_addLiteral v sourcePos => snd <$> addLiteral v sourcePos c
  | do_addGetArg stackOffset sourcePos =>
      snd <$> addGetArg stackOffset sourcePos c
  | do_addSetArg stackOffset sourcePos =>
      snd <$> addSetArg stackOffset sourcePos c
  | do_reserveLocalVariable type => ok (reserveLocalVariable type c).2
  | do_addRecurse => addRecurse c
  | do_addBranchBackTo pos => addBranchBackTo pos c
  | do_fixBranch src => fixBranch src c
  | do_pushBranch identifier branch => pushBranch identifier branch c
  | do_popBranch matching => snd <$> popBranch matching c
  | do_setInputStack values => ok (setInputStack values c)
  end.

Fixpoint performAll (disassemble : Z -> list (WordRef Value))
    (calls : list Call) (c : Compiler Value) : Throws (Compiler Value) :=
  match calls with
  | [] => ok c
  | k :: calls' =>
      c' ← perform disassemble k c; performAll disassemble calls' c'
  end.

(** The shape every call keeps: the list nodes are distinct and older than
    the next one, and the list ends with the [NOP] placeholder. *)
Definition wellFormed (ws : list (SourceWord Value)) (n : nat) : Prop :=
  NoDup (map node ws)
  /\ Forall (fun i => (node i < n)%nat) ws
  /\ exists pre ph, ws = pre ++ [ph] /\ word (ref ph) = NOP.

Definition WellFormed (c : Compiler Value) : Prop :=
  wellFormed (_words c) (_nodes c).

(** The entries that successive calls of [add] make of [refs], in the list
    nodes from [n] on. *)
Fixpoint entries (refs : list (WordRef Value)) (source : option Z) (n : nat)
  : list (SourceWord Value) :=
  match refs with
  | [] => []
  | r :: refs' => SourceWord_of r source n :: entries refs' source (S n)
  end.

(** The handlers of a run of native words applied one after the other to a
    stack alone (no code, pc 0), as [NEXT()] chains them, up to the first
    that does not end with [NEXT()] on a stack the model holds. *)
Fixpoint applyWords (words : list Word) (sp : Stack Value) : Outcome Value :=
  match words with
  | [] => Returned sp
  | w :: words' =>
      match Word_handler w with
      | Some f =>
          match f [] sp 0 with
          | NEXT sp' _ => applyWords words' sp'
          | UNDERFLOWS _ => Underflowed
          | _ => Undefined
          end
      | None => Undefined
      end
  end.

(** A word list without control flow: no entry branches, none is a
    [_BRANCH] or a [_RECURSE]. *)
Definition straightLine (ws : list (SourceWord Value)) : Prop :=
  Forall (fun i => branchTo i = None
                   /\ is_word (word (ref i)) Opcode._BRANCH = false
                   /\ is_word (word (ref i)) Opcode._RECURSE = false) ws.

(** The cells the assembler makes of a list of WordRefs. *)
Definition assembleRefs (refs : list (WordRef Value)) : list (Cell Value) :=
  flat_map (fun r => Assembler_add (word r) (param r)) refs.

(** The compiler that [Compiler::compile(words)] hands to the stack
    checker: the words in the list nodes from 0 on, then [_RETURN]. *)
Definition compiled_straight (refs : list (WordRef Value)) : Compiler Value :=
  with_words
    (entries refs None 0
       ++ [SourceWord_of (WordRef_of _RETURN) None (length refs)])
    (S (length refs)) (Compiler_new "").

End MoreCompiler.

Arguments Call : clear implicits.

(** The native words of core_words.cc that take no inline parameter and do
    not transfer control. *)
Definition stackWords : list Word :=
  [ DUP; DROP; SWAP; OVER; ROT; NOP; ZERO; ONE; NULL_;
    PLUS; MINUS; MULT; DIV; MOD; EQ; NE; GT; GE; LT; LE;
    EQ_ZERO; NE_ZERO; GT_ZERO; LT_ZERO; LENGTH ].

(** Those of them whose StackEffect is written in core_words.cc (the
    binary operators are given none there). *)
Definition declaredWords : list Word :=
  [ DUP; DROP; SWAP; OVER; ROT; NOP; ZERO; ONE; NULL_;
    EQ_ZERO; NE_ZERO; GT_ZERO; LT_ZERO; LENGTH ].

(** ** The prompt of the REPL (repl.cc)

    [print(const string&)] writes a string right-justified in a field of
    [kPromptIndent] characters; the model gives the characters written. *)

Definition kPromptIndent : nat := 40.

Definition print (str : list ascii) : list ascii :=
  let len := Nat.min (length str) kPromptIndent in
  let start := (length str - len)%nat in
  replicate (kPromptIndent - len) " "%char ++ take len (drop start str).

(** * Properties *)

(** ** Opcodes and words *)

Lemma opcode_index_inj (a b : Opcode) : opcode_index a = opcode_index b -> a = b.
Proof. destruct a, b; simpl; intros E; first [reflexivity | discriminate E]. Qed.

Lemma Opcode_eqb_eq (a b : Opcode) : Opcode_eqb a b = true <-> a = b.
Proof.
  unfold Opcode_eqb. rewrite Z.eqb_eq. split.
  - apply opcode_index_inj.
  - intros ->. reflexivity.
Qed.

Lemma Instruction_eqb_eq (a b : Instruction) :
  Instruction_eqb a b = true <-> a = b.
Proof.
  destruct a as [f|p], b as [g|q]; simpl.
  - rewrite Opcode_eqb_eq. split; congruence.
  - split; discriminate.
  - split; discriminate.
  - rewrite Z.eqb_eq. split; congruence.
Qed.

(** C10.  Equality on Word compares the instruction only: [a == b] exactly
    when the two words hold the same native handler or the same instruction
    array, whatever their names, stack effects and flags are. *)
Theorem Word_eqb_compares_instruction (a b : Word) :
  (Word_eqb a b = true <-> instruction a = instruction b) /\
  (forall na nb ea eb fa fb,
      Word_eqb {| instruction := instruction a; name := na;
                  stackEffect := ea; flags := fa |}
               {| instruction := instruction b; name := nb;
                  stackEffect := eb; flags := fb |}
      = Word_eqb a b).
Proof.
  split.
  - apply Instruction_eqb_eq.
  - reflexivity.
Qed.

(** Two words of different names, effects and flags over one handler, and
    two over one instruction array, compare equal. *)
Example Word_eqb_other_name :
  Word_eqb DUP (Word_native "COPY" Opcode.DUP (StackEffect_of 0 0 0) Magic) = true
  /\ Word_eqb SQUARE (Word_interp "SQ" (StackEffect_of 5 5 5) a_SQUARE) = true
  /\ Word_eqb SQUARE ABS = false.
Proof. repeat split. Qed.

(** ** The machine *)

Section MachineFacts.

Context {Value : Type} `{ValueOps Value}.

Lemma dispatch_native (fuel : nat) (mem : gmap Z (list (Cell Value)))
    (code : list (Cell Value)) (pc : Z) (sp sp' : Stack Value) (pc' : Z)
    (op : Opcode) f :
  fetch code pc = Some (C_op op) ->
  handler op = Some f ->
  f code sp (pc + 1) = NEXT sp' pc' ->
  dispatch (S fuel) mem code pc sp = dispatch fuel mem code pc' sp'.
Proof. intros Hc Hf Hn. simpl. rewrite Hc, Hf, Hn. reflexivity. Qed.

(** C2.  At a [_ZBRANCH off] (the opcode at [pc], its inline parameter in
    the next cell) the top of the stack is popped; when it is falsy the pc,
    which the handler receives pointing at the parameter, is advanced by
    [off]; in every case it is then incremented past the parameter.  A
    truthy top continues at the instruction after the parameter, a falsy
    top at that instruction plus [off]. *)
Theorem ZBRANCH_step (fuel : nat) (mem : gmap Z (list (Cell Value)))
    (code : list (Cell Value)) (pc off : Z) (top : Value) (sp : Stack Value) :
  fetch code pc = Some (C_op Opcode._ZBRANCH) ->
  fetch code (pc + 1) = Some (C_param (p_offset off)) ->
  f_ZBRANCH code (top :: sp) (pc + 1)
    = NEXT sp (if v_not top then (pc + 1) + off + 1 else (pc + 1) + 1)
  /\ dispatch (S fuel) mem code pc (top :: sp)
     = dispatch fuel mem code
                (if v_not top then (pc + 1) + off + 1 else (pc + 1) + 1) sp.
Proof.
  intros Hop Hparam.
  assert (Hz : f_ZBRANCH code (top :: sp) (pc + 1)
               = NEXT sp (if v_not top then (pc + 1) + off + 1
                          else (pc + 1) + 1)).
  { unfold f_ZBRANCH. destruct (v_not top); [rewrite Hparam|]; reflexivity. }
  split; [exact Hz|].
  eapply dispatch_native; [exact Hop | reflexivity | exact Hz].
Qed.


End MachineFacts.

Lemma ZBRANCH_step_witness :
  dispatch 1 (core_memory Value) i_ABS 2 [Number 0%float]
  = dispatch 0 (core_memory Value) i_ABS 7 [].
Proof.
  exact (proj2 (ZBRANCH_step 0 (core_memory Value) i_ABS 2 3
                             (Number 0%float) [] eq_refl eq_refl)).
Defined.


(** The hand-assembled words of core_words.cc run as their comments say:
    [ABS] of -1234 and of 1234, [MAX] and [MIN] of 3 and 4, [SQUARE] of 4. *)
Example core_words_run :
  call 20 (core_memory Value) i_ABS [Number (-1234)%float]
    = Returned [Number 1234%float]
  /\ call 20 (core_memory Value) i_ABS [Number 1234%float]
    = Returned [Number 1234%float]
  /\ call 20 (core_memory Value) i_MAX [Number 4%float; Number 3%float]
    = Returned [Number 4%float]
  /\ call 20 (core_memory Value) i_MAX [Number 3%float; Number 4%float]
    = Returned [Number 4%float]
  /\ call 20 (core_memory Value) i_MIN [Number 4%float; Number 3%float]
    = Returned [Number 3%float]
  /\ call 20 (core_memory Value) i_SQUARE [Number 4%float]
    = Returned [Number 16%float].
Proof. repeat split; vm_compute; reflexivity. Qed.

(** ** The parser's entry to the compiler *)

Section AddFacts.

Context {Value : Type} `{ValueOps Value}.




(** [add_word] by cases, in the form of the source. *)
Lemma add_word_eq (disassemble : Z -> list (WordRef Value))
    (w : Word) (sourcePos : option Z) (c : Compiler Value) :
  add_word disassemble w sourcePos c
  = if isMagic w then
      match name w with
      | Some nm =>
          compile_error
            ("Special word " +:+ nm +:+ " cannot be added by parser") sourcePos
      | None => undefined_behaviour
      end
    else
      _ ← assert (parameters w =? 0);
      if hasFlag w Inline then addInline disassemble w sourcePos c
      else add (WordRef_of w) sourcePos c.
Proof.
  unfold add_word, add_word_in_place.
  destruct (isMagic w); [destruct (name w); reflexivity|].
  unfold assert. destruct (parameters w =? 0); simpl; [|reflexivity].
  destruct (if hasFlag w Inline then _ else _) as [[i c']| | | |];
    reflexivity.
Qed.


End AddFacts.

(** The words the specification names are Magic, and the parser's [add]
    answers each with the error; [DUP] is not and is added. *)
Example magic_words :
  isMagic _BRANCH = true /\ isMagic _ZBRANCH = true
  /\ isMagic _LITERAL = true /\ isMagic CALL = true
  /\ add_word no_inline _BRANCH None (Compiler_new "")
     = compile_error "Special word BRANCH cannot be added by parser" None
  /\ (fst <$> add_word no_inline DUP None (Compiler_new "")) = ok 0%nat.
Proof. repeat split. Qed.



(** ** Compilation and the vocabulary *)

Section VocabularyFacts.

Context {Value : Type} `{ValueOps Value}.

Lemma CompiledWord_compile_thrown
    (computeEffect : Compiler Value -> Throws StackEffect)
    (c : Compiler Value) (words : Z) (vocab : gmap string Word) :
  thrown (CompiledWord_compile computeEffect c words vocab).1 = true ->
  thrown (generateInstructions computeEffect c) = true
  /\ (CompiledWord_compile computeEffect c words vocab).2 = vocab.
Proof.
  unfold CompiledWord_compile.
  destruct (generateInstructions computeEffect c) as [[instrs c']| | | |];
    simpl; try (intros E; discriminate E).
  - destruct (Z.land _ _ =? 0); simpl; intros E; discriminate E.
  - intros _. split; reflexivity.
Qed.

Lemma returnsImmediately_not_thrown (fuel : nat)
    (ws : list (SourceWord Value)) (pos : InstructionPos) :
  thrown (returnsImmediately fuel ws pos) = false.
Proof.
  revert pos. induction fuel as [|fuel IH]; intros pos; simpl; [reflexivity|].
  destruct (deref ws pos) as [i|]; [|reflexivity].
  destruct (is_word (word (ref i)) Opcode._BRANCH); [|reflexivity].
  destruct (branchTo i); [apply IH|reflexivity].
Qed.

Lemma followBranches_not_thrown (fuel : nat)
    (ws : list (SourceWord Value)) (dst : InstructionPos) :
  thrown (followBranches fuel ws dst) = false.
Proof.
  revert dst. induction fuel as [|fuel IH]; intros dst; simpl; [reflexivity|].
  destruct (deref ws dst) as [i|]; [|reflexivity].
  destruct (is_word (word (ref i)) Opcode._BRANCH); [|reflexivity].
  destruct (branchTo i); [apply IH|reflexivity].
Qed.

Lemma assignStep_not_thrown (g : Generation Value) (pos : InstructionPos) :
  thrown (assignStep g pos) = false.
Proof.
  unfold assignStep. destruct (deref (g_words g) pos) as [i|]; [|reflexivity].
  destruct (afterBranch g && negb (isBranchDestination i)); [reflexivity|].
  destruct (is_word (word (ref i)) Opcode._RECURSE).
  - destruct (next (g_words g) pos) as [n|]; [|reflexivity].
    pose proof (returnsImmediately_not_thrown (S (length (g_words g)))
                  (g_words g) (node n)) as Hr.
    destruct (returnsImmediately _ (g_words g) (node n)) as [[|]| | | |];
      try reflexivity; try discriminate Hr;
      cbn -[followBranches];
      (destruct (branchTo i) as [dst|]; [|reflexivity]);
      match goal with
      | |- context [followBranches ?a ?b ?c] =>
          pose proof (followBranches_not_thrown a b c) as Hf;
          destruct (followBranches a b c)
      end; first [reflexivity | discriminate Hf].
  - cbn -[followBranches].
    destruct (branchTo i) as [dst|]; [|reflexivity].
    match goal with
    | |- context [followBranches ?a ?b ?c] =>
        pose proof (followBranches_not_thrown a b c) as Hf;
        destruct (followBranches a b c)
    end; first [reflexivity | discriminate Hf].
Qed.

Lemma assignLoop_not_thrown (todo : list InstructionPos)
    (g : Generation Value) :
  thrown (assignLoop g todo) = false.
Proof.
  revert g. induction todo as [|pos todo IH]; intros g; simpl; [reflexivity|].
  pose proof (assignStep_not_thrown g pos) as Hs.
  destruct (assignStep g pos); simpl;
    first [apply IH | reflexivity | discriminate Hs].
Qed.

Lemma assemble_not_thrown (ws todo : list (SourceWord Value)) :
  thrown (assemble ws todo) = false.
Proof.
  induction todo as [|i todo IH]; simpl; [reflexivity|].
  unfold branchOffset. destruct (branchTo i) as [t|].
  - destruct (deref ws t); simpl; [|reflexivity].
    destruct (assemble ws todo); simpl; first [reflexivity | discriminate IH].
  - simpl. destruct (assemble ws todo); simpl;
      first [reflexivity | discriminate IH].
Qed.

Lemma epilogue_not_thrown (c : Compiler Value) : thrown (epilogue c) = false.
Proof.
  unfold epilogue, addDropArgs.
  assert (Hr : forall c1 : Compiler Value, thrown (addReturn c1) = false).
  { intros c1. unfold addReturn. destruct (last (_words c1)); [|reflexivity].
    unfold assert. destruct (is_word _ _); reflexivity. }
  destruct (_ || _); [|apply Hr].
  destruct (0 <? _); [|apply Hr].
  unfold add. destruct (last (_words c)); simpl; [apply Hr|reflexivity].
Qed.

(** The compile errors of [generateInstructions] are the one of the
    control stack and the ones of the stack checker, and each of them is
    its outcome. *)
Lemma generateInstructions_compile_error
    (computeEffect : Compiler Value -> Throws StackEffect)
    (c : Compiler Value) (what : string) (location : option Z) :
  generateInstructions computeEffect c = compile_error what location
  <-> (checkControlStack c = compile_error what location
       \/ (checkControlStack c = ok tt
           /\ exists c2, epilogue c = ok c2
                         /\ computeEffect c2 = compile_error what location)).
Proof.
  unfold generateInstructions.
  destruct (checkControlStack c) as [[]| | | |] eqn:Ec; simpl.
  2:{ split.
      - intros E. left. injection E as -> ->. reflexivity.
      - intros [E|[E _]]; [|discriminate E].
        injection E as -> ->. reflexivity. }
  2-4: split; [discriminate|intros [E|[E _]]; discriminate E].
  pose proof (epilogue_not_thrown c) as He.
  destruct (epilogue c) as [c2| | | |] eqn:E2; simpl;
    try discriminate He;
    try (split; [discriminate
                |intros [E|(_ & c2' & E & _)]; discriminate E]).
  destruct (computeEffect c2) as [e| | | |] eqn:Ee; simpl.
  2:{ split.
      - intros E. right. split; [reflexivity|]. exists c2.
        split; [reflexivity|]. rewrite Ee. injection E as -> ->. reflexivity.
      - intros [E|(_ & c2' & [= <-] & E)]; [discriminate E|].
        rewrite Ee in E. injection E as -> ->. reflexivity. }
  2-4: split; [discriminate|];
    intros [E|(_ & c2' & [= <-] & E)]; [discriminate E|];
    rewrite Ee in E; discriminate E.
  split.
  - match goal with
    | |- context [assignPCs ?a ?b] =>
        pose proof (assignLoop_not_thrown (map node a)
                      {| g_words := a; g_flags := b; afterBranch := false;
                         codeSize := 0 |}) as Hg;
        fold (assignPCs a b) in Hg;
        destruct (assignPCs a b) as [g| | | |]
    end; simpl; try discriminate; try discriminate Hg.
    pose proof (assemble_not_thrown (g_words g) (g_words g)) as Ha.
    destruct (assemble (g_words g) (g_words g)); simpl;
      try discriminate; discriminate Ha.
  - intros [E|(_ & c2' & [= <-] & E)]; [discriminate E|].
    rewrite Ee in E. discriminate E.
Qed.

(** C8.  A compile error raised in a compilation unit is the outcome of
    the unit, and the unit leaves the vocabulary as it was.  The error may
    come from the calls of the front end (a Magic word, a [popBranch]
    without its match), from [finish()] finding the control stack not
    empty, or from the stack checker; an error in one call of the front
    end ends the calls.  These are the only compile errors of a unit, and
    the word is added to the vocabulary only after
    [generateInstructions()] has returned. *)
Theorem compile_error_leaves_vocabulary
    (computeEffect : Compiler Value -> Throws StackEffect)
    (nm : string) (build : Compiler Value -> Throws (Compiler Value))
    (words : Z) (vocab : gmap string Word) (what : string)
    (location : option Z) :
  ((build (Compiler_new nm) = compile_error what location
    \/ exists c,
         build (Compiler_new nm) = ok c
         /\ (checkControlStack c = compile_error what location
             \/ (checkControlStack c = ok tt
                 /\ exists c2,
                      epilogue c = ok c2
                      /\ computeEffect c2 = compile_error what location)))
   <-> compileUnit computeEffect nm build words vocab
       = (compile_error what location, vocab))
  /\ ((compileUnit computeEffect nm build words vocab).1
      = compile_error what location ->
      (compileUnit computeEffect nm build words vocab).2 = vocab)
  /\ (forall disassemble calls1 k calls2 c,
      performAll disassemble calls1 (Compiler_new nm) = ok c ->
      perform disassemble k c = compile_error what location ->
      compileUnit computeEffect nm
        (performAll disassemble (calls1 ++ k :: calls2)) words vocab
      = (compile_error what location, vocab)).
Proof.
  assert (Hv : (compileUnit computeEffect nm build words vocab).1
               = compile_error what location ->
               (compileUnit computeEffect nm build words vocab).2 = vocab).
  { unfold compileUnit, finish.
    destruct (build (Compiler_new nm)) as [c| | | |]; simpl;
      try (intros E; first [reflexivity | discriminate E]).
    intros E. apply CompiledWord_compile_thrown. rewrite E. reflexivity. }
  split; [|split; [exact Hv|]].
  - split.
    + intros [Hb|(c & Hb & Hg)]; unfold compileUnit; rewrite Hb;
        [reflexivity|].
      apply generateInstructions_compile_error in Hg.
      unfold finish, CompiledWord_compile. rewrite Hg. reflexivity.
    + intros E.
      assert (E1 : (compileUnit computeEffect nm build words vocab).1
                   = compile_error what location) by (rewrite E; reflexivity).
      clear E. revert E1. unfold compileUnit.
      destruct (build (Compiler_new nm)) as [c| | | |]; simpl;
        try discriminate.
      * intros E. right. exists c. split; [reflexivity|].
        apply generateInstructions_compile_error.
        unfold finish, CompiledWord_compile in E.
        destruct (generateInstructions computeEffect c) as [[instrs c']| | | |];
          simpl in E; try discriminate E.
        -- destruct (Z.land _ _ =? 0); discriminate E.
        -- injection E as -> ->. reflexivity.
      * intros E. left. injection E as -> ->. reflexivity.
  - intros disassemble calls1 k calls2 c H1 Hk. unfold compileUnit.
    assert (Hp : performAll disassemble (calls1 ++ k :: calls2)
                            (Compiler_new nm)
                 = compile_error what location).
    { revert H1. generalize (Compiler_new (Value:=Value) nm).
      induction calls1 as [|k1 calls1 IH]; intros c0; simpl.
      - intros [= ->]. rewrite Hk. reflexivity.
      - destruct (perform disassemble k1 c0); simpl; try discriminate.
        apply IH. }
    rewrite Hp. reflexivity.
Qed.

(** Whatever the unit throws comes from its front end, from the open
    control flow, or from the stack checker; when nothing is thrown and
    the word has a name, the vocabulary has the word under it. *)
Lemma finish_installs
    (computeEffect : Compiler Value -> Throws StackEffect)
    (c : Compiler Value) (words : Z) (vocab : gmap string Word)
    (cw : CompiledWord Value) :
  (finish computeEffect c words vocab).1 = ok cw ->
  toupper (_name c) <> "" ->
  (finish computeEffect c words vocab).2 !! toupper (_name c)
  = Some (toWord cw).
Proof.
  unfold finish, CompiledWord_compile.
  destruct (generateInstructions computeEffect c) as [[instrs c']| | | |] eqn:G;
    simpl; try (intros E; discriminate E).
  assert (Hn : _name c' = _name c).
  { unfold generateInstructions in G.
    destruct (checkControlStack c); simpl in G; try discriminate G.
    destruct (epilogue c) as [c2| | | |] eqn:E2; simpl in G; try discriminate G.
    destruct (computeEffect c2); simpl in G; try discriminate G.
    destruct (assignPCs _ _); simpl in G; try discriminate G.
    destruct (assemble _ _); simpl in G; try discriminate G.
    injection G as _ <-. simpl.
    unfold epilogue in E2.
    destruct (addDropArgs c) as [c1| | | |] eqn:E1; simpl in E2;
      try discriminate E2.
    assert (H1 : _name c1 = _name c).
    { unfold addDropArgs in E1.
      destruct (_ || _); [|injection E1 as <-; reflexivity].
      destruct (0 <? _); [|injection E1 as <-; reflexivity].
      unfold add in E1. destruct (last (_words c)); simpl in E1;
        try discriminate E1.
      injection E1 as <-. reflexivity. }
    unfold addReturn in E2. destruct (last (_words c1)); try discriminate E2.
    unfold assert in E2. destruct (is_word _ _); simpl in E2;
      try discriminate E2.
    injection E2 as <-. simpl. exact H1. }
  rewrite Hn.
  destruct (Z.land _ _ =? 0); simpl; intros E; try discriminate E.
  injection E as <-. intros Hne. simpl.
  rewrite bool_decide_eq_false_2 by exact Hne.
  unfold Vocabulary_add. simpl.
  apply lookup_insert_eq.
Qed.

End VocabularyFacts.

Lemma compile_error_leaves_vocabulary_witness :
  compileUnit (fun c => ok (_effect c)) "broken" unfinished_calls 0x2000
              (Vocabulary_of kWords)
  = (compile_error "Unfinished IF-ELSE-THEN or BEGIN-WHILE-REPEAT)" None,
     Vocabulary_of kWords).
Proof.
  apply (proj1 (compile_error_leaves_vocabulary
                  (fun c => ok (_effect c)) "broken" unfinished_calls 0x2000
                  (Vocabulary_of kWords)
                  "Unfinished IF-ELSE-THEN or BEGIN-WHILE-REPEAT)" None)).
  right. eexists. split; [vm_compute; reflexivity|].
  left. reflexivity.
Defined.

(** ** The end of the compiled stream *)

(** C4.  The endless loop [p = add({NOP}); addBranchBackTo(p)] compiles to a
    stream without any [_RETURN]: the placeholder that became the RETURN
    follows the [_BRANCH] and is not a branch destination, so the dead-code
    pass erases it. *)
Theorem forever_has_no_RETURN (e : StackEffect) :
  (c ← forever_calls (Compiler_new "");
   fst <$> generateInstructions (fun _ => ok e) c)
  = ok [C_op Opcode.NOP; C_op Opcode._BRANCH; C_param (p_offset (-2))]
  /\ count_op Opcode._RETURN
       [C_op Opcode.NOP; C_op Opcode._BRANCH; C_param (p_offset (-2)) : Cell Value]
     = 0%nat.
Proof. split; reflexivity. Qed.

(** C7.  A word that ends with its loop, [BEGIN DUP WHILE 1 - REPEAT]: the
    RETURN is the target of the WHILE branch, yet the assignment
    [_words.back() = {_RETURN}] left it unmarked, the dead-code pass erases
    it after the [_BRANCH] of REPEAT, and the assembly loop reads the pc of
    the erased entry.  Without the pass the word compiles, RETURN
    included. *)
Theorem countdown_loses_branch_target (e : StackEffect) :
  (c ← countdown_calls (Compiler_new "");
   fst <$> generateInstructions (fun _ => ok e) c) = undefined_behaviour
  /\ (c ← countdown_calls (Compiler_new "");
      generateInstructions_keep (fun _ => ok e) c) = ok countdown_kept
  /\ (c ← countdown_calls (Compiler_new "");
      c' ← epilogue c;
      g ← assignPCs (_words c') (_flags c');
      ok (branchTo <$> deref (_words c') 1%nat,
          isBranchDestination <$> deref (_words c') 5%nat,
          deref (g_words g) 5%nat))
     = ok (Some (Some 5%nat), Some false, None).
Proof. repeat split. Qed.

(** ** The word list *)

Section WordListFacts.

Context {Value : Type}.

Implicit Types (ws : list (SourceWord Value)) (pos : InstructionPos).

Lemma assign_app pos f ws1 ws2 :
  assign pos f (ws1 ++ ws2) = assign pos f ws1 ++ assign pos f ws2.
Proof. unfold assign. apply map_app. Qed.

Lemma assign_notin pos f ws :
  pos ∉ map node ws -> assign pos f ws = ws.
Proof.
  induction ws as [|i ws IH]; simpl; intros Hn; [reflexivity|].
  rewrite not_elem_of_cons in Hn. destruct Hn as [Hne Hn].
  destruct (Nat.eqb_spec (node i) pos) as [E|_]; [congruence|].
  f_equal. apply IH, Hn.
Qed.

Lemma assign_here pos f (i : SourceWord Value) :
  node i = pos -> assign pos f [i] = [f i].
Proof. intros <-. simpl. rewrite Nat.eqb_refl. reflexivity. Qed.

Lemma assign_length pos f ws : length (assign pos f ws) = length ws.
Proof. unfold assign. apply length_map. Qed.

Lemma assign_nodes pos f ws :
  (forall i, node (f i) = node i) ->
  map node (assign pos f ws) = map node ws.
Proof.
  intros Hf. induction ws as [|i ws IH]; simpl; [reflexivity|].
  rewrite IH. f_equal. destruct (Nat.eqb (node i) pos); [apply Hf|reflexivity].
Qed.

Lemma assign_assign pos f g ws :
  (forall i, node (f i) = node i) ->
  assign pos g (assign pos f ws) = assign pos (fun i => g (f i)) ws.
Proof.
  intros Hf. induction ws as [|i ws IH]; simpl; [reflexivity|].
  rewrite IH. f_equal.
  destruct (Nat.eqb (node i) pos) eqn:E.
  - rewrite Hf, E. reflexivity.
  - rewrite E. reflexivity.
Qed.

Lemma deref_app_notin ws1 ws2 pos :
  pos ∉ map node ws1 -> deref (ws1 ++ ws2) pos = deref ws2 pos.
Proof.
  induction ws1 as [|i ws1 IH]; simpl; intros Hn; [reflexivity|].
  rewrite not_elem_of_cons in Hn. destruct Hn as [Hne Hn].
  destruct (Nat.eqb_spec (node i) pos) as [E|_]; [congruence|].
  apply IH, Hn.
Qed.

Lemma deref_node ws pos i : deref ws pos = Some i -> node i = pos.
Proof.
  induction ws as [|j ws IH]; simpl; [discriminate|].
  destruct (Nat.eqb_spec (node j) pos) as [E|_]; [|exact IH].
  intros [= <-]. exact E.
Qed.

Lemma deref_assign_ne ws pos pos' f :
  (forall i, node (f i) = node i) -> pos' <> pos ->
  deref (assign pos f ws) pos' = deref ws pos'.
Proof.
  intros Hf Hne. induction ws as [|i ws IH]; simpl; [reflexivity|].
  destruct (Nat.eqb_spec (node i) pos) as [E|E].
  - rewrite Hf. destruct (Nat.eqb_spec (node i) pos') as [E'|_];
      [congruence | exact IH].
  - destruct (Nat.eqb (node i) pos'); [reflexivity | exact IH].
Qed.

Lemma deref_assign_eq ws pos f i :
  (forall i, node (f i) = node i) ->
  deref ws pos = Some i -> deref (assign pos f ws) pos = Some (f i).
Proof.
  intros Hf. induction ws as [|j ws IH]; simpl; [discriminate|].
  destruct (Nat.eqb_spec (node j) pos) as [E|E].
  - intros [= <-]. rewrite Hf.
    destruct (Nat.eqb_spec (node j) pos) as [_|E']; [reflexivity|congruence].
  - destruct (Nat.eqb_spec (node j) pos) as [E'|_]; [congruence|exact IH].
Qed.

Lemma erase_notin pos ws : pos ∉ map node ws -> erase pos ws = ws.
Proof.
  unfold erase. induction ws as [|i ws IH]; simpl; intros Hn; [reflexivity|].
  rewrite not_elem_of_cons in Hn. destruct Hn as [Hne Hn].
  rewrite filter_cons_True by congruence. f_equal. apply IH, Hn.
Qed.

Lemma erase_app pos ws1 ws2 :
  erase pos (ws1 ++ ws2) = erase pos ws1 ++ erase pos ws2.
Proof. unfold erase. apply filter_app. Qed.

Lemma erase_here pos (i : SourceWord Value) ws :
  node i = pos -> erase pos (i :: ws) = erase pos ws.
Proof. intros E. unfold erase. apply filter_cons_False. intros Hn. exact (Hn E). Qed.

End WordListFacts.

(** ** The epilogue *)

Section EpilogueFacts.

Context {Value : Type} `{ValueOps Value}.

(** C6, as the code has it.  For a compiler whose word list ends with the
    placeholder, and whose frame fits the two bytes of the parameter: the
    epilogue appends one [_DROPARGS {inputs + locals, outputs}], in the
    place of the placeholder and immediately before the [_RETURN], exactly
    when the word uses arguments or has locals and its inputs and locals
    together are at least one; otherwise it appends the [_RETURN] alone. *)
Theorem epilogue_appends_DROPARGS (c : Compiler Value)
    (ws : list (SourceWord Value)) (ph : SourceWord Value) :
  _words c = ws ++ [ph] ->
  word (ref ph) = NOP ->
  Forall (fun i => (node i < _nodes c)%nat) (_words c) ->
  node ph ∉ map node ws ->
  inputCount (_effect c) + Z.of_nat (length (_localsTypes c)) < 256 ->
  outputCount (_effect c) < 256 ->
  _words <$> epilogue c
  = ok (ws ++
        if (_usesArgs c || negb (bool_decide (_localsTypes c = [])))
           && (0 <? inputCount (_effect c) + Z.of_nat (length (_localsTypes c)))
        then [ set_isBranchDestination (isBranchDestination ph)
                 (SourceWord_of
                    {| word := _DROPARGS;
                       param := p_drop (inputCount (_effect c)
                                        + Z.of_nat (length (_localsTypes c)))
                                       (outputCount (_effect c)) |}
                    None (node ph));
               SourceWord_of (WordRef_of _RETURN) None (_nodes c) ]
        else [ SourceWord_of (WordRef_of _RETURN) None (node ph) ]).
Proof.
  intros Hws Hnop Hlt Hfresh Hin Hout.
  assert (Hl : dropLocals c
               = inputCount (_effect c) + Z.of_nat (length (_localsTypes c))).
  { unfold dropLocals. apply Z.mod_small. unfold inputCount in *. lia. }
  assert (Hr : dropResults c = outputCount (_effect c)).
  { unfold dropResults. apply Z.mod_small. unfold outputCount in *. lia. }
  assert (Hnodes : (_nodes c ∉ map node ws) /\ _nodes c <> node ph).
  { rewrite Hws, Forall_app, Forall_singleton in Hlt. destruct Hlt as [Hlt1 Hlt2].
    split; [|lia]. rewrite list_elem_of_In, in_map_iff. intros (i & Ei & Hi).
    rewrite Forall_forall in Hlt1. apply list_elem_of_In in Hi.
    specialize (Hlt1 i Hi). lia. }
  destruct Hnodes as [Hn1 Hn2].
  unfold epilogue, addDropArgs. rewrite Hl, Hr.
  destruct (_usesArgs c || negb (bool_decide (_localsTypes c = []))); simpl.
  - destruct (0 <? _) eqn:Epos; simpl.
    + unfold add. rewrite Hws, last_snoc. simpl.
      unfold addReturn. simpl.
      rewrite assign_app, (assign_notin _ _ ws) by exact Hfresh.
      rewrite assign_here by reflexivity.
      rewrite <- app_assoc. simpl.
      replace (ws ++ [_; _]) with ((ws ++ [set_isBranchDestination (isBranchDestination ph)
                 (SourceWord_of
                    {| word := _DROPARGS;
                       param := p_drop (inputCount (_effect c)
                                        + Z.of_nat (length (_localsTypes c)))
                                       (outputCount (_effect c)) |}
                    None (node ph))]) ++ [SourceWord_of (WordRef_of NOP) None (_nodes c)])
        by (rewrite <- app_assoc; reflexivity).
      rewrite last_snoc. simpl.
      rewrite !assign_app, (assign_notin _ _ ws) by exact Hn1.
      rewrite (assign_notin _ _ [_]).
      2:{ simpl. rewrite list_elem_of_singleton. exact Hn2. }
      rewrite assign_here by reflexivity.
      rewrite <- app_assoc. reflexivity.
    + unfold addReturn. rewrite Hws, last_snoc, Hnop. simpl.
      rewrite assign_app, (assign_notin _ _ ws) by exact Hfresh.
      rewrite assign_here by reflexivity. reflexivity.
  - unfold addReturn. rewrite Hws, last_snoc, Hnop. simpl.
    rewrite assign_app, (assign_notin _ _ ws) by exact Hfresh.
    rewrite assign_here by reflexivity. reflexivity.
Qed.

End EpilogueFacts.

Lemma epilogue_appends_DROPARGS_witness :
  _words <$> epilogue one_local_compiler
  = ok [ SourceWord_of {| word := _LOCALS; param := p_offset 1 |} None 1%nat;
         SourceWord_of {| word := _DROPARGS; param := p_drop 1 0 |} None 0%nat;
         SourceWord_of (WordRef_of _RETURN) None 2%nat ].
Proof.
  refine (epilogue_appends_DROPARGS one_local_compiler
            [SourceWord_of {| word := _LOCALS; param := p_offset 1 |} None 1%nat]
            (SourceWord_of (WordRef_of NOP) None 0%nat)
            eq_refl eq_refl _ _ _ _).
  - vm_compute. repeat constructor.
  - simpl. rewrite list_elem_of_singleton. lia.
  - vm_compute. reflexivity.
  - vm_compute. reflexivity.
Defined.

(** C6, as the claim has it, fails: a compiler that uses arguments, whose
    inputs and locals together are none, gets no [_DROPARGS]. *)
Lemma uses_args_without_DROPARGS :
  _usesArgs reset_inputs_compiler = true
  /\ _words <$> epilogue reset_inputs_compiler
     = ok [ SourceWord_of {| word := _GETARG; param := p_offset 0 |} None 0%nat;
            SourceWord_of (WordRef_of _RETURN) None 1%nat ].
Proof. split; reflexivity. Qed.

(** ** Tail calls *)

Section TailCallFacts.

Context {Value : Type} `{ValueOps Value}.

Implicit Types (ws : list (SourceWord Value)) (pos : InstructionPos).

Lemma is_word_RETURN_not_BRANCH (w : Word) :
  is_word w Opcode._RETURN = true -> is_word w Opcode._BRANCH = false.
Proof.
  unfold is_word. destruct (instruction w) as [op|a]; [|discriminate].
  rewrite Opcode_eqb_eq. intros ->. reflexivity.
Qed.

(** [returnsImmediately] returns [b] exactly along a chain that ends with
    [b], given fuel for the length of the chain. *)
Lemma returnsImmediately_Chain fuel ws pos b :
  returnsImmediately fuel ws pos = ok b ->
  exists path, Chain ws pos path b /\ (length path <= fuel)%nat.
Proof.
  revert pos. induction fuel as [|fuel IH]; intros pos; simpl; [discriminate|].
  destruct (deref ws pos) as [i|] eqn:Ei; [|discriminate].
  destruct (is_word (word (ref i)) Opcode._BRANCH) eqn:Eb.
  - destruct (branchTo i) as [t|] eqn:Et; [|discriminate].
    intros Hr. destruct (IH _ Hr) as (path & Hc & Hl).
    exists (pos :: path). split; [eapply Chain_branch; eassumption|simpl; lia].
  - intros [= <-]. exists [pos]. split; [apply Chain_end; assumption|simpl; lia].
Qed.

Lemma Chain_returnsImmediately ws pos path b :
  Chain ws pos path b ->
  forall fuel, (length path <= fuel)%nat ->
  returnsImmediately fuel ws pos = ok b.
Proof.
  induction 1 as [pos i Ei Eb|pos i t path ends Ei Eb Et Hc IH];
    intros [|fuel] Hl; simpl in *; try lia.
  - rewrite Ei, Eb. reflexivity.
  - rewrite Ei, Eb, Et. apply IH. lia.
Qed.

Lemma Chain_deterministic ws pos path1 path2 b1 b2 :
  Chain ws pos path1 b1 -> Chain ws pos path2 b2 ->
  path1 = path2 /\ b1 = b2.
Proof.
  intros H1. revert path2 b2.
  induction H1 as [pos i Ei Eb|pos i t path ends Ei Eb Et Hc IH];
    intros path2 b2 H2.
  - inversion H2 as [pos' i' Ei' Eb'|pos' i' t' path' ends' Ei' Eb' Et' Hc'];
      subst; rewrite Ei in Ei'; injection Ei' as <-.
    + split; reflexivity.
    + rewrite Eb in Eb'. discriminate Eb'.
  - inversion H2 as [pos' i' Ei' Eb'|pos' i' t' path' ends' Ei' Eb' Et' Hc'];
      subst; rewrite Ei in Ei'; injection Ei' as <-.
    + rewrite Eb in Eb'. discriminate Eb'.
    + rewrite Et in Et'. injection Et' as <-.
      destruct (IH _ _ Hc') as [-> ->]. split; reflexivity.
Qed.

Lemma Chain_suffix ws pos path b x :
  Chain ws pos path b -> x ∈ path ->
  exists path', Chain ws x path' b /\ (length path' <= length path)%nat.
Proof.
  induction 1 as [pos i Ei Eb|pos i t path ends Ei Eb Et Hc IH]; intros Hx.
  - apply list_elem_of_singleton in Hx as ->.
    exists [pos]. split; [apply Chain_end; assumption|lia].
  - apply elem_of_cons in Hx as [->|Hx].
    + exists (pos :: path). split; [eapply Chain_branch; eassumption|lia].
    + destruct (IH Hx) as (path' & Hc' & Hl).
      exists path'. split; [exact Hc'|simpl; lia].
Qed.

Lemma Chain_NoDup ws pos path b : Chain ws pos path b -> NoDup path.
Proof.
  induction 1 as [pos i Ei Eb|pos i t path ends Ei Eb Et Hc IH].
  - apply NoDup_singleton.
  - apply NoDup_cons. split; [|exact IH].
    intros Hin. destruct (Chain_suffix _ _ _ _ _ Hc Hin) as (path' & Hc' & Hl).
    assert (Hfull : Chain ws pos (pos :: path) ends)
      by (eapply Chain_branch; eassumption).
    destruct (Chain_deterministic _ _ _ _ _ _ Hfull Hc') as [<- _].
    simpl in Hl. lia.
Qed.

Lemma deref_elem_of ws pos i : deref ws pos = Some i -> pos ∈ map node ws.
Proof.
  induction ws as [|j ws IH]; simpl; [discriminate|].
  destruct (Nat.eqb_spec (node j) pos) as [E|_].
  - intros _. rewrite E. apply list_elem_of_here.
  - intros Hd. apply list_elem_of_further, IH, Hd.
Qed.

Lemma Chain_nodes ws pos path b x :
  Chain ws pos path b -> x ∈ path -> x ∈ map node ws.
Proof.
  induction 1 as [pos i Ei Eb|pos i t path ends Ei Eb Et Hc IH]; intros Hx.
  - apply list_elem_of_singleton in Hx as ->. eapply deref_elem_of, Ei.
  - apply elem_of_cons in Hx as [->|Hx]; [eapply deref_elem_of, Ei|apply IH, Hx].
Qed.

(** A chain visits no entry twice, so it is no longer than the list: the
    fuel of [assignStep] is enough whenever the C++ recursion ends. *)
Lemma Chain_length ws pos path b :
  Chain ws pos path b -> (length path <= length ws)%nat.
Proof.
  intros Hc. rewrite <- (length_map node ws).
  apply submseteq_length, NoDup_submseteq.
  - eapply Chain_NoDup, Hc.
  - intros x Hx. eapply Chain_nodes; eassumption.
Qed.

Lemma returnsImmediately_enough_fuel fuel ws pos b :
  returnsImmediately fuel ws pos = ok b ->
  returnsImmediately (S (length ws)) ws pos = ok b.
Proof.
  intros Hr. destruct (returnsImmediately_Chain _ _ _ _ Hr) as (path & Hc & _).
  eapply Chain_returnsImmediately; [exact Hc|].
  pose proof (Chain_length _ _ _ _ Hc). lia.
Qed.

(** A forward chain to [_RETURN] is a chain to [_RETURN]. *)
Lemma forwardReturns_Chain (pre suf : list (SourceWord Value)) pos :
  NoDup (map node (pre ++ suf)) ->
  forwardReturns suf pos = true ->
  exists path, Chain (pre ++ suf) pos path true.
Proof.
  revert pre pos. induction suf as [|i suf IH]; intros pre pos Hnd; simpl;
    [discriminate|].
  assert (Hnd' : NoDup (map node ((pre ++ [i]) ++ suf)))
    by (rewrite <- app_assoc; exact Hnd).
  destruct (Nat.eqb_spec (node i) pos) as [E|E].
  - assert (Hd : deref (pre ++ i :: suf) pos = Some i).
    { rewrite deref_app_notin.
      - simpl. rewrite E, Nat.eqb_refl. reflexivity.
      - rewrite map_app in Hnd. apply NoDup_app in Hnd as (_ & Hdis & _).
        intros Hin. apply (Hdis _ Hin). simpl. rewrite E. apply list_elem_of_here. }
    destruct (is_word (word (ref i)) Opcode._RETURN) eqn:Er.
    + intros _. exists [pos]. rewrite <- Er.
      apply Chain_end; [exact Hd|apply is_word_RETURN_not_BRANCH, Er].
    + destruct (is_word (word (ref i)) Opcode._BRANCH) eqn:Eb; [|discriminate].
      destruct (branchTo i) as [t|] eqn:Et; [|discriminate].
      intros Hf. destruct (IH (pre ++ [i]) t Hnd' Hf) as (path & Hc).
      rewrite <- app_assoc in Hc. simpl in Hc.
      exists (pos :: path). eapply Chain_branch; eassumption.
  - intros Hf. destruct (IH (pre ++ [i]) pos Hnd' Hf) as (path & Hc).
    rewrite <- app_assoc in Hc. exists path. exact Hc.
Qed.

End TailCallFacts.

Section TailCallRewrite.

Context {Value : Type} `{ValueOps Value}.

(** What one turn of the loop makes of a [_RECURSE] entry that the
    dead-code pass keeps, according to the answer of
    [returnsImmediately(next(i))]. *)
Lemma assignStep_RECURSE (g : Generation Value) (pos h : InstructionPos)
    (i n hd : SourceWord Value) (tail : bool) :
  deref (g_words g) pos = Some i ->
  word (ref i) = _RECURSE ->
  afterBranch g && negb (isBranchDestination i) = false ->
  next (g_words g) pos = Some n ->
  branchTo i = Some h ->
  (tail = true -> h <> pos) ->
  deref (g_words g) h = Some hd ->
  is_word (word (ref hd)) Opcode._BRANCH = false ->
  returnsImmediately (S (length (g_words g))) (g_words g) (node n) = ok tail ->
  exists g',
    assignStep g pos = ok g'
    /\ deref (g_words g') pos
       = Some (set_pc (codeSize g)
                 (set_branchTo (Some h)
                    (set_word (if tail then _BRANCH else _RECURSE) i)))
    /\ g_flags g' = (if tail then g_flags g else Z.lor (g_flags g) Recursive)
    /\ afterBranch g' = tail.
Proof.
  intros Ei Ew Ekeep En Eh Hne Ehd Enb Er.
  assert (Hf : followBranches (S (length (g_words g)))
                 (assign pos (set_word (if tail then _BRANCH else _RECURSE))
                         (g_words g)) h = ok h).
  { simpl. destruct (Nat.eq_dec h pos) as [->|Hhp].
    - destruct tail; [exfalso; apply Hne; reflexivity|].
      erewrite deref_assign_eq; [|reflexivity|exact Ei]. reflexivity.
    - rewrite deref_assign_ne by (reflexivity || exact Hhp).
      rewrite Ehd, Enb. reflexivity. }
  unfold assignStep. rewrite Ei, Ekeep, Ew.
  replace (is_word _RECURSE Opcode._RECURSE) with true by reflexivity.
  rewrite En, Er.
  destruct tail; cbn -[followBranches assign deref length];
    rewrite Eh; cbn -[followBranches assign deref length];
    rewrite Hf; cbn -[followBranches assign deref length];
    eexists; (split; [reflexivity|]);
    cbn -[followBranches assign deref length];
    (split; [|split; reflexivity]);
    (erewrite deref_assign_eq; [reflexivity|reflexivity|]);
    (erewrite deref_assign_eq; [reflexivity|reflexivity|]);
    (erewrite deref_assign_eq; [reflexivity|reflexivity|]);
    exact Ei.
Qed.

(** The loop [while (( *dst)->word == &_BRANCH) dst = ( *dst)->branchTo;]
    does not end at a [_BRANCH] that targets itself. *)
Lemma followBranches_self (fuel : nat) (ws : list (SourceWord Value))
    (pos : InstructionPos) (i : SourceWord Value) :
  deref ws pos = Some i ->
  is_word (word (ref i)) Opcode._BRANCH = true ->
  branchTo i = Some pos ->
  followBranches fuel ws pos = never_returns.
Proof.
  intros Ei Eb Et. induction fuel as [|fuel IH]; simpl; [reflexivity|].
  rewrite Ei, Eb, Et. exact IH.
Qed.

(** A [_RECURSE] that is itself the first entry of the word and returns
    immediately becomes a [_BRANCH] to itself, and the loop that follows the
    chain of branches from it does not end. *)
Lemma assignStep_RECURSE_at_head (g : Generation Value) (pos : InstructionPos)
    (i n : SourceWord Value) :
  deref (g_words g) pos = Some i ->
  word (ref i) = _RECURSE ->
  afterBranch g && negb (isBranchDestination i) = false ->
  next (g_words g) pos = Some n ->
  branchTo i = Some pos ->
  returnsImmediately (S (length (g_words g))) (g_words g) (node n) = ok true ->
  assignStep g pos = never_returns.
Proof.
  intros Ei Ew Ekeep En Eh Er.
  unfold assignStep. rewrite Ei, Ekeep, Ew.
  replace (is_word _RECURSE Opcode._RECURSE) with true by reflexivity.
  rewrite En, Er. cbn -[followBranches assign deref length].
  rewrite Eh. cbn -[followBranches assign deref length].
  rewrite (followBranches_self _ _ pos (set_word _BRANCH i));
    [reflexivity| |reflexivity|exact Eh].
  apply deref_assign_eq; [reflexivity|exact Ei].
Qed.

(** C5, as the code has it.  A [_RECURSE] entry that the dead-code pass
    keeps, whose branch target (the head of the word, set by [addRecurse])
    is not a [_BRANCH]: when its successor is [_RETURN] or reaches
    [_RETURN] through a chain of [_BRANCH] entries, forward or backward, and
    the entry is not itself the head, it becomes a [_BRANCH] to the head and
    the flags are as they were; when the chain ends at another instruction,
    the entry stays [_RECURSE] and the word is flagged Recursive, whether
    or not the entry is the head.  A forward chain to [_RETURN] is such a
    chain.  (At the head a returning [_RECURSE] is rewritten as well, and the
    loop that follows the branches from it does not end.) *)
Theorem RECURSE_tail_call (g : Generation Value) (pos h : InstructionPos)
    (i n hd : SourceWord Value) :
  NoDup (map node (g_words g)) ->
  deref (g_words g) pos = Some i ->
  word (ref i) = _RECURSE ->
  afterBranch g && negb (isBranchDestination i) = false ->
  next (g_words g) pos = Some n ->
  branchTo i = Some h ->
  deref (g_words g) h = Some hd ->
  is_word (word (ref hd)) Opcode._BRANCH = false ->
  (forall path tail, Chain (g_words g) (node n) path tail ->
     (tail = true -> h <> pos) ->
     exists g',
       assignStep g pos = ok g'
       /\ deref (g_words g') pos
          = Some (set_pc (codeSize g)
                    (set_branchTo (Some h)
                       (set_word (if tail then _BRANCH else _RECURSE) i)))
       /\ g_flags g' = (if tail then g_flags g
                        else Z.lor (g_flags g) Recursive))
  /\ (forall path, Chain (g_words g) (node n) path true -> h = pos ->
      assignStep g pos = never_returns)
  /\ (forwardReturns (g_words g) (node n) = true ->
      exists path, Chain (g_words g) (node n) path true).
Proof.
  intros Hnd Ei Ew Ekeep En Eh Ehd Enb.
  assert (Hr : forall path tail, Chain (g_words g) (node n) path tail ->
            returnsImmediately (S (length (g_words g))) (g_words g) (node n)
            = ok tail).
  { intros path tail Hc. eapply Chain_returnsImmediately; [exact Hc|].
    pose proof (Chain_length _ _ _ _ Hc). lia. }
  split; [|split].
  - intros path tail Hc Hne.
    destruct (assignStep_RECURSE g pos h i n hd tail Ei Ew Ekeep En Eh Hne Ehd
                                 Enb (Hr _ _ Hc)) as (g' & E1 & E2 & E3 & _).
    exists g'. repeat split; assumption.
  - intros path Hc ->.
    exact (assignStep_RECURSE_at_head g pos i n Ei Ew Ekeep En Eh (Hr _ _ Hc)).
  - intros Hf. apply (forwardReturns_Chain [] (g_words g)); assumption.
Qed.

End TailCallRewrite.

Lemma RECURSE_tail_call_witness :
  exists g',
    assignStep tail_chain_state 5%nat = ok g'
    /\ (word ∘ ref <$> deref (g_words g') 5%nat) = Some _BRANCH
    /\ (branchTo <$> deref (g_words g') 5%nat) = Some (Some 0%nat)
    /\ g_flags g' = NoFlags.
Proof.
  assert (Hc : Chain (g_words tail_chain_state) 6%nat
                     [6%nat; 2%nat; 8%nat] true).
  { eapply Chain_branch; [vm_compute; reflexivity..|].
    eapply Chain_branch; [vm_compute; reflexivity..|].
    apply (Chain_end _ 8%nat (SourceWord_of (WordRef_of _RETURN) None 8%nat));
      vm_compute; reflexivity. }
  edestruct (RECURSE_tail_call tail_chain_state 5%nat 0%nat) as [X _].
  1: apply (bool_decide_unpack _); vm_compute; exact I.
  1-5: vm_compute; reflexivity.
  1-2: vm_compute; reflexivity.
  destruct (X _ _ Hc) as (g' & E1 & E2 & E3); [intros _; lia|].
  exists g'. rewrite E2, E3. split; [exact E1|].
  repeat split; vm_compute; reflexivity.
Defined.

(** C5, as the claim has it, fails: the successor of this [_RECURSE] is a
    backward [_BRANCH] (to the entry at node 2, which branches to the
    RETURN); the entry is not followed by [_RETURN], nor by a chain of
    forward branches to it, and yet it is rewritten to [_BRANCH]: the
    generated word has no [_RECURSE] left and is not flagged Recursive. *)
Lemma RECURSE_backward_chain_is_rewritten :
  (word ∘ ref <$> deref (g_words tail_chain_state) 5%nat) = Some _RECURSE
  /\ (node <$> next (g_words tail_chain_state) 5%nat) = Some 6%nat
  /\ (word ∘ ref <$> deref (g_words tail_chain_state) 6%nat) = Some _BRANCH
  /\ (branchTo <$> deref (g_words tail_chain_state) 6%nat)
     = Some (Some 2%nat)
  /\ map node (g_words tail_chain_state)
     = [0; 1; 2; 3; 4; 5; 6; 7; 8]%nat
  /\ forwardReturns (g_words tail_chain_state) 6%nat = false
  /\ (g ← assignStep tail_chain_state 5%nat;
      ok (word ∘ ref <$> deref (g_words g) 5%nat, Z.land (g_flags g) Recursive))
     = ok (Some _BRANCH, 0)
  /\ (c ← tail_chain_calls tail_chain_compiler;
      r ← generateInstructions (fun c => ok (_effect c)) c;
      ok (count_op Opcode._RECURSE r.1, count_op Opcode._BRANCH r.1,
          Z.land (_flags r.2) Recursive))
     = ok (0%nat, 2%nat, 0).
Proof. repeat split; vm_compute; reflexivity. Qed.

(** ** Word lists and assembled cells *)

Section ListFacts.

Context {Value : Type} `{ValueOps Value}.

Implicit Types (ws : list (SourceWord Value)) (pos : InstructionPos).

Lemma fetch_app (pre more : list (Cell Value)) (x : Cell Value) :
  fetch (pre ++ x :: more) (Z.of_nat (length pre)) = Some x.
Proof.
  unfold fetch. destruct (Z.ltb_spec (Z.of_nat (length pre)) 0) as [E|_]; [lia|].
  rewrite Nat2Z.id. apply list_lookup_middle. reflexivity.
Qed.

Lemma assign_middle pos f ws1 (r : SourceWord Value) ws2 :
  pos ∉ map node ws1 -> pos ∉ map node ws2 -> node r = pos ->
  assign pos f (ws1 ++ r :: ws2) = ws1 ++ f r :: ws2.
Proof.
  intros H1 H2 Er.
  rewrite assign_app, (assign_notin _ _ ws1) by exact H1.
  change (r :: ws2) with ([r] ++ ws2).
  rewrite assign_app, assign_here, (assign_notin _ _ ws2) by assumption.
  reflexivity.
Qed.

Lemma NoDup_middle ws1 (r : SourceWord Value) ws2 :
  NoDup (map node (ws1 ++ r :: ws2)) ->
  (node r ∉ map node ws1) /\ (node r ∉ map node ws2).
Proof.
  rewrite map_app. simpl. intros Hnd.
  apply NoDup_app in Hnd as (_ & Hdis & Hnd2).
  apply NoDup_cons in Hnd2 as [Hn2 _].
  split; [|exact Hn2].
  intros Hin. apply (Hdis _ Hin). apply list_elem_of_here.
Qed.

End ListFacts.

(** ** The end-of-word marker *)

Section ReturnFacts.

Context {Value : Type} `{ValueOps Value}.

(** [INTERP_WORD] ends every array with [_RETURN]. *)
Lemma INTERP_WORD_ends_with_RETURN (words : list (Cell Value)) :
  last (INTERP_WORD words) = Some (C_op Opcode._RETURN).
Proof. unfold INTERP_WORD. apply last_snoc. Qed.

Lemma last_assign (ws : list (SourceWord Value)) (i : SourceWord Value) f :
  last ws = Some i -> last (assign (node i) f ws) = Some (f i).
Proof.
  induction ws as [|x ws IH]; [discriminate|].
  destruct ws as [|y ws].
  - simpl. intros [= ->]. rewrite Nat.eqb_refl. reflexivity.
  - intros Hl. change (last (x :: y :: ws)) with (last (y :: ws)) in Hl.
    specialize (IH Hl). simpl in *. exact IH.
Qed.

(** After the epilogue the word list ends with [_RETURN]; it is the loop
    after it that may erase the entry. *)
Lemma epilogue_ends_with_RETURN (c c' : Compiler Value) :
  epilogue c = ok c' ->
  exists r, last (_words c') = Some r /\ word (ref r) = _RETURN.
Proof.
  unfold epilogue.
  destruct (addDropArgs c) as [c1| | | |]; simpl; try discriminate.
  unfold addReturn. destruct (last (_words c1)) as [i|] eqn:El; [|discriminate].
  destruct (assert _); simpl; try discriminate.
  intros [= <-]. simpl. eexists. split; [apply last_assign, El|reflexivity].
Qed.

End ReturnFacts.

(** The four interpreted words of core_words.cc hold one [_RETURN] each. *)
Example core_words_one_RETURN :
  count_op Opcode._RETURN (i_SQUARE (Value:=Value)) = 1%nat
  /\ count_op Opcode._RETURN (i_ABS (Value:=Value)) = 1%nat
  /\ count_op Opcode._RETURN (i_MAX (Value:=Value)) = 1%nat
  /\ count_op Opcode._RETURN (i_MIN (Value:=Value)) = 1%nat.
Proof. repeat split. Qed.

(** ** Chains of branches *)

Section FollowFacts.

Context {Value : Type} `{ValueOps Value}.

(** [followBranches] stops at the last entry of the chain, and the fuel of
    [assignStep] is enough for it whenever the C++ loop ends. *)
Lemma followBranches_Chain (fuel : nat) (ws : list (SourceWord Value))
    (dst d : InstructionPos) :
  followBranches fuel ws dst = ok d ->
  exists path ends,
    Chain ws dst path ends /\ last path = Some d /\ (length path <= fuel)%nat.
Proof.
  revert dst. induction fuel as [|fuel IH]; intros dst; simpl; [discriminate|].
  destruct (deref ws dst) as [i|] eqn:Ei; [|discriminate].
  destruct (is_word (word (ref i)) Opcode._BRANCH) eqn:Eb.
  - destruct (branchTo i) as [t|] eqn:Et; [|discriminate].
    intros Hr. destruct (IH _ Hr) as (path & ends & Hc & Hl & Hn).
    exists (dst :: path), ends. split; [eapply Chain_branch; eassumption|].
    split; [|simpl; lia].
    destruct path as [|x path]; [discriminate Hl|exact Hl].
  - intros [= <-]. exists [dst], (is_word (word (ref i)) Opcode._RETURN).
    split; [apply Chain_end; assumption|]. split; [reflexivity|simpl; lia].
Qed.

Lemma Chain_followBranches (ws : list (SourceWord Value))
    (dst : InstructionPos) (path : list InstructionPos) (ends : bool) :
  Chain ws dst path ends ->
  forall fuel, (length path <= fuel)%nat ->
  exists d, last path = Some d /\ followBranches fuel ws dst = ok d.
Proof.
  induction 1 as [pos i Ei Eb|pos i t path ends Ei Eb Et Hc IH];
    intros [|fuel] Hl; simpl in Hl; try lia.
  - exists pos. split; [reflexivity|]. simpl. rewrite Ei, Eb. reflexivity.
  - destruct (IH fuel ltac:(lia)) as (d & Hd & Hf).
    exists d. split.
    + destruct path as [|x path]; [discriminate Hd|exact Hd].
    + simpl. rewrite Ei, Eb, Et. exact Hf.
Qed.

Lemma followBranches_enough_fuel (fuel : nat) (ws : list (SourceWord Value))
    (dst d : InstructionPos) :
  followBranches fuel ws dst = ok d ->
  followBranches (S (length ws)) ws dst = ok d.
Proof.
  intros Hr.
  destruct (followBranches_Chain _ _ _ _ Hr) as (path & ends & Hc & Hl & _).
  pose proof (Chain_length _ _ _ _ Hc) as Hn.
  destruct (Chain_followBranches _ _ _ _ Hc (S (length ws)) ltac:(lia))
    as (d' & Hd & Hf).
  rewrite Hl in Hd. injection Hd as <-. exact Hf.
Qed.

End FollowFacts.

(** * Further properties *)

(** ** Words *)

(** X1.  The two constructors of Word and its flag tests: a word made by
    the native constructor is native whatever flags it is given and has
    each other flag exactly when it was given; a word made by the
    interpreted constructor has no flag; and a word has a parameter exactly
    when it has an integer or a value parameter. *)
Theorem Word_flags (nm : string) (op : Opcode) (e : StackEffect) (f words : Z)
    (w : Word) :
  isNative (Word_native nm op e f) = true
  /\ isMagic (Word_native nm op e f) = negb (Z.land f Magic =? 0)
  /\ hasIntParam (Word_native nm op e f) = negb (Z.land f HasIntParam =? 0)
  /\ hasValParam (Word_native nm op e f) = negb (Z.land f HasValParam =? 0)
  /\ hasFlag (Word_native nm op e f) Inline = negb (Z.land f Inline =? 0)
  /\ isNative (Word_interp nm e words) = false
  /\ isMagic (Word_interp nm e words) = false
  /\ hasAnyParam (Word_interp nm e words) = false
  /\ hasAnyParam w = hasIntParam w || hasValParam w.
Proof.
  unfold isNative, isMagic, hasIntParam, hasValParam, hasAnyParam, hasFlag.
  simpl flags.
  assert (Hother : forall g, Z.land Native g = 0 ->
            Z.land (Z.lor f Native) g = Z.land f g).
  { intros g Hg. rewrite Z.land_lor_distr_l, Hg. apply Z.lor_0_r. }
  repeat split.
  - rewrite Z.land_lor_distr_l. change (Z.land Native Native) with 1.
    destruct (Z.eqb_spec (Z.lor (Z.land f Native) 1) 0) as [E|_]; [|reflexivity].
    apply Z.lor_eq_0_iff in E. destruct E as [_ E]. discriminate E.
  - rewrite Hother by reflexivity. reflexivity.
  - rewrite Hother by reflexivity. reflexivity.
  - rewrite Hother by reflexivity. reflexivity.
  - rewrite Hother by reflexivity. reflexivity.
  - rewrite Z.land_lor_distr_r.
    destruct (Z.eqb_spec (Z.land (flags w) HasIntParam) 0) as [E1|E1];
      destruct (Z.eqb_spec (Z.land (flags w) HasValParam) 0) as [E2|E2];
      simpl;
      destruct (Z.eqb_spec (Z.lor (Z.land (flags w) HasIntParam)
                                  (Z.land (flags w) HasValParam)) 0) as [E|E];
      try reflexivity; exfalso.
    + apply E. rewrite E1, E2. reflexivity.
    + apply Z.lor_eq_0_iff in E. tauto.
    + apply Z.lor_eq_0_iff in E. tauto.
    + apply Z.lor_eq_0_iff in E. tauto.
Qed.

(** X2.  [==] on words is an equivalence relation, and [!=] holds exactly
    when [==] does not. *)
Theorem Word_eqb_equivalence (a b c : Word) :
  Word_eqb a a = true
  /\ Word_eqb a b = Word_eqb b a
  /\ (Word_eqb a b = true -> Word_eqb b c = true -> Word_eqb a c = true)
  /\ Word_neqb a b = negb (Word_eqb a b)
  /\ (Word_neqb a b = true <-> instruction a <> instruction b).
Proof.
  unfold Word_neqb, Word_eqb. repeat split.
  - apply Instruction_eqb_eq. reflexivity.
  - destruct (Instruction_eqb (instruction a) (instruction b)) eqn:E1;
      destruct (Instruction_eqb (instruction b) (instruction a)) eqn:E2;
      try reflexivity.
    + apply Instruction_eqb_eq in E1. rewrite E1 in E2.
      rewrite (proj2 (Instruction_eqb_eq _ _) eq_refl) in E2. discriminate E2.
    + apply Instruction_eqb_eq in E2. rewrite E2 in E1.
      rewrite (proj2 (Instruction_eqb_eq _ _) eq_refl) in E1. discriminate E1.
  - rewrite !Instruction_eqb_eq. congruence.
  - intros Hn E. rewrite (proj2 (Instruction_eqb_eq _ _) E) in Hn.
    discriminate Hn.
  - intros Hne.
    destruct (Instruction_eqb (instruction a) (instruction b)) eqn:E;
      [|reflexivity].
    apply Instruction_eqb_eq in E. contradiction.
Qed.

(** ** Native words and their stack effects *)

Section StackEffectFacts.

Context {Value : Type} `{ValueOps Value}.

(** X3.  The stack effect that core_words.cc declares for a native word
    without a parameter is accurate ("Must be accurate!"): on a stack with
    at least the declared inputs the handler goes on to the next
    instruction without moving the pc, with a stack that is the old one
    below the inputs and holds the declared number of outputs above.  On a
    shorter stack every handler but the one of [DROP] reads below the
    bottom of the stack; [DROP] reads nothing and goes on with [sp] below
    the empty stack. *)
Theorem stack_effects_are_accurate :
  Forall (fun w =>
    exists f,
      Word_handler w = Some f
      /\ forall (code : list (Cell Value)) (sp : Stack Value) (pc : Z),
          (inputCount (stackEffect w) <= Z.of_nat (length sp) ->
           exists sp',
             f code sp pc = NEXT sp' pc
             /\ drop (Z.to_nat (outputCount (stackEffect w))) sp'
                = drop (Z.to_nat (inputCount (stackEffect w))) sp
             /\ Z.of_nat (length sp') + inputCount (stackEffect w)
                = Z.of_nat (length sp) + outputCount (stackEffect w))
          /\ (Z.of_nat (length sp) < inputCount (stackEffect w) ->
              f code sp pc
              = if is_word w Opcode.DROP then UNDERFLOWS pc else UNDEFINED))
    declaredWords.
Proof.
  unfold declaredWords.
  repeat apply List.Forall_cons; try apply List.Forall_nil;
    (eexists; split; [reflexivity|]);
    intros code sp pc; split; intros Hl;
    destruct sp as [|a [|b [|c sp]]];
    unfold inputCount, outputCount in *; simpl in Hl; try lia;
    try reflexivity;
    (eexists; split; [reflexivity|]; split; [reflexivity|simpl; lia]).
Qed.

End StackEffectFacts.

(** ** The interpreted core words *)

Section InterpretedWordFacts.

Context {Value : Type} `{ValueOps Value}.

(** X4.  [SQUARE] and [ABS] on any stack with a value [a] on top, given
    fuel for their instructions: [SQUARE] replaces [a] by [a * a]; [ABS]
    leaves [a] when [a < 0] is falsy and replaces it by [0 - a] otherwise;
    the stack below is untouched. *)
Theorem SQUARE_ABS_run (mem : gmap Z (list (Cell Value))) (k : nat)
    (a : Value) (sp : Stack Value) :
  call (3 + k) mem i_SQUARE (a :: sp) = Returned (v_mul a a :: sp)
  /\ call (7 + k) mem i_ABS (a :: sp)
     = Returned ((if v_not (v_of_bool (v_lt a (v_of_int 0)))
                  then a else v_sub (v_of_int 0) a) :: sp).
Proof.
  split; [reflexivity|].
  unfold call, i_ABS, INTERP_WORD.
  cbv -[v_not v_of_bool v_lt v_of_int v_sub].
  destruct (v_not (v_of_bool (v_lt a (v_of_int 0)))); reflexivity.
Qed.

(** X5.  [MAX] and [MIN] on any stack with [a] below [b] on top: [MAX]
    leaves [b] when [a < b] is truthy and [a] otherwise, [MIN] leaves [b]
    when [a > b] is truthy and [a] otherwise; one value replaces the two
    and the stack below is untouched. *)
Theorem MAX_MIN_run (mem : gmap Z (list (Cell Value))) (k : nat)
    (a b : Value) (sp : Stack Value) :
  call (7 + k) mem i_MAX (b :: a :: sp)
  = Returned ((if v_not (v_of_bool (v_lt a b)) then a else b) :: sp)
  /\ call (7 + k) mem i_MIN (b :: a :: sp)
     = Returned ((if v_not (v_of_bool (v_gt a b)) then a else b) :: sp).
Proof.
  split.
  - unfold call, i_MAX, INTERP_WORD.
    cbv -[v_not v_of_bool v_lt].
    destruct (v_not (v_of_bool (v_lt a b))); reflexivity.
  - unfold call, i_MIN, INTERP_WORD.
    cbv -[v_not v_of_bool v_gt].
    destruct (v_not (v_of_bool (v_gt a b))); reflexivity.
Qed.

End InterpretedWordFacts.

(** ** Following branches *)

Section ChainTheorems.

Context {Value : Type} `{ValueOps Value}.

(** X6.  [returnsImmediately(pos)] answers along the chain of [_BRANCH]
    entries that starts at [pos]: it returns [b] exactly when that chain
    reaches an entry that is not a [_BRANCH], and [b] tells whether that
    entry is [_RETURN].  Such a chain visits no entry twice, so the answer
    is found within as many calls as the list has entries, plus one. *)
Theorem returnsImmediately_follows_chain (ws : list (SourceWord Value))
    (pos : InstructionPos) (b : bool) :
  (returnsImmediately (S (length ws)) ws pos = ok b
   <-> exists path, Chain ws pos path b)
  /\ ((exists fuel, returnsImmediately fuel ws pos = ok b)
      <-> returnsImmediately (S (length ws)) ws pos = ok b)
  /\ (forall path, Chain ws pos path b ->
      NoDup path /\ (length path <= length ws)%nat).
Proof.
  repeat split.
  - intros Hr. destruct (returnsImmediately_Chain _ _ _ _ Hr) as (path & Hc & _).
    exists path. exact Hc.
  - intros (path & Hc). eapply Chain_returnsImmediately; [exact Hc|].
    pose proof (Chain_length _ _ _ _ Hc). lia.
  - intros (fuel & Hr). eapply returnsImmediately_enough_fuel, Hr.
  - intros Hr. eexists. exact Hr.
  - eapply Chain_NoDup. eassumption.
  - eapply Chain_length. eassumption.
Qed.

(** X7.  Where [followBranches] stops: the destination it returns is an
    entry of the list that is not a [_BRANCH], following from it again
    stays there, and it is found within as many turns as the list has
    entries, plus one. *)
Theorem followBranches_stops_off_BRANCH (fuel : nat)
    (ws : list (SourceWord Value)) (dst d : InstructionPos) :
  followBranches fuel ws dst = ok d ->
  (exists e, deref ws d = Some e
             /\ is_word (word (ref e)) Opcode._BRANCH = false)
  /\ followBranches fuel ws d = ok d
  /\ followBranches (S (length ws)) ws dst = ok d.
Proof.
  intros Hr.
  assert (He : exists e, deref ws d = Some e
                         /\ is_word (word (ref e)) Opcode._BRANCH = false).
  { revert dst Hr. induction fuel as [|fuel IH]; intros dst; simpl;
      [discriminate|].
    destruct (deref ws dst) as [i|] eqn:Ei; [|discriminate].
    destruct (is_word (word (ref i)) Opcode._BRANCH) eqn:Eb.
    - destruct (branchTo i) as [t|]; [|discriminate]. apply IH.
    - intros [= <-]. exists i. split; assumption. }
  split; [exact He|]. split.
  - destruct He as (e & Ee & Eb).
    destruct fuel as [|fuel]; [discriminate Hr|].
    simpl. rewrite Ee, Eb. reflexivity.
  - eapply followBranches_enough_fuel, Hr.
Qed.

End ChainTheorems.

Lemma followBranches_stops_off_BRANCH_witness :
  followBranches 3 backward_chain_words 6%nat = ok 6%nat
  /\ followBranches 8 backward_chain_words 4%nat = ok 6%nat.
Proof.
  destruct (followBranches_stops_off_BRANCH 3 backward_chain_words 4%nat 6%nat
              ltac:(vm_compute; reflexivity)) as (_ & H1 & H2).
  split; [exact H1|exact H2].
Defined.

(** ** The assembled code, entry by entry *)

Section AssembledFacts.

Context {Value : Type} `{ValueOps Value}.

End AssembledFacts.

(** ** The shape of the word list *)

Section WellFormedFacts.

Context {Value : Type} `{ValueOps Value}.

Implicit Types (ws pre : list (SourceWord Value)) (c : Compiler Value).

Lemma nodes_below ws (n x : nat) :
  Forall (fun i => (node i < n)%nat) ws -> x ∈ map node ws -> (x < n)%nat.
Proof.
  intros Hlt Hx. apply list_elem_of_In, in_map_iff in Hx as (i & <- & Hi).
  rewrite List.Forall_forall in Hlt. apply Hlt, Hi.
Qed.

Lemma Forall_assign (P : SourceWord Value -> Prop) p f ws :
  (forall i, P i -> P (f i)) -> Forall P ws -> Forall P (assign p f ws).
Proof.
  intros Hf. induction 1 as [|i l Hi Hl IH]; simpl; constructor.
  - destruct (Nat.eqb (node i) p); [apply Hf|]; exact Hi.
  - exact IH.
Qed.

Lemma assign_last pre (ph : SourceWord Value) f :
  node ph ∉ map node pre ->
  assign (node ph) f (pre ++ [ph]) = pre ++ [f ph].
Proof.
  intros Hn. apply assign_middle; [exact Hn| |reflexivity].
  simpl. apply not_elem_of_nil.
Qed.

Lemma wellFormed_last ws n :
  wellFormed ws n ->
  exists pre ph,
    ws = pre ++ [ph] /\ word (ref ph) = NOP
    /\ (node ph ∉ map node pre) /\ last ws = Some ph.
Proof.
  intros (Hnd & _ & pre & ph & -> & Hph).
  exists pre, ph. repeat split; [exact Hph| |apply last_snoc].
  apply (NoDup_middle pre ph []), Hnd.
Qed.

Lemma wellFormed_assign p f ws n :
  (forall i, node (f i) = node i) ->
  (forall i, word (ref (f i)) = word (ref i)) ->
  wellFormed ws n -> wellFormed (assign p f ws) n.
Proof.
  intros Hn Hw (Hnd & Hlt & pre & ph & -> & Hph).
  split; [rewrite assign_nodes by exact Hn; exact Hnd|]. split.
  - apply Forall_assign; [|exact Hlt]. intros i. rewrite Hn. tauto.
  - rewrite assign_app. simpl. eexists _, _. split; [reflexivity|].
    destruct (Nat.eqb _ _); [rewrite Hw|]; exact Hph.
Qed.

Lemma wellFormed_snoc n (e ph : SourceWord Value) pre :
  wellFormed (pre ++ [ph]) n ->
  node e = node ph ->
  wellFormed (pre ++ [e; SourceWord_of (WordRef_of NOP) None n]) (S n).
Proof.
  intros (Hnd & Hlt & _) He.
  assert (Hm : map node (pre ++ [e]) = map node (pre ++ [ph])).
  { rewrite !map_app. simpl. rewrite He. reflexivity. }
  assert (Hlt' : Forall (fun i => (node i < n)%nat) (pre ++ [e])).
  { apply Forall_app in Hlt as [H1 H2]. apply Forall_app. split; [exact H1|].
    inversion H2 as [|? ? Hp _]; subst. constructor; [lia|constructor]. }
  change (pre ++ [e; SourceWord_of (WordRef_of NOP) None n])
    with (pre ++ [e] ++ [SourceWord_of (WordRef_of NOP) None n]).
  rewrite app_assoc. split; [|split].
  - rewrite map_app. apply NoDup_app. split; [rewrite Hm; exact Hnd|].
    split; [|apply NoDup_singleton].
    intros x Hx Hx'. simpl in Hx'. apply list_elem_of_singleton in Hx'.
    subst x. apply (nodes_below _ n) in Hx; [lia|exact Hlt'].
  - apply Forall_app. split.
    + eapply Forall_impl; [exact Hlt'|]. simpl. intros; lia.
    + constructor; [simpl; lia|constructor].
  - eexists _, _. split; reflexivity.
Qed.

(** What [add] does to a well-formed list: the placeholder becomes the
    word, with the placeholder's [isBranchDestination], and a new
    placeholder follows it. *)
Lemma add_spec c (r : WordRef Value) (source : option Z) :
  WellFormed c ->
  exists pre ph,
    _words c = pre ++ [ph] /\ word (ref ph) = NOP
    /\ (node ph ∉ map node pre)
    /\ add r source c
       = ok (node ph,
             with_words
               (pre ++ [set_isBranchDestination (isBranchDestination ph)
                          (SourceWord_of r source (node ph));
                        SourceWord_of (WordRef_of NOP) None (_nodes c)])
               (S (_nodes c)) c).
Proof.
  intros Hwf. destruct (wellFormed_last _ _ Hwf) as (pre & ph & E & Hph & Hn & Hl).
  exists pre, ph. repeat split; try assumption.
  unfold add. rewrite Hl, E, assign_last by exact Hn.
  rewrite <- app_assoc. reflexivity.
Qed.

Lemma add_WellFormed c (r : WordRef Value) (source : option Z) i c' :
  WellFormed c -> add r source c = ok (i, c') ->
  WellFormed c' /\ _name c' = _name c /\ back c = ok i.
Proof.
  intros Hwf Ha.
  destruct (add_spec c r source Hwf) as (pre & ph & E & Hph & Hn & Ha').
  rewrite Ha' in Ha. injection Ha as <- <-.
  split; [|split; [reflexivity|]].
  - unfold WellFormed. simpl. apply (wellFormed_snoc _ _ ph); [|reflexivity].
    rewrite <- E. exact Hwf.
  - unfold back. rewrite E, last_snoc. reflexivity.
Qed.

Lemma add_total c (r : WordRef Value) (source : option Z) :
  WellFormed c -> exists i c', add r source c = ok (i, c').
Proof.
  intros Hwf. destruct (add_spec c r source Hwf) as (pre & ph & _ & _ & _ & Ha).
  eexists _, _. exact Ha.
Qed.

Lemma branchesTo_WellFormed c (src dst : InstructionPos) :
  WellFormed c ->
  WellFormed (branchesTo src dst c) /\ _name (branchesTo src dst c) = _name c.
Proof.
  intros Hwf. split; [|reflexivity]. unfold WellFormed, branchesTo. simpl.
  apply wellFormed_assign; [reflexivity..|].
  apply wellFormed_assign; [reflexivity..|]. exact Hwf.
Qed.

Lemma back_total c : WellFormed c -> exists i, back c = ok i.
Proof.
  intros Hwf. destruct (wellFormed_last _ _ Hwf) as (pre & ph & _ & _ & _ & Hl).
  unfold back. rewrite Hl. eexists. reflexivity.
Qed.

Lemma addInline_loop_WellFormed (refs : list (WordRef Value))
    (source : option Z) c c' :
  WellFormed c -> addInline_loop refs source c = ok c' ->
  WellFormed c' /\ _name c' = _name c.
Proof.
  revert c. induction refs as [|r refs IH]; intros c Hwf; simpl;
    [discriminate|].
  destruct (is_word (word r) Opcode._RETURN).
  - intros [= <-]. split; [exact Hwf|reflexivity].
  - destruct (add r source c) as [[i c1]| | | |] eqn:Ea; simpl;
      try discriminate.
    destruct (add_WellFormed _ _ _ _ _ Hwf Ea) as (Hwf1 & Hn1 & _).
    intros Hl. destruct (IH _ Hwf1 Hl) as [Hwf' Hn'].
    split; [exact Hwf'|congruence].
Qed.

Lemma reserveLocalVariable_WellFormed (type : TypeSet) c :
  WellFormed c ->
  WellFormed (reserveLocalVariable type c).2
  /\ _name (reserveLocalVariable type c).2 = _name c.
Proof.
  intros Hwf. unfold reserveLocalVariable.
  destruct (_words c) as [|i tl] eqn:Ew.
  { destruct Hwf as (_ & _ & pre & ph & E & _). rewrite Ew in E.
    destruct pre; discriminate E. }
  unfold WellFormed in Hwf. rewrite Ew in Hwf.
  destruct (is_word (word (ref i)) Opcode._LOCALS); cbn -[assign];
    (split; [|reflexivity]).
  - apply (wellFormed_assign (node i) (set_param _) (i :: tl));
      [reflexivity..|exact Hwf].
  - apply (wellFormed_assign (_nodes c) (set_param _) (_ :: i :: tl));
      [reflexivity..|].
    destruct Hwf as (Hnd & Hlt & pre & ph & E & Hph).
    split; [|split].
    + change (NoDup (_nodes c :: map node (i :: tl))).
      apply NoDup_cons. split; [|exact Hnd].
      intros Hin. apply (nodes_below _ (_nodes c)) in Hin; [lia|exact Hlt].
    + constructor; [simpl; lia|].
      eapply Forall_impl; [exact Hlt|]. simpl. intros; lia.
    + exists (SourceWord_of {| word := _LOCALS; param := p_offset 0 |} None
                             (_nodes c) :: pre), ph.
      rewrite E. split; [reflexivity|exact Hph].
Qed.

Lemma perform_WellFormed (disassemble : Z -> list (WordRef Value))
    (k : Call Value) c c' :
  WellFormed c -> perform disassemble k c = ok c' ->
  WellFormed c' /\ _name c' = _name c.
Proof.
  intros Hwf.
  assert (Hadd : forall r source c0 c1,
             WellFormed c0 -> _name c0 = _name c ->
             snd <$> add r source c0 = ok c1 ->
             WellFormed c1 /\ _name c1 = _name c).
  { intros r source c0 c1 Hwf0 Hn0.
    destruct (add r source c0) as [[i c2]| | | |] eqn:Ea; simpl;
      try discriminate.
    intros [= <-]. destruct (add_WellFormed _ _ _ _ _ Hwf0 Ea) as (? & ? & _).
    split; [assumption|congruence]. }
  destruct k as [r source|w sourcePos|w n sourcePos|v sourcePos
                |stackOffset sourcePos|stackOffset sourcePos|type| |pos|src
                |identifier branch|matching|values]; simpl.
  - apply Hadd; [exact Hwf|reflexivity].
  - rewrite add_word_eq.
    destruct (isMagic w); [destruct (name w); discriminate|].
    destruct (assert _) as [[]| | | |]; simpl; try discriminate.
    destruct (hasFlag w Inline); [|apply Hadd; [exact Hwf|reflexivity]].
    unfold addInline. destruct (instruction w) as [op|a];
      [apply Hadd; [exact Hwf|reflexivity]|].
    destruct (back c) as [e| | | |]; simpl; try discriminate.
    destruct (addInline_loop _ _ _) as [c1| | | |] eqn:El; simpl;
      try discriminate.
    intros [= <-]. eapply addInline_loop_WellFormed; eassumption.
  - unfold add_word_param. destruct (assert _) as [[]| | | |]; simpl; try discriminate.
    destruct (hasIntParam w); apply Hadd; first [exact Hwf|reflexivity].
  - unfold addLiteral. destruct (v_int16 v);
      apply Hadd; first [exact Hwf|reflexivity].
  - unfold addGetArg, assert.
    destruct (1 - _ <=? _); simpl; try discriminate.
    destruct (_ <=? _); simpl; try discriminate.
    apply Hadd; [exact Hwf|reflexivity].
  - apply Hadd; [exact Hwf|reflexivity].
  - intros [= <-]. apply reserveLocalVariable_WellFormed, Hwf.
  - unfold addRecurse.
    destruct (add _ None c) as [[i c1]| | | |] eqn:Ea; simpl; try discriminate.
    destruct (add_WellFormed _ _ _ _ _ Hwf Ea) as (Hwf1 & Hn1 & _).
    destruct (begin c1) as [b| | | |]; simpl; try discriminate.
    intros [= <-]. destruct (branchesTo_WellFormed c1 i b Hwf1).
    split; [assumption|congruence].
  - unfold addBranchBackTo.
    destruct (add _ None c) as [[i c1]| | | |] eqn:Ea; simpl; try discriminate.
    destruct (add_WellFormed _ _ _ _ _ Hwf Ea) as (Hwf1 & Hn1 & _).
    intros [= <-]. destruct (branchesTo_WellFormed c1 i pos Hwf1).
    split; [assumption|congruence].
  - unfold fixBranch. destruct (back c) as [e| | | |]; simpl; try discriminate.
    intros [= <-]. apply branchesTo_WellFormed, Hwf.
  - unfold pushBranch. destruct branch as [b|].
    + destruct (add _ _ c) as [[i c1]| | | |] eqn:Ea; simpl; try discriminate.
      destruct (add_WellFormed _ _ _ _ _ Hwf Ea) as (Hwf1 & Hn1 & _).
      intros [= <-]. split; [exact Hwf1|exact Hn1].
    + destruct (back c) as [e| | | |]; simpl; try discriminate.
      intros [= <-]. split; [exact Hwf|reflexivity].
  - unfold popBranch. destruct (last (_controlStack c)) as [ctrl|];
      [|discriminate].
    destruct (strchr matching ctrl.1); [|discriminate].
    simpl. intros [= <-]. split; [exact Hwf|reflexivity].
  - intros [= <-]. split; [exact Hwf|reflexivity].
Qed.

Lemma Compiler_new_WellFormed (nm : string) :
  WellFormed (Compiler_new (Value:=Value) nm).
Proof.
  split; [|split].
  - simpl. apply NoDup_singleton.
  - constructor; [simpl; lia|constructor].
  - exists [], (SourceWord_of (WordRef_of NOP) None 0%nat).
    split; reflexivity.
Qed.

Lemma performAll_WellFormed (disassemble : Z -> list (WordRef Value))
    (calls : list (Call Value)) c c' :
  WellFormed c -> performAll disassemble calls c = ok c' ->
  WellFormed c' /\ _name c' = _name c.
Proof.
  revert c. induction calls as [|k calls IH]; intros c Hwf; simpl.
  - intros [= <-]. split; [exact Hwf|reflexivity].
  - destruct (perform disassemble k c) as [c1| | | |] eqn:Ek; simpl;
      try discriminate.
    destruct (perform_WellFormed _ _ _ _ Hwf Ek) as [Hwf1 Hn1].
    intros Hr. destruct (IH _ Hwf1 Hr). split; [assumption|congruence].
Qed.

Lemma addDropArgs_WellFormed c c1 :
  WellFormed c -> addDropArgs c = ok c1 ->
  WellFormed c1 /\ _name c1 = _name c.
Proof.
  intros Hwf. unfold addDropArgs.
  destruct (_ || _); [|intros [= <-]; split; [exact Hwf|reflexivity]].
  destruct (0 <? _); [|intros [= <-]; split; [exact Hwf|reflexivity]].
  destruct (add _ None c) as [[i c2]| | | |] eqn:Ea; simpl; try discriminate.
  intros [= <-]. destruct (add_WellFormed _ _ _ _ _ Hwf Ea) as (? & ? & _).
  split; assumption.
Qed.

Lemma addDropArgs_total c : WellFormed c -> exists c1, addDropArgs c = ok c1.
Proof.
  intros Hwf. unfold addDropArgs.
  destruct (_ || _); [|eexists; reflexivity].
  destruct (0 <? _); [|eexists; reflexivity].
  destruct (add_total c {| word := _DROPARGS;
                           param := p_drop (dropLocals c) (dropResults c) |}
                      None Hwf) as (i & c1 & ->).
  eexists. reflexivity.
Qed.

(** On a well-formed list the assertion of [generateInstructions] holds,
    and the [_RETURN] takes the node of the placeholder. *)
Lemma addReturn_spec c :
  WellFormed c ->
  exists pre ph,
    _words c = pre ++ [ph] /\ (node ph ∉ map node pre)
    /\ addReturn c
       = ok (with_words
               (pre ++ [SourceWord_of (WordRef_of _RETURN) None (node ph)])
               (_nodes c) c).
Proof.
  intros Hwf. destruct (wellFormed_last _ _ Hwf) as (pre & ph & E & Hph & Hn & Hl).
  exists pre, ph. repeat split; try assumption.
  unfold addReturn. rewrite Hl. unfold is_word. rewrite Hph. simpl.
  rewrite E, assign_last by exact Hn. reflexivity.
Qed.

Lemma epilogue_spec c :
  WellFormed c ->
  exists c2, epilogue c = ok c2 /\ NoDup (map node (_words c2))
             /\ _name c2 = _name c.
Proof.
  intros Hwf. unfold epilogue.
  destruct (addDropArgs_total c Hwf) as (c1 & E1). rewrite E1. simpl.
  destruct (addDropArgs_WellFormed _ _ Hwf E1) as [Hwf1 Hn1].
  destruct (addReturn_spec c1 Hwf1) as (pre & ph & E & Hn & ->).
  eexists. split; [reflexivity|]. simpl. split; [|exact Hn1].
  destruct Hwf1 as (Hnd & _). rewrite E in Hnd.
  rewrite map_app in *. exact Hnd.
Qed.

(** X10.  The calls a front end can make on a compiler, in any number and
    order and with any arguments, keep the word list in shape when they
    return: its nodes are distinct, and its last entry is the [NOP]
    placeholder.  So the assertion [_words.back().word == &NOP] of
    [generateInstructions] holds, the epilogue goes through, and the loops
    after it work on a list without two entries at the same position. *)
Theorem calls_keep_word_list_in_shape
    (disassemble : Z -> list (WordRef Value)) (calls : list (Call Value))
    (nm : string) c :
  performAll disassemble calls (Compiler_new nm) = ok c ->
  WellFormed c
  /\ (exists ph, last (_words c) = Some ph
                 /\ is_word (word (ref ph)) Opcode.NOP = true)
  /\ _name c = nm
  /\ exists c2, epilogue c = ok c2 /\ NoDup (map node (_words c2)).
Proof.
  intros Hr.
  destruct (performAll_WellFormed _ _ _ _ (Compiler_new_WellFormed nm) Hr)
    as [Hwf Hn].
  split; [exact Hwf|]. split; [|split; [exact Hn|]].
  - destruct (wellFormed_last _ _ Hwf) as (pre & ph & _ & Hph & _ & Hl).
    exists ph. split; [exact Hl|]. unfold is_word. rewrite Hph. reflexivity.
  - destruct (epilogue_spec c Hwf) as (c2 & E & Hnd & _).
    exists c2. split; assumption.
Qed.

End WellFormedFacts.

Lemma calls_keep_word_list_in_shape_witness :
  exists c,
    performAll no_inline
      [do_addLiteral (Number 1%float) None;
       do_pushBranch "i"%char (Some _ZBRANCH);
       do_reserveLocalVariable AnyType;
       do_addRecurse]
      (Compiler_new "W") = ok c
    /\ _name c = "W".
Proof.
  destruct (performAll no_inline
              [do_addLiteral (Number 1%float) None;
               do_pushBranch "i"%char (Some _ZBRANCH);
               do_reserveLocalVariable AnyType;
               do_addRecurse]
              (Compiler_new "W")) as [c| | | |] eqn:E;
    try (vm_compute in E; discriminate E).
  exists c. split; [reflexivity|].
  apply (calls_keep_word_list_in_shape no_inline _ "W" c E).
Defined.

(** ** The calls of the control-flow words *)

Section ProtocolFacts.

Context {Value : Type} `{ValueOps Value}.

Implicit Types (ws pre : list (SourceWord Value)) (c : Compiler Value).

Lemma deref_app_l ws1 ws2 (pos : InstructionPos) (i : SourceWord Value) :
  deref ws1 pos = Some i -> deref (ws1 ++ ws2) pos = Some i.
Proof.
  induction ws1 as [|j ws1 IH]; simpl; [discriminate|].
  destruct (Nat.eqb (node j) pos); [tauto|exact IH].
Qed.

Lemma deref_notin ws (pos : InstructionPos) :
  pos ∉ map node ws -> deref ws pos = None.
Proof.
  induction ws as [|j ws IH]; simpl; intros Hn; [reflexivity|].
  rewrite not_elem_of_cons in Hn. destruct Hn as [Hne Hn].
  destruct (Nat.eqb_spec (node j) pos) as [E|_]; [congruence|].
  apply IH, Hn.
Qed.

Lemma deref_snoc_ne pre (ph i : SourceWord Value) (pos : InstructionPos) :
  deref (pre ++ [ph]) pos = Some i -> pos <> node ph ->
  deref pre pos = Some i.
Proof.
  induction pre as [|j pre IH]; simpl.
  - destruct (Nat.eqb_spec (node ph) pos) as [E|_]; [congruence|discriminate].
  - destruct (Nat.eqb (node j) pos); [tauto|exact IH].
Qed.

(** X11.  [fixBranch(src)] followed by the next [add]: the branch at [src]
    targets the entry that [add] fills in and returns, and that entry is
    marked as a branch destination, since [add] writes the flag of the
    placeholder back over the new word.  The word and parameter at [src]
    stay as they were. *)
Theorem fixBranch_targets_next_add c (src : InstructionPos)
    (s : SourceWord Value) (r : WordRef Value) (source : option Z)
    c1 (pos : InstructionPos) c2 :
  WellFormed c ->
  deref (_words c) src = Some s ->
  back c <> ok src ->
  fixBranch src c = ok c1 ->
  add r source c1 = ok (pos, c2) ->
  back c = ok pos
  /\ (exists s', deref (_words c2) src = Some s'
                 /\ branchTo s' = Some pos /\ ref s' = ref s)
  /\ (exists e, deref (_words c2) pos = Some e
                /\ ref e = r /\ sourceCode e = source
                /\ isBranchDestination e = true)
  /\ exists ph, last (_words c2) = Some ph
                /\ isBranchDestination ph = false.
Proof.
  intros Hwf Es Hne Hfix Hadd.
  destruct (wellFormed_last _ _ Hwf) as (pre & ph & E & Hph & Hn & Hl).
  assert (Hb : back c = ok (node ph)) by (unfold back; rewrite Hl; reflexivity).
  assert (Hsrc : src <> node ph) by (intros ->; apply Hne, Hb).
  unfold fixBranch in Hfix. rewrite Hb in Hfix. simpl in Hfix.
  injection Hfix as <-.
  assert (Ew1 : _words (branchesTo src (node ph) c)
                = assign src (set_branchTo (Some (node ph))) pre
                  ++ [set_isBranchDestination true ph]).
  { unfold branchesTo. simpl. rewrite E, assign_app.
    rewrite (assign_notin src _ [ph])
      by (simpl; rewrite list_elem_of_singleton; congruence).
    apply (assign_last _ ph).
    rewrite assign_nodes by reflexivity. exact Hn. }
  unfold add in Hadd. rewrite Ew1, last_snoc in Hadd.
  injection Hadd as <- <-. simpl.
  change (node (set_isBranchDestination true ph)) with (node ph).
  rewrite (assign_last _ (set_isBranchDestination true ph))
    by (simpl; rewrite assign_nodes by reflexivity; exact Hn).
  rewrite E in Es. apply deref_snoc_ne in Es; [|exact Hsrc].
  split; [exact Hb|]. split; [|split].
  - exists (set_branchTo (Some (node ph)) s).
    split; [|split; reflexivity].
    rewrite <- app_assoc. apply deref_app_l.
    apply deref_assign_eq; [reflexivity|exact Es].
  - eexists. split.
    + rewrite <- app_assoc, deref_app_notin
        by (rewrite assign_nodes by reflexivity; exact Hn).
      simpl. rewrite Nat.eqb_refl. reflexivity.
    + repeat split.
  - eexists. split; [apply last_snoc|reflexivity].
Qed.


(** X13.  [reserveLocalVariable] returns the number of locals after the
    reservation, the new type is the last of [_localsTypes], and the word
    list begins with one [_LOCALS] entry whose parameter is that number;
    the entries after it are the ones the list had (all of them when the
    [_LOCALS] entry is new). *)
Theorem reserveLocalVariable_counts (type : TypeSet) c :
  WellFormed c ->
  (reserveLocalVariable type c).1 = Z.of_nat (length (_localsTypes c)) + 1
  /\ _localsTypes (reserveLocalVariable type c).2 = _localsTypes c ++ [type]
  /\ exists l rest,
       _words (reserveLocalVariable type c).2 = l :: rest
       /\ is_word (word (ref l)) Opcode._LOCALS = true
       /\ param (ref l) = p_offset (reserveLocalVariable type c).1
       /\ (rest = _words c
           \/ exists l0, _words c = l0 :: rest
                         /\ is_word (word (ref l0)) Opcode._LOCALS = true
                         /\ node l = node l0).
Proof.
  intros Hwf. unfold reserveLocalVariable.
  destruct (_words c) as [|i tl] eqn:Ew.
  { destruct Hwf as (_ & _ & pre & ph & E & _). rewrite Ew in E.
    destruct pre; discriminate E. }
  unfold WellFormed in Hwf. rewrite Ew in Hwf.
  destruct Hwf as (Hnd & Hlt & _).
  destruct (is_word (word (ref i)) Opcode._LOCALS) eqn:Ei; cbn -[assign];
    (split; [rewrite length_app; simpl; lia|]); (split; [reflexivity|]).
  - change (i :: tl) with ([] ++ i :: tl).
    rewrite assign_middle; [| apply not_elem_of_nil | | reflexivity].
    + eexists _, _. split; [reflexivity|]. split; [exact Ei|].
      split; [reflexivity|]. right. exists i. repeat split. exact Ei.
    + simpl in Hnd. apply NoDup_cons in Hnd as [Hn _]. exact Hn.
  - match goal with
    | |- context [assign ?p ?f (?x :: i :: tl)] =>
        change (x :: i :: tl) with ([] ++ x :: i :: tl);
        rewrite (assign_middle p f [] x (i :: tl))
    end; [| apply not_elem_of_nil | | reflexivity].
    + eexists _, _. split; [reflexivity|]. split; [reflexivity|].
      split; [reflexivity|]. left. reflexivity.
    + intros Hin. apply (nodes_below _ (_nodes c)) in Hin; [lia|exact Hlt].
Qed.

(** X14.  The loop of [addInline] adds the words of the array it
    disassembles up to the first [_RETURN], with the source position it
    was given, and reads nothing after it; an array without a [_RETURN] is
    read past its end. *)
Theorem addInline_loop_reads_to_RETURN (refs rest : list (WordRef Value))
    (ret : WordRef Value) (source : option Z) c :
  Forall (fun r => is_word (word r) Opcode._RETURN = false) refs ->
  (is_word (word ret) Opcode._RETURN = true ->
   addInline_loop (refs ++ ret :: rest) source c = addAll refs source c)
  /\ addInline_loop refs source c = undefined_behaviour.
Proof.
  intros Hrefs. revert c.
  induction Hrefs as [|r refs Hr Hrefs IH]; intros c; simpl.
  - split; [|reflexivity]. intros ->. reflexivity.
  - rewrite Hr. unfold add.
    destruct (last (_words c)) as [i|]; simpl; [apply IH|].
    split; reflexivity.
Qed.

End ProtocolFacts.

Lemma fixBranch_targets_next_add_witness :
  back one_branch_compiler = ok 1%nat.
Proof.
  pose proof (fun s c1 pos c2 =>
                fixBranch_targets_next_add one_branch_compiler 0%nat s
                  (WordRef_of DUP) None c1 pos c2) as T.
  edestruct T as (Hb & _).
  - split; [|split].
    + apply (bool_decide_unpack _). vm_compute. exact I.
    + repeat constructor.
    + eexists [_], _. split; reflexivity.
  - vm_compute; reflexivity.
  - vm_compute. discriminate.
  - vm_compute; reflexivity.
  - vm_compute; reflexivity.
  - exact Hb.
Defined.


Lemma reserveLocalVariable_counts_witness :
  (reserveLocalVariable AnyType one_local_compiler).1 = 2.
Proof.
  refine (eq_trans
            (proj1 (reserveLocalVariable_counts AnyType one_local_compiler _))
            _); [|reflexivity].
  split; [|split].
  - apply (bool_decide_unpack _). vm_compute. exact I.
  - repeat constructor.
  - eexists [_], _. split; reflexivity.
Defined.

Lemma addInline_loop_reads_to_RETURN_witness :
  addInline_loop
    [WordRef_of DUP; WordRef_of MULT; WordRef_of _RETURN; WordRef_of DROP]
    None (Compiler_new (Value:=Value) "")
  = addAll [WordRef_of DUP; WordRef_of MULT] None (Compiler_new "").
Proof.
  apply (addInline_loop_reads_to_RETURN
           [WordRef_of DUP; WordRef_of MULT] [WordRef_of DROP]
           (WordRef_of _RETURN) None (Compiler_new "")).
  - repeat constructor.
  - reflexivity.
Defined.

(** ** Compilation units and the vocabulary *)

Section UnitFacts.

Context {Value : Type} `{ValueOps Value}.

Implicit Types (c : Compiler Value).

Lemma generateInstructions_name
    (computeEffect : Compiler Value -> Throws StackEffect)
    c (instrs : list (Cell Value)) c' :
  generateInstructions computeEffect c = ok (instrs, c') -> _name c' = _name c.
Proof.
  unfold generateInstructions. intros G.
  destruct (checkControlStack c); simpl in G; try discriminate G.
  destruct (epilogue c) as [c2| | | |] eqn:E2; simpl in G; try discriminate G.
  destruct (computeEffect c2); simpl in G; try discriminate G.
  destruct (assignPCs _ _); simpl in G; try discriminate G.
  destruct (assemble _ _); simpl in G; try discriminate G.
  injection G as _ <-. simpl.
  unfold epilogue in E2.
  destruct (addDropArgs c) as [c1| | | |] eqn:E1; simpl in E2;
    try discriminate E2.
  assert (H1 : _name c1 = _name c).
  { unfold addDropArgs in E1.
    destruct (_ || _); [|injection E1 as <-; reflexivity].
    destruct (0 <? _); [|injection E1 as <-; reflexivity].
    unfold add in E1. destruct (last (_words c)); simpl in E1;
      try discriminate E1.
    injection E1 as <-. reflexivity. }
  unfold addReturn in E2. destruct (last (_words c1)); try discriminate E2.
  unfold assert in E2. destruct (is_word _ _); simpl in E2;
    try discriminate E2.
  injection E2 as <-. simpl. exact H1.
Qed.

Lemma addAll_name (refs : list (WordRef Value)) (source : option Z) c c' :
  addAll refs source c = ok c' -> _name c' = _name c.
Proof.
  revert c. induction refs as [|r refs IH]; intros c; simpl.
  - intros [= <-]. reflexivity.
  - unfold add. destruct (last (_words c)); simpl; [|discriminate].
    intros Hr. rewrite (IH _ Hr). reflexivity.
Qed.

(** What a call of [finish()] does to the vocabulary, by the name of the
    compiler. *)
Lemma finish_vocabulary
    (computeEffect : Compiler Value -> Throws StackEffect)
    c (addr : Z) (vocab : gmap string Word) :
  (toupper (_name c) = "" -> (finish computeEffect c addr vocab).2 = vocab)
  /\ (forall k, k <> toupper (_name c) ->
      (finish computeEffect c addr vocab).2 !! k = vocab !! k)
  /\ (forall cw, (finish computeEffect c addr vocab).1 = ok cw ->
      _nameStr cw = toupper (_name c)
      /\ instruction (toWord cw) = interpreted addr).
Proof.
  unfold finish, CompiledWord_compile.
  destruct (generateInstructions computeEffect c) as [[instrs c']| | | |] eqn:G;
    simpl; try (repeat split; intros; first [reflexivity | discriminate]).
  rewrite (generateInstructions_name _ _ _ _ G).
  destruct (Z.land _ _ =? 0); simpl.
  - split; [|split].
    + intros He. rewrite bool_decide_eq_true_2 by exact He. reflexivity.
    + intros k Hk. destruct (bool_decide (toupper (_name c) = ""));
        [reflexivity|].
      unfold Vocabulary_add. simpl. apply lookup_insert_ne. congruence.
    + intros cw [= <-]. split; reflexivity.
  - split; [|split].
    + intros He. rewrite bool_decide_eq_true_2 by exact He. reflexivity.
    + intros k Hk. destruct (bool_decide (toupper (_name c) = ""));
        [reflexivity|].
      unfold Vocabulary_add. simpl. apply lookup_insert_ne. congruence.
    + intros cw [=].
Qed.

(** X15.  A compilation unit changes the vocabulary at one name at most,
    the upper-cased name of its compiler, whatever calls the front end
    makes and whether the unit succeeds or not; a unit without a name,
    as [Compiler::compile] makes, leaves the vocabulary as it was.  The
    word of a unit that succeeds carries the upper-cased name and points
    at its own instructions. *)
Theorem compile_unit_touches_one_name
    (computeEffect : Compiler Value -> Throws StackEffect)
    (disassemble : Z -> list (WordRef Value)) (nm : string)
    (calls : list (Call Value)) (words : list (WordRef Value))
    (addr : Z) (vocab : gmap string Word) :
  (toupper nm = "" ->
   (compileUnit computeEffect nm (performAll disassemble calls) addr vocab).2
   = vocab)
  /\ (forall k, k <> toupper nm ->
      (compileUnit computeEffect nm (performAll disassemble calls)
                   addr vocab).2 !! k
      = vocab !! k)
  /\ (forall cw,
      (compileUnit computeEffect nm (performAll disassemble calls)
                   addr vocab).1 = ok cw ->
      _nameStr cw = toupper nm /\ instruction (toWord cw) = interpreted addr)
  /\ (Compiler_compile computeEffect words addr vocab).2 = vocab.
Proof.
  assert (Hu : forall build,
             (forall c, build (Compiler_new nm) = ok c -> _name c = nm) ->
             (toupper nm = "" ->
              (compileUnit computeEffect nm build addr vocab).2 = vocab)
             /\ (forall k, k <> toupper nm ->
                 (compileUnit computeEffect nm build addr vocab).2 !! k
                 = vocab !! k)
             /\ (forall cw,
                 (compileUnit computeEffect nm build addr vocab).1 = ok cw ->
                 _nameStr cw = toupper nm
                 /\ instruction (toWord cw) = interpreted addr)).
  { intros build Hb. unfold compileUnit.
    destruct (build (Compiler_new nm)) as [c| | | |] eqn:E; simpl;
      try (repeat split; intros; first [reflexivity | discriminate]).
    pose proof (finish_vocabulary computeEffect c addr vocab) as Hf.
    rewrite (Hb c eq_refl) in Hf. exact Hf. }
  destruct (Hu (performAll disassemble calls)) as (H1 & H2 & H3).
  { intros c Hc.
    destruct (performAll_WellFormed _ _ _ _ (Compiler_new_WellFormed nm) Hc)
      as [_ Hn]. exact Hn. }
  split; [exact H1|]. split; [exact H2|]. split; [exact H3|].
  unfold Compiler_compile, compileUnit.
  destruct (addAll words None (Compiler_new "")) as [c| | | |] eqn:E;
    try reflexivity.
  apply finish_vocabulary. rewrite (addAll_name _ _ _ _ E). reflexivity.
Qed.

End UnitFacts.

(** ** Words without control flow *)

Section StraightLineFacts.

Context {Value : Type} `{ValueOps Value}.

Implicit Types (ws pre : list (SourceWord Value)) (c : Compiler Value).

Lemma entries_ref (refs : list (WordRef Value)) (source : option Z) (n : nat) :
  map ref (entries refs source n) = refs.
Proof.
  revert n. induction refs as [|r refs IH]; intros n; simpl; [reflexivity|].
  rewrite IH. reflexivity.
Qed.

Lemma entries_nodes (refs : list (WordRef Value)) (source : option Z) (n : nat) :
  map node (entries refs source n) = seq n (length refs).
Proof.
  revert n. induction refs as [|r refs IH]; intros n; simpl; [reflexivity|].
  rewrite IH. reflexivity.
Qed.

Lemma entries_branchTo (refs : list (WordRef Value)) (source : option Z)
    (n : nat) :
  Forall (fun i => branchTo i = None) (entries refs source n).
Proof.
  revert n. induction refs as [|r refs IH]; intros n; simpl; constructor;
    [reflexivity|apply IH].
Qed.

(** The adds of [Compiler::compile] on a list that ends with the
    placeholder in the newest node. *)
Lemma addAll_spec (refs : list (WordRef Value)) (source : option Z) :
  forall c pre (n : nat),
  _words c = pre ++ [SourceWord_of (WordRef_of NOP) None n] ->
  _nodes c = S n ->
  Forall (fun i => (node i < n)%nat) pre ->
  addAll refs source c
  = ok (with_words
          (pre ++ entries refs source n
               ++ [SourceWord_of (WordRef_of NOP) None (n + length refs)%nat])
          (S (n + length refs)) c).
Proof.
  induction refs as [|r refs IH]; intros c pre n Ew En Hlt; simpl.
  - rewrite Nat.add_0_r. destruct c; simpl in *. subst. reflexivity.
  - assert (Hn : n ∉ map node pre).
    { intros Hin. apply (nodes_below _ n) in Hin; [lia|exact Hlt]. }
    unfold add. rewrite Ew, last_snoc. simpl.
    change n with (node (SourceWord_of (Value:=Value) (WordRef_of NOP) None n))
      at 1.
    rewrite assign_last by exact Hn.
    rewrite (IH _ (pre ++ [SourceWord_of r source n]) (S n)).
    + simpl. rewrite <- !app_assoc, Nat.add_succ_r. reflexivity.
    + simpl. rewrite En. reflexivity.
    + simpl. rewrite En. reflexivity.
    + apply Forall_app. split.
      * eapply Forall_impl; [exact Hlt|]. simpl. intros; lia.
      * constructor; [simpl; lia|constructor].
Qed.

Lemma assignLoop_straight (rest : list (SourceWord Value)) :
  forall (g : Generation Value) done,
  g_words g = done ++ rest ->
  NoDup (map node (done ++ rest)) ->
  straightLine rest ->
  afterBranch g = false ->
  exists g' rest',
    assignLoop g (map node rest) = ok g'
    /\ g_flags g' = g_flags g
    /\ g_words g' = done ++ rest'
    /\ map ref rest' = map ref rest
    /\ Forall (fun i => branchTo i = None) rest'.
Proof.
  induction rest as [|r rest IH]; intros g done Hws Hnd Hst Hab; simpl.
  - exists g, []. repeat split; [exact Hws|constructor].
  - inversion Hst as [|? ? (Hbt & Hb & Hr) Hst']; subst.
    destruct (NoDup_middle _ _ _ Hnd) as [Hn1 Hn2].
    unfold assignStep. rewrite Hws, deref_app_notin by exact Hn1.
    simpl deref. rewrite Nat.eqb_refl, Hab, Hr, Hbt. simpl.
    rewrite !assign_middle by (assumption || reflexivity).
    rewrite Hb.
    match goal with
    | |- context [assignLoop ?g1 _] =>
        destruct (IH g1 (done ++ [set_pc (codeSize g)
                                    (set_word (word (ref r)) r)]))
          as (g' & rest' & El & Hfl & Hw' & Hrefs & Hbr)
    end.
    + simpl. rewrite <- app_assoc. reflexivity.
    + rewrite <- app_assoc. simpl. rewrite map_app in *. exact Hnd.
    + exact Hst'.
    + reflexivity.
    + exists g', (set_pc (codeSize g) (set_word (word (ref r)) r) :: rest').
      split; [exact El|]. split; [exact Hfl|].
      split; [rewrite Hw', <- app_assoc; reflexivity|]. split.
      * simpl. rewrite Hrefs. f_equal. destruct r as [? [? ?] ? ? ? ?].
        reflexivity.
      * constructor; [exact Hbt|exact Hbr].
Qed.

Lemma assemble_straight ws (todo : list (SourceWord Value)) :
  Forall (fun i => branchTo i = None) todo ->
  assemble ws todo = ok (assembleRefs (map ref todo)).
Proof.
  induction 1 as [|i todo Hi _ IH]; simpl; [reflexivity|].
  unfold branchOffset. rewrite Hi, IH. reflexivity.
Qed.

(** Code generation for the words of [Compiler::compile]. *)
Lemma generate_straight
    (computeEffect : Compiler Value -> Throws StackEffect)
    (refs : list (WordRef Value)) (e : StackEffect) :
  Forall (fun r => is_word (word r) Opcode._BRANCH = false
                   /\ is_word (word r) Opcode._RECURSE = false) refs ->
  computeEffect (compiled_straight refs) = ok e ->
  (c ← addAll refs None (Compiler_new "");
   epilogue c) = ok (compiled_straight refs)
  /\ exists c3,
       (c ← addAll refs None (Compiler_new "");
        generateInstructions computeEffect c)
       = ok (assembleRefs refs ++ [C_op Opcode._RETURN], c3)
       /\ _name c3 = "" /\ _flags c3 = NoFlags /\ _effect c3 = e.
Proof.
  intros Hrefs He.
  rewrite (addAll_spec refs None (Compiler_new "") [] 0%nat)
    by (reflexivity || constructor).
  simpl mbind.
  assert (Hep : epilogue
                  (with_words
                     ([] ++ entries refs None 0
                         ++ [SourceWord_of (WordRef_of NOP) None
                                           (0 + length refs)%nat])
                     (S (0 + length refs)) (Compiler_new ""))
                = ok (compiled_straight refs)).
  { unfold epilogue, addDropArgs. simpl. unfold addReturn. simpl.
    rewrite last_snoc. simpl.
    change (length refs)
      with (node (SourceWord_of (Value:=Value) (WordRef_of NOP) None
                                (length refs))) at 1.
    rewrite assign_last; [reflexivity|].
    rewrite entries_nodes. simpl. rewrite list_elem_of_In, in_seq. lia. }
  simpl in Hep. split; [exact Hep|].
  unfold generateInstructions. simpl mbind. rewrite Hep.
  simpl mbind. rewrite He. simpl mbind.
  assert (Hnd : NoDup (map node (entries refs None 0
                                   ++ [SourceWord_of (Value:=Value)
                                         (WordRef_of _RETURN) None
                                         (length refs)]))).
  { rewrite map_app, entries_nodes. simpl.
    change [length refs] with (seq (0 + length refs) 1).
    rewrite <- seq_app. apply NoDup_ListNoDup, seq_NoDup. }
  destruct (assignLoop_straight
              (entries refs None 0
                 ++ [SourceWord_of (WordRef_of _RETURN) None (length refs)])
              {| g_words := entries refs None 0
                   ++ [SourceWord_of (WordRef_of _RETURN) None (length refs)];
                 g_flags := NoFlags; afterBranch := false; codeSize := 0 |}
              [] eq_refl Hnd)
    as (g' & rest' & El & Hfl & Hw' & Hr' & Hbr); [|reflexivity|].
  { apply Forall_app. split.
    - clear He Hep Hnd. generalize 0%nat.
      induction Hrefs as [|r refs [Hb Hr] _ IH]; intros n; simpl;
        constructor; [|apply IH].
      repeat split; assumption.
    - constructor; [|constructor]. repeat split. }
  unfold assignPCs. simpl. rewrite El. simpl.
  simpl in Hw'. rewrite Hw', (assemble_straight _ _ Hbr), Hr'. simpl.
  eexists. split.
  - rewrite map_app, entries_ref. unfold assembleRefs.
    rewrite flat_map_app. reflexivity.
  - split; [reflexivity|]. split; [exact Hfl|reflexivity].
Qed.

(** X16.  [Compiler::compile(words)] of words among which none is a
    [_BRANCH] or a [_RECURSE], when the stack checker accepts them:
    the checker sees the words followed by [_RETURN]; the instructions of
    the compiled word are the cells of the words, in order, followed by
    [_RETURN]; the word has no name and no flags, its effect is the one
    the checker computed, and the vocabulary is left as it was. *)
Theorem compile_straight_line
    (computeEffect : Compiler Value -> Throws StackEffect)
    (refs : list (WordRef Value)) (e : StackEffect) (addr : Z)
    (vocab : gmap string Word) :
  Forall (fun r => is_word (word r) Opcode._BRANCH = false
                   /\ is_word (word r) Opcode._RECURSE = false) refs ->
  computeEffect (compiled_straight refs) = ok e ->
  (c ← addAll refs None (Compiler_new "");
   epilogue c) = ok (compiled_straight refs)
  /\ Compiler_compile computeEffect refs addr vocab
     = (ok {| toWord := {| instruction := interpreted addr; name := None;
                           stackEffect := e; flags := NoFlags |};
              _nameStr := "";
              _instrs := assembleRefs refs ++ [C_op Opcode._RETURN] |},
        vocab).
Proof.
  intros Hrefs He.
  destruct (generate_straight computeEffect refs e Hrefs He)
    as (Hep & c3 & Hg & Hn & Hf & Hef).
  split; [exact Hep|].
  unfold Compiler_compile, compileUnit, finish, CompiledWord_compile.
  destruct (addAll refs None (Compiler_new "")) as [c| | | |];
    simpl in Hg; try discriminate Hg.
  rewrite Hg, Hn, Hf, Hef. reflexivity.
Qed.

(** The native words of [stackWords]: each has a handler, takes no inline
    parameter, reads neither the code nor the pc, and ends with [NEXT()]
    at the pc it was given, on a stack or below the empty one, or has
    undefined behaviour. *)
Lemma stackWords_handlers :
  Forall (fun w =>
            exists op f,
              instruction w = native op /\ hasAnyParam w = false
              /\ handler op = Some f
              /\ is_word w Opcode._BRANCH = false
              /\ is_word w Opcode._RECURSE = false
              /\ forall (code : list (Cell Value)) sp pc,
                   f code sp pc
                   = match f [] sp 0 with
                     | NEXT sp' _ => NEXT sp' pc
                     | UNDERFLOWS _ => UNDERFLOWS pc
                     | _ => UNDEFINED
                     end)
         stackWords.
Proof.
  unfold stackWords.
  repeat apply List.Forall_cons; try apply List.Forall_nil;
    (eexists _, _; split; [reflexivity|]; split; [reflexivity|];
     split; [reflexivity|]; split; [reflexivity|]; split; [reflexivity|];
     intros code [|a [|b [|d sp]]] pc; reflexivity).
Qed.

Lemma dispatch_stackWords (words : list Word) :
  Forall (fun w => w ∈ stackWords) words ->
  forall (mem : gmap Z (list (Cell Value))) (k : nat)
         (before after : list (Cell Value)) (sp : Stack Value),
  dispatch (length words + k) mem
           (before ++ assembleRefs (map WordRef_of words) ++ after)
           (Z.of_nat (length before)) sp
  = match applyWords words sp with
    | Returned sp' =>
        dispatch k mem
                 (before ++ assembleRefs (map WordRef_of words) ++ after)
                 (Z.of_nat (length before + length words)) sp'
    | other => other
    end.
Proof.
  induction 1 as [|w words Hw _ IH]; intros mem k before after sp.
  - simpl. rewrite Nat.add_0_r. reflexivity.
  - pose proof stackWords_handlers as Hall.
    rewrite Forall_forall in Hall.
    destruct (Hall w Hw) as (op & f & Ei & Hp & Hh & _ & _ & Hf).
    assert (Ec : assembleRefs (map (WordRef_of (Value:=Value)) (w :: words))
                 = C_op op :: assembleRefs (map WordRef_of words)).
    { unfold assembleRefs. simpl. unfold Assembler_add. rewrite Ei, Hp.
      reflexivity. }
    rewrite Ec. simpl length. simpl dispatch.
    rewrite fetch_app, Hh. unfold applyWords; fold (applyWords (Value:=Value)).
    unfold Word_handler. rewrite Ei, Hh, (Hf _ sp (Z.of_nat (length before) + 1)).
    destruct (f [] sp 0) as [sp' pc'| | | |]; try reflexivity.
    specialize (IH mem k (before ++ [C_op op]) after sp').
    rewrite <- !app_assoc in IH. simpl in IH.
    rewrite length_app in IH. simpl in IH.
    replace (Z.of_nat (length before) + 1)
      with (Z.of_nat (length before + 1)) by lia.
    rewrite IH.
    replace (length before + 1 + length words)%nat
      with (length before + S (length words))%nat by lia.
    reflexivity.
Qed.

(** X17.  A word that [Compiler::compile] makes of native words that take
    no parameter and do not transfer control, called on a stack: the
    handlers of the words run in order, each on the stack the one before
    it left, and the word returns the last stack.  When one of them reads
    below the stack the behaviour is undefined; when a [DROP] meets the
    empty stack the run goes on with [sp] below it, where the model stops.
    A bound of the number of words plus one is enough for the run. *)
Theorem compiled_stack_words_run
    (computeEffect : Compiler Value -> Throws StackEffect)
    (words : list Word) (e : StackEffect) (addr : Z)
    (vocab : gmap string Word) (mem : gmap Z (list (Cell Value)))
    (k : nat) (sp : Stack Value) :
  Forall (fun w => w ∈ stackWords) words ->
  computeEffect (compiled_straight (map WordRef_of words)) = ok e ->
  exists cw,
    Compiler_compile computeEffect (map WordRef_of words) addr vocab
    = (ok cw, vocab)
    /\ call (length words + S k) mem (_instrs cw) sp = applyWords words sp
    /\ call (length words) mem (_instrs cw) sp
       = match applyWords words sp with
         | Returned _ => OutOfFuel
         | other => other
         end.
Proof.
  intros Hw He.
  assert (Hrefs : Forall (fun r : WordRef Value =>
                            is_word (word r) Opcode._BRANCH = false
                            /\ is_word (word r) Opcode._RECURSE = false)
                         (map WordRef_of words)).
  { pose proof (stackWords_handlers) as Hall. rewrite Forall_forall in Hall.
    clear He. induction Hw as [|w words Hin _ IH]; simpl; constructor;
      [|exact IH].
    destruct (Hall w Hin) as (op & f & _ & _ & _ & Hb & Hr & _).
    split; assumption. }
  destruct (generate_straight computeEffect _ e Hrefs He)
    as (_ & c3 & Hg & Hn & Hf & Hef).
  eexists. split.
  - unfold Compiler_compile, compileUnit, finish, CompiledWord_compile.
    destruct (addAll _ None (Compiler_new "")) as [c| | | |];
      simpl in Hg; try discriminate Hg.
    rewrite Hg, Hn, Hf, Hef. reflexivity.
  - simpl _instrs. unfold call.
    pose proof (dispatch_stackWords words Hw mem (S k) []
                  [C_op Opcode._RETURN] sp) as D1.
    pose proof (dispatch_stackWords words Hw mem 0%nat []
                  [C_op Opcode._RETURN] sp) as D0.
    simpl app in D1, D0. change (Z.of_nat (length [])) with 0 in D1, D0.
    rewrite Nat.add_0_r in D0.
    split.
    + rewrite D1. destruct (applyWords words sp) as [sp'| | |];
        try reflexivity.
      simpl dispatch.
      pose proof (fetch_app (assembleRefs
                               (map (WordRef_of (Value:=Value)) words)) []
                            (C_op Opcode._RETURN)) as F.
      assert (Hl : length (assembleRefs
                             (map (WordRef_of (Value:=Value)) words))
                   = length words).
      { pose proof (stackWords_handlers) as Hall. rewrite Forall_forall in Hall.
        clear -Hw Hall. induction Hw as [|w words Hin _ IH]; [reflexivity|].
        destruct (Hall w Hin) as (op & f & Ei & Hp & _).
        unfold assembleRefs in *. simpl. unfold Assembler_add at 1.
        rewrite Ei, Hp. simpl. rewrite IH. reflexivity. }
      rewrite Hl in F. simpl length. rewrite F. reflexivity.
    + rewrite D0. destruct (applyWords words sp); reflexivity.
Qed.

End StraightLineFacts.

Lemma compile_straight_line_witness :
  (Compiler_compile (Value:=Value) (fun c => ok (StackEffect_of 1 1 1))
     [WordRef_of DUP; {| word := _INT; param := p_offset 2 |};
      WordRef_of MULT; WordRef_of PLUS]
     0x2000 (Vocabulary_of kWords)).1
  = ok {| toWord := {| instruction := interpreted 0x2000; name := None;
                       stackEffect := StackEffect_of 1 1 1;
                       flags := NoFlags |};
          _nameStr := "";
          _instrs := [C_op Opcode.DUP; C_op Opcode._INT; C_param (p_offset 2);
                      C_op Opcode.MULT; C_op Opcode.PLUS;
                      C_op Opcode._RETURN] |}.
Proof.
  rewrite (proj2 (compile_straight_line (Value:=Value)
                    (fun c => ok (StackEffect_of 1 1 1))
                    [WordRef_of DUP; {| word := _INT; param := p_offset 2 |};
                     WordRef_of MULT; WordRef_of PLUS]
                    (StackEffect_of 1 1 1) 0x2000 (Vocabulary_of kWords)
                    ltac:(repeat constructor) eq_refl)).
  reflexivity.
Defined.

Lemma compiled_stack_words_run_witness :
  exists cw,
    Compiler_compile (Value:=Value) (fun c => ok (StackEffect_of 1 1 1))
      [WordRef_of DUP; WordRef_of MULT] 0x2000 ∅ = (ok cw, ∅)
    /\ call 3 ∅ (_instrs cw) [Number 3%float] = Returned [Number 9%float].
Proof.
  destruct (compiled_stack_words_run (Value:=Value) (fun c => ok (StackEffect_of 1 1 1))
              [DUP; MULT] (StackEffect_of 1 1 1) 0x2000 ∅ ∅ 0%nat
              [Number 3%float])
    as (cw & Hc & Hr & _).
  - repeat constructor.
  - reflexivity.
  - exists cw. split; [exact Hc|]. exact Hr.
Defined.

(** ** The dead-code pass *)

Section DeadCodeFacts.

Context {Value : Type} `{ValueOps Value}.

Implicit Types (ws : list (SourceWord Value)).

Lemma elem_of_map_node ws (i : SourceWord Value) :
  i ∈ ws -> node i ∈ map node ws.
Proof.
  induction 1 as [|? ? ? _ IH]; simpl;
    [apply list_elem_of_here|apply list_elem_of_further, IH].
Qed.

(** One turn of the loop on the first entry not yet visited, by what it
    does to the entry. *)
Lemma assignStep_cases (g g1 : Generation Value) done
    (r : SourceWord Value) rest :
  g_words g = done ++ r :: rest ->
  NoDup (map node (done ++ r :: rest)) ->
  assignStep g (node r) = ok g1 ->
  (afterBranch g = true /\ isBranchDestination r = false
   /\ g_words g1 = done ++ rest /\ afterBranch g1 = true)
  \/ ((afterBranch g = false \/ isBranchDestination r = true)
      /\ exists r',
           g_words g1 = done ++ r' :: rest
           /\ node r' = node r
           /\ isBranchDestination r' = isBranchDestination r
           /\ sourceCode r' = sourceCode r
           /\ param (ref r') = param (ref r)
           /\ afterBranch g1 = is_word (word (ref r')) Opcode._BRANCH).
Proof.
  intros Hws Hnd. destruct (NoDup_middle _ _ _ Hnd) as [Hn1 Hn2].
  unfold assignStep. rewrite Hws, deref_app_notin by exact Hn1.
  simpl deref. rewrite Nat.eqb_refl.
  destruct (afterBranch g) eqn:Eab; destruct (isBranchDestination r) eqn:Ed;
    simpl andb; cbv iota.
  2:{ intros [= <-]. left. simpl. repeat split; try assumption.
      rewrite erase_app, (erase_notin _ done) by exact Hn1.
      rewrite erase_here by reflexivity.
      rewrite erase_notin by exact Hn2. reflexivity. }
  all: match goal with
       | |- context [mbind _ ?m] => destruct m as [[w fl]| | | |]
       end; simpl; try discriminate;
    rewrite assign_middle by (assumption || reflexivity);
    destruct (branchTo r) as [dst|]; simpl;
    try match goal with
        | |- (?m ≫= _) ≫= _ = _ -> _ => destruct m as [d| | | |]
        end; simpl; try discriminate;
    rewrite !assign_middle by (assumption || reflexivity);
    intros [= <-]; right; (split; [tauto|]); eexists; simpl;
    (split; [reflexivity|]); simpl; repeat split; assumption.
Qed.

Lemma assignLoop_kept (rest : list (SourceWord Value)) :
  forall (g g' : Generation Value) done,
  g_words g = done ++ rest ->
  NoDup (map node (done ++ rest)) ->
  assignLoop g (map node rest) = ok g' ->
  exists kept,
    g_words g' = done ++ kept
    /\ sublist (map node kept) (map node rest)
    /\ (forall i, i ∈ rest -> isBranchDestination i = true ->
        node i ∈ map node kept)
    /\ (afterBranch g = false ->
        forall i, head rest = Some i -> node i ∈ map node kept)
    /\ (forall e, e ∈ kept ->
        exists i, i ∈ rest /\ node i = node e
                  /\ isBranchDestination e = isBranchDestination i
                  /\ sourceCode e = sourceCode i
                  /\ param (ref e) = param (ref i)).
Proof.
  induction rest as [|r rest IH]; intros g g' done Hws Hnd; simpl.
  - intros [= <-]. exists []. split; [exact Hws|]. split; [constructor|].
    split; [intros i Hi; inversion Hi|].
    split; [intros _ i Hi; discriminate Hi|intros e He; inversion He].
  - destruct (assignStep g (node r)) as [g1| | | |] eqn:E1; simpl;
      try discriminate.
    intros Hloop.
    destruct (assignStep_cases g g1 done r rest Hws Hnd E1)
      as [(Hab & Hd & Hws1 & Hab1)
         |(Hor & r' & Hws1 & Hn & Hd' & Hs' & Hp' & Hab1)].
    + assert (Hnd1 : NoDup (map node (done ++ rest))).
      { rewrite map_app in *. simpl in Hnd.
        apply NoDup_app in Hnd as (Hd1 & Hdis & Hd2).
        apply NoDup_cons in Hd2 as [_ Hd2].
        apply NoDup_app. repeat split; try assumption.
        intros x Hx Hx'. apply (Hdis x Hx). apply list_elem_of_further, Hx'. }
      destruct (IH g1 g' done Hws1 Hnd1 Hloop)
        as (kept & Hk & Hsub & Hdst & _ & Hsame).
      exists kept. split; [exact Hk|]. split; [apply sublist_cons, Hsub|].
      split; [|split].
      * intros i Hi Hdi. apply elem_of_cons in Hi as [->|Hi];
          [congruence|apply Hdst; assumption].
      * intros Hf. congruence.
      * intros e He. destruct (Hsame e He) as (i & Hi & Hrest).
        exists i. split; [apply list_elem_of_further, Hi|exact Hrest].
    + assert (Hnd1 : NoDup (map node ((done ++ [r']) ++ rest))).
      { rewrite <- app_assoc. simpl. rewrite map_app in *. simpl in *.
        rewrite Hn. exact Hnd. }
      destruct (IH g1 g' (done ++ [r'])) as (kept & Hk & Hsub & Hdst & _ & Hsame);
        [rewrite <- app_assoc; exact Hws1 | exact Hnd1 | exact Hloop |].
      exists (r' :: kept). split; [rewrite Hk, <- app_assoc; reflexivity|].
      split; [simpl; rewrite Hn; apply sublist_skip, Hsub|].
      split; [|split].
      * intros i Hi Hdi. apply elem_of_cons in Hi as [->|Hi].
        -- simpl. rewrite Hn. apply list_elem_of_here.
        -- simpl. apply list_elem_of_further, Hdst; assumption.
      * intros _ i [= <-]. simpl. rewrite Hn. apply list_elem_of_here.
      * intros e He. apply elem_of_cons in He as [->|He].
        -- exists r. split; [apply list_elem_of_here|].
           repeat split; congruence.
        -- destruct (Hsame e He) as (i & Hi & Hrest).
           exists i. split; [apply list_elem_of_further, Hi|exact Hrest].
Qed.

(** X18.  The first loop of [generateInstructions] erases entries and
    moves none: the entries it keeps are in their order.  It never erases
    an entry that is marked as a branch destination, and never the first
    entry of the list.  Of an entry it keeps it changes the word, the
    target and the pc only: the mark, the source position and the inline
    parameter are the ones the entry had. *)
Theorem dead_code_pass_keeps_destinations
    (ws : list (SourceWord Value)) (flags : Z) (g : Generation Value) :
  NoDup (map node ws) ->
  assignPCs ws flags = ok g ->
  sublist (map node (g_words g)) (map node ws)
  /\ (forall i, i ∈ ws -> isBranchDestination i = true ->
      node i ∈ map node (g_words g))
  /\ (forall i, head ws = Some i -> node i ∈ map node (g_words g))
  /\ (forall e, e ∈ g_words g ->
      exists i, i ∈ ws /\ node i = node e
                /\ isBranchDestination e = isBranchDestination i
                /\ sourceCode e = sourceCode i
                /\ param (ref e) = param (ref i)).
Proof.
  intros Hnd Hg. unfold assignPCs in Hg.
  destruct (assignLoop_kept ws
              {| g_words := ws; g_flags := flags; afterBranch := false;
                 codeSize := 0 |} g [] eq_refl Hnd Hg)
    as (kept & Hk & Hsub & Hdst & Hhd & Hsame).
  simpl in Hk. rewrite Hk.
  split; [exact Hsub|]. split; [exact Hdst|].
  split; [apply Hhd; reflexivity|exact Hsame].
Qed.

End DeadCodeFacts.

Lemma dead_code_pass_keeps_destinations_witness :
  exists g,
    assignPCs if_else_words NoFlags = ok g
    /\ sublist (map node (g_words g)) (map node if_else_words).
Proof.
  destruct (assignPCs if_else_words NoFlags) as [g| | | |] eqn:E;
    try (vm_compute in E; discriminate E).
  exists g. split; [reflexivity|].
  apply (dead_code_pass_keeps_destinations if_else_words NoFlags g);
    [|exact E].
  apply (bool_decide_unpack _). vm_compute. exact I.
Defined.

(** ** Calls, core words and arguments *)

Section CallFacts.

Context {Value : Type} `{ValueOps Value}.

Implicit Types (c : Compiler Value).

(** [CALL] runs the word at the address to its [_RETURN] and continues
    after the address. *)
Lemma call_then_RETURN (mem : gmap Z (list (Cell Value))) (a : Z)
    (body : list (Cell Value)) (fuel : nat) (sp : Stack Value) :
  mem !! a = Some body ->
  call (S (S fuel)) mem
       [C_op Opcode.CALL; C_param (p_word a); C_op Opcode._RETURN] sp
  = call (S fuel) mem body sp
  /\ call 1 mem [C_op Opcode.CALL; C_param (p_word a); C_op Opcode._RETURN] sp
     = OutOfFuel.
Proof.
  intros Hb. unfold call. split.
  - cbn [dispatch fetch]. simpl. rewrite Hb.
    destruct (fetch body 0) as [[op|p]|]; try reflexivity.
    destruct (handler op) as [f|]; try reflexivity.
    destruct (f body sp (0 + 1)) as [sp' pc'|sp'|callee sp' pc'| |pc'];
      try reflexivity.
    + destruct (dispatch fuel mem body pc' sp'); reflexivity.
    + destruct (mem !! callee) as [code|]; [|reflexivity].
      destruct (dispatch fuel mem code 0 sp') as [sp0| | |]; try reflexivity.
      destruct (dispatch fuel mem body pc' sp0); reflexivity.
  - simpl. rewrite Hb. reflexivity.
Qed.

(** X19.  [Compiler::compile] of one interpreted word makes the three
    cells [CALL], the address of the word, [_RETURN].  Called on a stack,
    the compiled word comes to an outcome (it returns a stack, or its
    behaviour is undefined) exactly when the word at the address does on
    that stack, and the outcome is the same: [CALL] runs the word to its
    [_RETURN] and continues after the address.  Without instructions at
    the address the behaviour is undefined. *)
Theorem compiled_call_runs_the_word
    (computeEffect : Compiler Value -> Throws StackEffect)
    (w : Word) (a : Z) (e : StackEffect) (addr : Z)
    (vocab : gmap string Word) (mem : gmap Z (list (Cell Value)))
    (sp : Stack Value) :
  instruction w = interpreted a ->
  computeEffect (compiled_straight [WordRef_of w]) = ok e ->
  exists cw,
    Compiler_compile computeEffect [WordRef_of w] addr vocab = (ok cw, vocab)
    /\ _instrs cw = [C_op Opcode.CALL; C_param (p_word a); C_op Opcode._RETURN]
    /\ (forall body o, mem !! a = Some body -> o <> OutOfFuel ->
        (exists fuel, call fuel mem (_instrs cw) sp = o)
        <-> (exists fuel, call fuel mem body sp = o))
    /\ (mem !! a = None ->
        forall fuel, call (S fuel) mem (_instrs cw) sp = Undefined).
Proof.
  intros Ei He.
  assert (Hrefs : Forall (fun r : WordRef Value =>
                            is_word (word r) Opcode._BRANCH = false
                            /\ is_word (word r) Opcode._RECURSE = false)
                         [WordRef_of w]).
  { constructor; [|constructor]. unfold is_word. simpl. rewrite Ei.
    split; reflexivity. }
  destruct (generate_straight computeEffect _ e Hrefs He)
    as (_ & c3 & Hg & Hn & Hf & Hef).
  assert (Hcode : assembleRefs [WordRef_of (Value:=Value) w]
                    ++ [C_op Opcode._RETURN]
                  = [C_op Opcode.CALL; C_param (p_word a);
                     C_op Opcode._RETURN]).
  { unfold assembleRefs, Assembler_add. simpl. rewrite Ei. reflexivity. }
  rewrite Hcode in Hg.
  eexists. split.
  { unfold Compiler_compile, compileUnit, finish, CompiledWord_compile.
    destruct (addAll _ None (Compiler_new "")) as [c| | | |];
      simpl in Hg; try discriminate Hg.
    rewrite Hg, Hn, Hf, Hef. reflexivity. }
  split; [reflexivity|]. simpl _instrs. split.
  - intros body o Hb Ho.
    destruct (call_then_RETURN mem a body 0 sp Hb) as [_ H1].
    split; intros (fuel & Hr).
    + destruct fuel as [|[|fuel]].
      * exfalso. apply Ho. rewrite <- Hr. reflexivity.
      * exfalso. apply Ho. rewrite <- Hr. exact H1.
      * exists (S fuel). rewrite <- Hr. symmetry.
        apply (call_then_RETURN mem a body fuel sp Hb).
    + destruct fuel as [|fuel].
      * exfalso. apply Ho. rewrite <- Hr. reflexivity.
      * exists (S (S fuel)). rewrite <- Hr.
        apply (call_then_RETURN mem a body fuel sp Hb).
  - intros Hb fuel. unfold call. simpl. rewrite Hb. reflexivity.
Qed.

(** The words of [kWords] are Magic, or take no parameter and are not to
    be inlined. *)
Lemma kWords_flags :
  Forall (fun w => (isMagic w = true /\ exists nm, name w = Some nm)
                   \/ (isMagic w = false /\ parameters w = 0
                       /\ hasFlag w Inline = false))
         kWords.
Proof.
  unfold kWords.
  repeat apply List.Forall_cons; try apply List.Forall_nil;
    first [left; split; [reflexivity|eexists; reflexivity]
          | right; repeat split].
Qed.

(** X20.  The parser's [add(const Word* )] on a word of [kWords], the
    words registered in the vocabulary at startup: a Magic one (CALL,
    LITERAL, BRANCH, 0BRANCH) is refused with a compile error; every
    other one passes the assertion on its parameters and is added as the
    entry before the placeholder, with the source position given, at the
    position the call returns.  RETURN is among the words the parser
    may add. *)
Theorem add_word_of_kWords (disassemble : Z -> list (WordRef Value))
    (w : Word) (sourcePos : option Z) c :
  w ∈ kWords ->
  WellFormed c ->
  (if isMagic w
   then add_word disassemble w sourcePos c
        = compile_error
            ("Special word " +:+ default "" (name w)
             +:+ " cannot be added by parser") sourcePos
   else exists i c' e,
       add_word disassemble w sourcePos c = ok (i, c')
       /\ back c = ok i
       /\ deref (_words c') i = Some e
       /\ ref e = WordRef_of w /\ sourceCode e = sourcePos
       /\ WellFormed c')
  /\ isMagic _RETURN = false /\ _RETURN ∈ kWords.
Proof.
  intros Hw Hwf. split; [|split; [reflexivity|]].
  - pose proof kWords_flags as Hall. rewrite Forall_forall in Hall.
    destruct (Hall w Hw) as [(Hm & nm & Hn)|(Hm & Hp & Hi)]; rewrite Hm.
    + rewrite add_word_eq, Hm, Hn. reflexivity.
    + rewrite add_word_eq, Hm, Hp, Hi. simpl.
      destruct (add_spec c (WordRef_of w) sourcePos Hwf)
        as (pre & ph & E & Hph & Hn & Ha).
      rewrite Ha. eexists _, _, _. split; [reflexivity|].
      split; [unfold back; rewrite E, last_snoc; reflexivity|].
      split.
      { simpl. rewrite deref_app_notin by exact Hn.
        simpl. rewrite Nat.eqb_refl. reflexivity. }
      split; [reflexivity|]. split; [reflexivity|].
      eapply add_WellFormed; [exact Hwf|exact Ha].
  - unfold kWords. apply list_elem_of_In. simpl. tauto.
Qed.

Lemma setInputStack_inputs (values : list Value) (e : StackEffect) :
  inputs (fold_left (fun e v => addInput (Z.shiftl 1 (v_type v)) e) values e)
  = inputs e ++ map (fun v => Z.shiftl 1 (v_type v)) values
  /\ outputs (fold_left (fun e v => addInput (Z.shiftl 1 (v_type v)) e)
                        values e)
     = outputs e.
Proof.
  revert e. induction values as [|v values IH]; intros e; simpl.
  - rewrite app_nil_r. split; reflexivity.
  - destruct (IH (addInput (Z.shiftl 1 (v_type v)) e)) as [-> ->].
    simpl. rewrite <- app_assoc. split; reflexivity.
Qed.

(** X21.  [setInputStack] replaces the effect of the word by one input
    per value of the stack it is given, bottom first, and no output, and
    closes the inputs.  An [addGetArg(offset)] after it passes both
    assertions exactly when [1 - #values <= offset <= #locals]; it then
    adds [_GETARG offset] at the position it returns and records that the
    word uses its arguments. *)
Theorem setInputStack_then_addGetArg (values : list Value)
    (stackOffset : Z) (sourcePos : option Z) c :
  WellFormed c ->
  inputs (_effect (setInputStack values c))
  = map (fun v => Z.shiftl 1 (v_type v)) values
  /\ outputs (_effect (setInputStack values c)) = []
  /\ _effectCanAddInputs (setInputStack values c) = false
  /\ _effectCanAddOutputs (setInputStack values c) = true
  /\ if (1 - Z.of_nat (length values) <=? stackOffset)
        && (stackOffset <=? Z.of_nat (length (_localsTypes c)))
     then exists i c' e,
         addGetArg stackOffset sourcePos (setInputStack values c) = ok (i, c')
         /\ _usesArgs c' = true
         /\ deref (_words c') i = Some e
         /\ ref e = {| word := _GETARG; param := p_offset stackOffset |}
     else addGetArg stackOffset sourcePos (setInputStack values c)
          = assertion_failed.
Proof.
  intros Hwf.
  destruct (setInputStack_inputs values StackEffect_empty) as [Hi Ho].
  split; [exact Hi|]. split; [exact Ho|].
  split; [reflexivity|]. split; [reflexivity|].
  unfold addGetArg, inputCount.
  change (inputs (_effect (setInputStack values c)))
    with (inputs (fold_left (fun e v => addInput (Z.shiftl 1 (v_type v)) e)
                            values StackEffect_empty)).
  rewrite Hi. simpl app. rewrite length_map.
  change (_localsTypes (setInputStack values c)) with (_localsTypes c).
  unfold assert.
  destruct (1 - Z.of_nat (length values) <=? stackOffset); simpl;
    [|reflexivity].
  destruct (stackOffset <=? Z.of_nat (length (_localsTypes c))); simpl;
    [|reflexivity].
  assert (Hwf' : WellFormed (with_usesArgs true (setInputStack values c)))
    by exact Hwf.
  destruct (add_spec _ {| word := _GETARG; param := p_offset stackOffset |}
                     sourcePos Hwf') as (pre & ph & E & Hph & Hn & Ha).
  rewrite Ha. eexists _, _, _. split; [reflexivity|].
  split; [reflexivity|]. split.
  - simpl. rewrite deref_app_notin by exact Hn.
    simpl. rewrite Nat.eqb_refl. reflexivity.
  - reflexivity.
Qed.

End CallFacts.

Lemma compiled_call_runs_the_word_witness :
  exists cw,
    Compiler_compile (Value:=Value) (fun c => ok (StackEffect_of 1 1 1))
      [WordRef_of SQUARE] 0x2000 ∅ = (ok cw, ∅)
    /\ exists fuel,
         call fuel (core_memory Value) (_instrs cw) [Number 4%float]
         = Returned [Number 16%float].
Proof.
  destruct (compiled_call_runs_the_word (Value:=Value)
              (fun c => ok (StackEffect_of 1 1 1))
              SQUARE a_SQUARE (StackEffect_of 1 1 1) 0x2000 ∅
              (core_memory Value) [Number 4%float] eq_refl eq_refl)
    as (cw & Hc & _ & Hr & _).
  exists cw. split; [exact Hc|].
  apply (Hr i_SQUARE (Returned [Number 16%float]) eq_refl).
  - discriminate.
  - exists 3%nat. vm_compute. reflexivity.
Defined.

Lemma add_word_of_kWords_witness :
  exists i c',
    add_word no_inline DUP None (Compiler_new (Value:=Value) "") = ok (i, c')
    /\ back (Compiler_new (Value:=Value) "") = ok i.
Proof.
  destruct (add_word_of_kWords no_inline DUP None (Compiler_new "")) as [X _].
  - unfold kWords. apply list_elem_of_In. simpl. tauto.
  - apply Compiler_new_WellFormed.
  - simpl in X. destruct X as (i & c' & e & Ha & Hb & _).
    exists i, c'. split; [exact Ha|exact Hb].
Defined.

Lemma setInputStack_then_addGetArg_witness :
  inputs (_effect (setInputStack [Number 7%float; Null] (Compiler_new "")))
  = [2; 1].
Proof.
  refine (eq_trans
            (proj1 (setInputStack_then_addGetArg [Number 7%float; Null] 0 None
                      (Compiler_new "") (Compiler_new_WellFormed "")))
            _).
  reflexivity.
Defined.

(** ** The prompt of the REPL *)

(** X22.  [print] of repl.cc always writes [kPromptIndent] characters: a
    string that is shorter is written whole after the blanks that fill the
    field, a string that is longer loses its beginning and its last
    [kPromptIndent] characters are written. *)
Theorem print_fills_the_field (str : list ascii) :
  length (print str) = kPromptIndent
  /\ print str
     = replicate (kPromptIndent - length str) " "%char
       ++ drop (length str - kPromptIndent) str
  /\ ((length str <= kPromptIndent)%nat ->
      print str = replicate (kPromptIndent - length str) " "%char ++ str)
  /\ ((kPromptIndent <= length str)%nat ->
      print str = drop (length str - kPromptIndent) str).
Proof.
  assert (Hp : print str
               = replicate (kPromptIndent - length str) " "%char
                 ++ drop (length str - kPromptIndent) str).
  { unfold print. generalize kPromptIndent. intros n.
    destruct (Nat.le_ge_cases (length str) n) as [Hle|Hge].
    - rewrite Nat.min_l by exact Hle.
      replace (length str - length str)%nat with 0%nat by lia.
      replace (length str - n)%nat with 0%nat by lia.
      rewrite !drop_0, take_ge by lia. reflexivity.
    - rewrite Nat.min_r by exact Hge.
      rewrite take_ge by (rewrite length_drop; lia).
      replace (n - n)%nat with (n - length str)%nat by lia. reflexivity. }
  split; [|split; [exact Hp|split]].
  - rewrite Hp, length_app, length_replicate, length_drop. lia.
  - intros Hle. rewrite Hp.
    replace (length str - kPromptIndent)%nat with 0%nat by lia.
    rewrite drop_0. reflexivity.
  - intros Hge. rewrite Hp.
    replace (kPromptIndent - length str)%nat with 0%nat by lia.
    reflexivity.
Qed.

(** ** The flags of a compiled word *)

Section FlagFacts.

Context {Value : Type} `{ValueOps Value}.

Implicit Types (c : Compiler Value).

Lemma add_flags (r : WordRef Value) (source : option Z) c i c' :
  add r source c = ok (i, c') -> _flags c' = _flags c.
Proof.
  unfold add. destruct (last (_words c)); [|discriminate].
  intros [= _ <-]. reflexivity.
Qed.

Lemma addInline_loop_flags (refs : list (WordRef Value)) (source : option Z)
    c c' :
  addInline_loop refs source c = ok c' -> _flags c' = _flags c.
Proof.
  revert c. induction refs as [|r refs IH]; intros c; simpl; [discriminate|].
  destruct (is_word (word r) Opcode._RETURN); [intros [= <-]; reflexivity|].
  destruct (add r source c) as [[i c1]| | | |] eqn:Ea; simpl; try discriminate.
  intros Hl. rewrite (IH _ Hl). eapply add_flags, Ea.
Qed.

Lemma perform_flags (disassemble : Z -> list (WordRef Value))
    (k : Call Value) c c' :
  perform disassemble k c = ok c' -> _flags c' = _flags c.
Proof.
  assert (Hadd : forall r source c0 c1,
             snd <$> add r source c0 = ok c1 -> _flags c1 = _flags c0).
  { intros r source c0 c1.
    destruct (add r source c0) as [[i c2]| | | |] eqn:Ea; simpl;
      try discriminate.
    intros [= <-]. eapply add_flags, Ea. }
  destruct k as [r source|w sourcePos|w n sourcePos|v sourcePos
                |stackOffset sourcePos|stackOffset sourcePos|type| |pos|src
                |identifier branch|matching|values]; simpl.
  - apply Hadd.
  - rewrite add_word_eq.
    destruct (isMagic w); [destruct (name w); discriminate|].
    destruct (assert _) as [[]| | | |]; simpl; try discriminate.
    destruct (hasFlag w Inline); [|apply Hadd].
    unfold addInline. destruct (instruction w) as [op|a]; [apply Hadd|].
    destruct (back c) as [e| | | |]; simpl; try discriminate.
    destruct (addInline_loop _ _ _) as [c1| | | |] eqn:El; simpl;
      try discriminate.
    intros [= <-]. eapply addInline_loop_flags, El.
  - unfold add_word_param.
    destruct (assert _) as [[]| | | |]; simpl; try discriminate.
    destruct (hasIntParam w); apply Hadd.
  - unfold addLiteral. destruct (v_int16 v); apply Hadd.
  - unfold addGetArg, assert.
    destruct (1 - _ <=? _); simpl; try discriminate.
    destruct (_ <=? _); simpl; try discriminate.
    intros Ha. apply Hadd in Ha. exact Ha.
  - apply Hadd.
  - intros [= <-]. unfold reserveLocalVariable.
    destruct (_words c) as [|i tl]; [reflexivity|].
    destruct (is_word (word (ref i)) Opcode._LOCALS); reflexivity.
  - unfold addRecurse.
    destruct (add _ None c) as [[i c1]| | | |] eqn:Ea; simpl; try discriminate.
    destruct (begin c1) as [b| | | |]; simpl; try discriminate.
    intros [= <-]. simpl. eapply add_flags, Ea.
  - unfold addBranchBackTo.
    destruct (add _ None c) as [[i c1]| | | |] eqn:Ea; simpl; try discriminate.
    intros [= <-]. simpl. eapply add_flags, Ea.
  - unfold fixBranch. destruct (back c) as [e| | | |]; simpl; try discriminate.
    intros [= <-]. reflexivity.
  - unfold pushBranch. destruct branch as [b|].
    + destruct (add _ _ c) as [[i c1]| | | |] eqn:Ea; simpl; try discriminate.
      intros [= <-]. simpl. eapply add_flags, Ea.
    + destruct (back c) as [e| | | |]; simpl; try discriminate.
      intros [= <-]. reflexivity.
  - unfold popBranch. destruct (last (_controlStack c)) as [ctrl|];
      [|discriminate].
    destruct (strchr matching ctrl.1); [|discriminate].
    simpl. intros [= <-]. reflexivity.
  - intros [= <-]. reflexivity.
Qed.

Lemma performAll_flags (disassemble : Z -> list (WordRef Value))
    (calls : list (Call Value)) c c' :
  performAll disassemble calls c = ok c' -> _flags c' = _flags c.
Proof.
  revert c. induction calls as [|k calls IH]; intros c; simpl.
  - intros [= <-]. reflexivity.
  - destruct (perform disassemble k c) as [c1| | | |] eqn:Ek; simpl;
      try discriminate.
    intros Hr. rewrite (IH _ Hr). eapply perform_flags, Ek.
Qed.

Lemma epilogue_flags c c2 : epilogue c = ok c2 -> _flags c2 = _flags c.
Proof.
  unfold epilogue.
  destruct (addDropArgs c) as [c1| | | |] eqn:E1; simpl; try discriminate.
  assert (H1 : _flags c1 = _flags c).
  { unfold addDropArgs in E1.
    destruct (_ || _); [|injection E1 as <-; reflexivity].
    destruct (0 <? _); [|injection E1 as <-; reflexivity].
    destruct (add _ None c) as [[i c0]| | | |] eqn:Ea; simpl in E1;
      try discriminate E1.
    injection E1 as <-. eapply add_flags, Ea. }
  unfold addReturn. destruct (last (_words c1)); [|discriminate].
  destruct (assert _) as [[]| | | |]; simpl; try discriminate.
  intros [= <-]. exact H1.
Qed.

Lemma assignStep_flags (g g1 : Generation Value) (pos : InstructionPos) :
  assignStep g pos = ok g1 ->
  g_flags g1 = g_flags g \/ g_flags g1 = Z.lor (g_flags g) Recursive.
Proof.
  unfold assignStep. destruct (deref (g_words g) pos) as [i|]; [|discriminate].
  destruct (afterBranch g && negb (isBranchDestination i)).
  - intros [= <-]. left. reflexivity.
  - match goal with
    | |- context [mbind _ ?m] => destruct m as [[w fl]| | | |] eqn:Em
    end; simpl; try discriminate.
    assert (Hfl : fl = g_flags g \/ fl = Z.lor (g_flags g) Recursive).
    { destruct (is_word (word (ref i)) Opcode._RECURSE);
        [|injection Em as _ <-; tauto].
      destruct (next (g_words g) pos) as [n|]; [|discriminate Em].
      match type of Em with
      | context [returnsImmediately ?a ?b ?c] =>
          destruct (returnsImmediately a b c) as [[|]| | | |]
      end; simpl in Em; try discriminate Em; injection Em as _ <-; tauto. }
    destruct (branchTo i) as [dst|]; simpl;
      [match goal with
       | |- (?m ≫= _) ≫= _ = _ -> _ => destruct m as [d| | | |]
       end; simpl; try discriminate|];
      intros [= <-]; exact Hfl.
Qed.

Lemma assignLoop_flags (todo : list InstructionPos) :
  forall (g g' : Generation Value),
  assignLoop g todo = ok g' ->
  g_flags g' = g_flags g \/ g_flags g' = Z.lor (g_flags g) Recursive.
Proof.
  induction todo as [|pos todo IH]; intros g g'; simpl.
  - intros [= <-]. left. reflexivity.
  - destruct (assignStep g pos) as [g1| | | |] eqn:E1; simpl; try discriminate.
    intros Hl. pose proof (assignStep_flags _ _ _ E1) as H1.
    pose proof (IH _ _ Hl) as H2.
    destruct H1 as [E|E]; destruct H2 as [E'|E']; rewrite E', E;
      [tauto|tauto|tauto|].
    right. rewrite <- Z.lor_assoc, Z.lor_diag. reflexivity.
Qed.

(** X23.  None of the building functions that compiler.cc defines
    changes [_flags], and [generateInstructions] adds [Recursive] to them
    at most.  So when the flags of a compiler hold nothing but [Inline],
    [Recursive] and [Magic] (a new Compiler has none), the assertion of
    [CompiledWord(Compiler&&)] on the flags holds after any such calls,
    and [finish()] returns the word, with the flags of the compiler and
    the instructions generated, whenever [generateInstructions] returns. *)
Theorem flags_grow_by_Recursive_at_most
    (computeEffect : Compiler Value -> Throws StackEffect)
    (disassemble : Z -> list (WordRef Value)) (calls : list (Call Value))
    (c0 c : Compiler Value) (instrs : list (Cell Value)) c' (addr : Z)
    (vocab : gmap string Word) :
  Z.land (_flags c0) (Z.lnot (Z.lor (Z.lor Inline Recursive) Magic)) = 0 ->
  performAll disassemble calls c0 = ok c ->
  generateInstructions computeEffect c = ok (instrs, c') ->
  _flags c = _flags c0
  /\ (_flags c' = _flags c0 \/ _flags c' = Z.lor (_flags c0) Recursive)
  /\ exists cw,
       (finish computeEffect c addr vocab).1 = ok cw
       /\ flags (toWord cw) = _flags c'
       /\ stackEffect (toWord cw) = _effect c'
       /\ _instrs cw = instrs.
Proof.
  intros Hm Hc Hg.
  assert (Hf : _flags c = _flags c0) by exact (performAll_flags _ _ _ _ Hc).
  assert (Hf' : _flags c' = _flags c0
                \/ _flags c' = Z.lor (_flags c0) Recursive).
  { unfold generateInstructions in Hg.
    destruct (checkControlStack c); simpl in Hg; try discriminate Hg.
    destruct (epilogue c) as [c2| | | |] eqn:E2; simpl in Hg;
      try discriminate Hg.
    destruct (computeEffect c2); simpl in Hg; try discriminate Hg.
    destruct (assignPCs _ _) as [g| | | |] eqn:Eg; simpl in Hg;
      try discriminate Hg.
    destruct (assemble _ _); simpl in Hg; try discriminate Hg.
    injection Hg as _ <-. simpl.
    unfold assignPCs in Eg. apply assignLoop_flags in Eg. simpl in Eg.
    rewrite (epilogue_flags _ _ E2), Hf in Eg. exact Eg. }
  split; [exact Hf|]. split; [exact Hf'|].
  unfold finish, CompiledWord_compile. rewrite Hg.
  assert (Hz : (Z.land (_flags c')
                       (Z.lnot (Z.lor (Z.lor Inline Recursive) Magic)) =? 0)
               = true).
  { apply Z.eqb_eq. destruct Hf' as [-> | ->]; [exact Hm|].
    rewrite Z.land_lor_distr_l, Hm. reflexivity. }
  rewrite Hz. eexists. split; [reflexivity|]. repeat split.
Qed.

End FlagFacts.

Lemma flags_grow_by_Recursive_at_most_witness :
  exists c instrs c',
    performAll no_inline [do_add (WordRef_of DUP) None; do_addRecurse;
                          do_add (WordRef_of DROP) None]
               (with_flags Inline (Compiler_new "W")) = ok c
    /\ generateInstructions (fun c => ok (_effect c)) c = ok (instrs, c')
    /\ (_flags c' = Inline \/ _flags c' = Z.lor Inline Recursive).
Proof.
  destruct (performAll no_inline [do_add (WordRef_of DUP) None; do_addRecurse;
                                  do_add (WordRef_of DROP) None]
                       (with_flags Inline (Compiler_new "W")))
    as [c| | | |] eqn:Ec;
    try (vm_compute in Ec; discriminate Ec).
  destruct (generateInstructions (fun c => ok (_effect c)) c)
    as [[instrs c']| | | |] eqn:Eg;
    try (vm_compute in Ec; injection Ec as <-; vm_compute in Eg;
         discriminate Eg).
  exists c, instrs, c'. split; [reflexivity|]. split; [exact Eg|].
  apply (flags_grow_by_Recursive_at_most _ _ _
           (with_flags Inline (Compiler_new "W")) _ _ _ 0 ∅ eq_refl Ec Eg).
Defined.
